(** * Language-aware indexing and retrieval of the RAG chatbot

    A shallow embedding of the chunker ([src/rag/chunk.ts]), the retriever
    ([src/rag/retriever.ts]), the generated title dictionary
    ([scripts/generate-title-dictionary.ts]) and the ingestion path logic
    ([scripts/verify-ingest-logic.ts]), with the properties the design
    document states about them. *)

From Stdlib Require Import ZArith NArith List Ascii String Lia Bool DecimalNat.
From stdpp Require Import base tactics option list gmap sorting.
From Equations Require Import Equations.
Import ListNotations.

Local Open Scope nat_scope.

(** ** JavaScript strings

    A JavaScript string is a sequence of UTF-16 code units; [length],
    [includes], [split] and the regular expressions of the sources (none has
    the [u] flag) all work on code units. *)

Module Js.

Definition jsstring := list N.

(** An ASCII literal of the source. *)
Definition lit (s : string) : jsstring :=
  List.map N_of_ascii (list_ascii_of_string s).

Definition is_empty (s : jsstring) : bool :=
  match s with [] => true | _ => false end.

(** [Boolean(s)] on a string: the empty string is the only falsy one. *)
Definition truthy (s : jsstring) : bool := negb (is_empty s).

Definition str_eqb (a b : jsstring) : bool := bool_decide (a = b).

(** [\s] of a regular expression and the characters [trim] removes are the
    same set: WhiteSpace (TAB, VT, FF, ZWNBSP and the space separators)
    together with LineTerminator (LF, CR, LS, PS). *)
Definition isWs (c : N) : bool :=
  ((9 <=? c) && (c <=? 13) || (c =? 32) || (c =? 160) || (c =? 5760)
   || (8192 <=? c) && (c <=? 8202) || (c =? 8232) || (c =? 8233)
   || (c =? 8239) || (c =? 8287) || (c =? 12288) || (c =? 65279))%N.

(** LineTerminator, what [^] looks behind for under the [m] flag. *)
Definition isLineTerminator (c : N) : bool :=
  ((c =? 10) || (c =? 13) || (c =? 8232) || (c =? 8233))%N.

Fixpoint takeWhile (p : N -> bool) (s : jsstring) : jsstring :=
  match s with
  | c :: s' => if p c then c :: takeWhile p s' else []
  | [] => []
  end.

Fixpoint dropWhile (p : N -> bool) (s : jsstring) : jsstring :=
  match s with
  | c :: s' => if p c then dropWhile p s' else s
  | [] => []
  end.

Definition trimStart (s : jsstring) : jsstring := dropWhile isWs s.
Definition trimEnd (s : jsstring) : jsstring := rev (dropWhile isWs (rev s)).

(** [s.trim()] *)
Definition trim (s : jsstring) : jsstring := trimEnd (trimStart s).

(** [s.startsWith(p)] *)
Fixpoint startsWith (s p : jsstring) {struct p} : bool :=
  match p, s with
  | [], _ => true
  | a :: p', b :: s' => (a =? b)%N && startsWith s' p'
  | _ :: _, [] => false
  end.

(** [s.endsWith(p)] *)
Definition endsWith (s p : jsstring) : bool := startsWith (rev s) (rev p).

(** [s.includes(p)] *)
Fixpoint includes (s p : jsstring) : bool :=
  startsWith s p ||
  match s with
  | [] => false
  | _ :: s' => includes s' p
  end.

(** [s.replace(p, r)] with a string pattern: only the first occurrence of [p]
    is replaced. *)
Fixpoint replaceFirst (s p r : jsstring) : jsstring :=
  if startsWith s p then r ++ drop (length p) s
  else match s with
       | [] => []
       | c :: s' => c :: replaceFirst s' p r
       end.

(** [parts.join(sep)] *)
Fixpoint join (sep : jsstring) (parts : list jsstring) : jsstring :=
  match parts with
  | [] => []
  | [p] => p
  | p :: ps => p ++ sep ++ join sep ps
  end.

(** The content of a string that is not white space. *)
Definition nonWs (s : jsstring) : jsstring :=
  List.filter (fun c => negb (isWs c)) s.

(** A string is clean at its head when it does not start with white space. *)
Definition headClean (s : jsstring) : bool :=
  match s with [] => true | c :: _ => negb (isWs c) end.

End Js.
Import Js.

(** ** The chunker, [src/rag/chunk.ts] *)

Module Chunk.

(** One attempt of [/^#{1,6}\s+/m] at a position: [lineStart] says whether
    the position is the start of the input or follows a line terminator, and
    [rest] is the input from the position on. A match is exactly one to six
    [#] followed by at least one white-space character, and [\s+] takes all
    the white space that follows; the result is the length of the match. *)
Definition matchHeading (lineStart : bool) (rest : jsstring) : option nat :=
  let h := length (takeWhile (N.eqb 35) rest) in
  let w := length (takeWhile isWs (drop h rest)) in
  if lineStart && (1 <=? h) && (h <=? 6) && (1 <=? w) then Some (h + w)
  else None.

(** [input.split(/^#{1,6}\s+/m)]: the scan of [String.prototype.split], which
    tries the expression at every position after the last match. [skip]
    counts the characters of the last match still to be passed over,
    [lineStart] is the line-start flag of the current position and [acc]
    holds, reversed, the piece since the end of the last match. *)
Fixpoint splitHeadingsFrom (skip : nat) (lineStart : bool) (acc rest : jsstring)
  : list jsstring :=
  match rest with
  | [] => [rev acc]
  | c :: rest' =>
      match skip with
      | S n => splitHeadingsFrom n (isLineTerminator c) acc rest'
      | O =>
          match matchHeading lineStart rest with
          | Some m =>
              rev acc :: splitHeadingsFrom (m - 1) (isLineTerminator c) [] rest'
          | None => splitHeadingsFrom 0 (isLineTerminator c) (c :: acc) rest'
          end
      end
  end.

Definition splitHeadings (input : jsstring) : list jsstring :=
  splitHeadingsFrom 0 true [] input.

(** Whether the heading expression matches at some position of [rest]. *)
Fixpoint headingFrom (lineStart : bool) (rest : jsstring) : bool :=
  match rest with
  | [] => false
  | c :: rest' =>
      match matchHeading lineStart rest with
      | Some _ => true
      | None => false
      end || headingFrom (isLineTerminator c) rest'
  end.

Definition hasHeading (input : jsstring) : bool := headingFrom true input.

(** The sentence terminators of the character class: the ideographic full
    stop U+3002, the full-width [!], [?] and [;] (U+FF01, U+FF1F, U+FF1B) and
    the ASCII [!], [?] and [;]. *)
Definition isTerminator (c : N) : bool :=
  ((c =? 12290) || (c =? 65281) || (c =? 65311) || (c =? 33) || (c =? 63)
   || (c =? 65307) || (c =? 59))%N.

(** [sec.split(re)] where [re] is a look-behind for a terminator followed by
    any run of white space: the string is cut at every position (but its two
    ends) that a terminator and then only white space precede. [behind] is
    the look-behind at the current position, [acc] the piece so far,
    reversed. The matches are empty, so the scan of [split] never cuts at the
    start of a piece. *)
Fixpoint splitSentencesFrom (behind : bool) (acc rest : jsstring)
  : list jsstring :=
  match rest with
  | [] => [rev acc]
  | c :: rest' =>
      let behind' := isTerminator c || (behind && isWs c) in
      if behind && negb (is_empty acc)
      then rev acc :: splitSentencesFrom behind' [c] rest'
      else splitSentencesFrom behind' (c :: acc) rest'
  end.

Definition splitSentences (sec : jsstring) : list jsstring :=
  splitSentencesFrom false [] sec.

(** [const pushChunk = (s) => { if (s.trim()) chunks.push(s.trim()); }] *)
Definition pushChunk (chunks : list jsstring) (s : jsstring) : list jsstring :=
  if truthy (trim s) then chunks ++ [trim s] else chunks.

(** The inner loop over the parts of a long section; the state is the list of
    chunks and the buffer. *)
Fixpoint packParts (maxLen : Z) (chunks : list jsstring) (buf : jsstring)
    (parts : list jsstring) : list jsstring * jsstring :=
  match parts with
  | [] => (chunks, buf)
  | part :: parts' =>
      if (maxLen <? Z.of_nat (length (buf ++ part)))%Z
      then packParts maxLen (pushChunk chunks buf) part parts'
      else packParts maxLen chunks (buf ++ part) parts'
  end.

(** One turn of the outer loop. *)
Definition chunkSection (maxLen : Z) (chunks : list jsstring) (sec : jsstring)
  : list jsstring :=
  if (Z.of_nat (length sec) <=? maxLen)%Z then pushChunk chunks sec
  else
    let '(chunks', buf) := packParts maxLen chunks [] (splitSentences sec) in
    pushChunk chunks' buf.

(** [input.split(...).map(s => s.trim()).filter(Boolean)] *)
Definition sections (input : jsstring) : list jsstring :=
  List.filter truthy (List.map trim (splitHeadings input)).

(** [sections.length ? sections : [input]] *)
Definition workList (input : jsstring) : list jsstring :=
  match sections input with
  | [] => [input]
  | secs => secs
  end.

Definition chunkText (input : jsstring) (maxLen : Z) : list jsstring :=
  fold_left (chunkSection maxLen) (workList input) [].

Definition defaultMaxLen : Z := 800.

(** What a chunk may be: trimmed, not empty, and within [maxLen] unless it
    is one whole part of the sentence split of a section of the work list. *)
Definition wholePart (work : list jsstring) (s : jsstring) : Prop :=
  exists sec, In sec work /\ In s (splitSentences sec).

Definition chunkOk (maxLen : Z) (work : list jsstring) (c : jsstring) : Prop :=
  c <> [] /\ trim c = c /\
  ((Z.of_nat (length c) <= maxLen)%Z \/
   exists part, wholePart work part /\ c = trim part).

(** What the buffer may hold. *)
Definition bufOk (maxLen : Z) (work : list jsstring) (buf : jsstring) : Prop :=
  buf = [] \/ (Z.of_nat (length buf) <= maxLen)%Z \/ wholePart work buf.

(** Content preservation as the design document words it: the chunks, white
    space apart, are the input, white space apart. *)
Definition chunks_reproduce_input : Prop :=
  forall (input : jsstring) (maxLen : Z),
    nonWs (concat (chunkText input maxLen)) = nonWs input.

End Chunk.

(** ** Results and exceptions

    A JavaScript computation either returns a value or throws. *)

Module Exn.

(** What is thrown and caught is an [Error] object: the engine reads
    [error.message] of what it catches. *)
Record Error := mkError { message : jsstring }.

Inductive Res (A : Type) : Type :=
| Ok (a : A)
| Throw (e : Error).
Arguments Ok {A} a.
Arguments Throw {A} e.

Definition bindR {A B} (r : Res A) (k : A -> Res B) : Res B :=
  match r with
  | Ok a => k a
  | Throw e => Throw e
  end.

(** [try { body } catch (error) { handler }] *)
Definition tryCatchR {A} (body : Res A) (handler : Error -> Res A) : Res A :=
  match body with
  | Ok a => Ok a
  | Throw e => handler e
  end.

(** [xs.map(f)] when the callback may throw: the first throw ends the map. *)
Fixpoint mapR {A B} (f : A -> Res B) (xs : list A) : Res (list B) :=
  match xs with
  | [] => Ok []
  | x :: xs' => bindR (f x) (fun y => bindR (mapR f xs') (fun ys => Ok (y :: ys)))
  end.

End Exn.
Import Exn.

(** ** The platform's URL class

    [new URL(input)] and [new URL(input, base)] throw a [TypeError] on an
    input they cannot parse; [pathname] is read and assigned, and [toString]
    gives the serialised URL. The class belongs to the platform, not to the
    repository: the code is modelled over this interface. *)

Class UrlApi := {
  URL : Type;
  newURL : jsstring -> option jsstring -> option URL;
  pathname : URL -> jsstring;
  setPathname : URL -> jsstring -> URL;
  toString : URL -> jsstring
}.

Definition typeError : Error := mkError (lit "Invalid URL").

Definition constructURL `{UrlApi} (input : jsstring) (base : option jsstring)
  : Res URL :=
  match newURL input base with
  | Some u => Ok u
  | None => Throw typeError
  end.

(** An implementation of the interface for the examples. It accepts
    [http://] and [https://] URLs made of a lower-case host (letters, [.]
    and [-]) and a path of letters, digits, [-], [_], [~] and [/], which
    the platform's parser leaves as they are, and takes every other input as
    one it cannot parse. *)
Module PlainUrl.

Record t := mk { scheme : jsstring; host : jsstring; path : jsstring }.

Definition isLower (c : N) : bool := ((97 <=? c) && (c <=? 122))%N.
Definition isUpper (c : N) : bool := ((65 <=? c) && (c <=? 90))%N.
Definition isDigit (c : N) : bool := ((48 <=? c) && (c <=? 57))%N.

Definition hostChar (c : N) : bool := (isLower c || (c =? 46) || (c =? 45))%N.
Definition pathChar (c : N) : bool :=
  (isLower c || isUpper c || isDigit c
   || (c =? 45) || (c =? 95) || (c =? 126) || (c =? 47))%N.

Definition plainHost (h : jsstring) : bool :=
  match h with
  | c :: _ => isLower c && forallb hostChar h
  | [] => false
  end.

Definition plainPath (p : jsstring) : bool :=
  forallb pathChar p && negb (includes p (lit "//")).

Definition splitScheme (s : jsstring) : option (jsstring * jsstring) :=
  if startsWith s (lit "https://") then Some (lit "https:", drop 8 s)
  else if startsWith s (lit "http://") then Some (lit "http:", drop 7 s)
  else None.

Definition parse (s : jsstring) : option t :=
  match splitScheme s with
  | Some (sch, rest) =>
      let h := takeWhile (fun c => negb (c =? 47)%N) rest in
      let p := dropWhile (fun c => negb (c =? 47)%N) rest in
      if plainHost h && plainPath p
      then Some (mk sch h (if is_empty p then lit "/" else p))
      else None
  | None => None
  end.

Definition construct (input : jsstring) (base : option jsstring) : option t :=
  match base with
  | None => parse input
  | Some b =>
      match parse b with
      | Some u =>
          if startsWith input (lit "/") && plainPath input
          then Some (mk (scheme u) (host u) input)
          else None
      | None => None
      end
  end.

Definition assignPath (u : t) (p : jsstring) : t :=
  mk (scheme u) (host u) (if startsWith p (lit "/") then p else lit "/" ++ p).

Definition serialise (u : t) : jsstring :=
  scheme u ++ lit "//" ++ host u ++ path u.

End PlainUrl.

Definition plainUrlApi : UrlApi :=
  {| URL := PlainUrl.t;
     newURL := PlainUrl.construct;
     pathname := PlainUrl.path;
     setPathname := PlainUrl.assignPath;
     toString := PlainUrl.serialise |}.

(** ** The title dictionary, generated by [scripts/generate-title-dictionary.ts] *)

Module TitleDictionary.

(** What a title can be once it has been read from the dictionary: a
    string, or a member of [Object.prototype], which is a function (for
    [__proto__] the prototype itself): truthy, and equal to no string. *)
Inductive TitleValue :=
| Str (s : jsstring)
| Member (name : jsstring).

(** The names of the members of [Object.prototype]. *)
Definition prototypeMembers : list jsstring :=
  [ lit "constructor"; lit "__defineGetter__"; lit "__defineSetter__";
    lit "hasOwnProperty"; lit "__lookupGetter__"; lit "__lookupSetter__";
    lit "isPrototypeOf"; lit "propertyIsEnumerable"; lit "toString";
    lit "valueOf"; lit "__proto__"; lit "toLocaleString" ].

Definition inherited (name : jsstring) : bool :=
  existsb (str_eqb name) prototypeMembers.

Definition proto : jsstring := lit "__proto__".

(** [titleDictionary] is the generated object, typed
    [{ [chineseTitle: string]: string }] and written as an object literal:
    the finite map holds its own properties, and the object inherits from
    [Object.prototype].

    [titleDictionary[chineseTitle]]: the own property of that name, else the
    member of the prototype of that name, else [undefined]. Neither the
    literal nor an assignment makes an own property named [__proto__] from a
    string, so that name is always read from the prototype. *)
Definition getProperty (titleDictionary : gmap jsstring jsstring)
    (chineseTitle : jsstring) : option TitleValue :=
  if str_eqb chineseTitle proto then Some (Member chineseTitle)
  else
    match titleDictionary !! chineseTitle with
    | Some english => Some (Str english)
    | None => if inherited chineseTitle then Some (Member chineseTitle) else None
    end.

(** [return titleDictionary[chineseTitle] || chineseTitle;] *)
Definition translateTitleToEnglish (titleDictionary : gmap jsstring jsstring)
    (chineseTitle : jsstring) : TitleValue :=
  match getProperty titleDictionary chineseTitle with
  | Some (Str english) => if truthy english then Str english else Str chineseTitle
  | Some (Member name) => Member name
  | None => Str chineseTitle
  end.

(** [translatedTitle !== originalTitle] is [negb] of this: a member of the
    prototype is no string. *)
Definition sameTitle (translatedTitle : TitleValue) (originalTitle : jsstring)
  : bool :=
  match translatedTitle with
  | Str s => str_eqb s originalTitle
  | Member _ => false
  end.

End TitleDictionary.
Import TitleDictionary.

(** ** The retriever, [src/rag/retriever.ts] *)

Module Retriever.

(** [MatchMeta] of [src/utils/schema]: every field is optional. *)
Record MatchMeta := {
  text : option jsstring;
  source : option jsstring;
  title : option jsstring;
  url : option jsstring;
  language : option jsstring
}.

(** A match of the vector store; the score plays no part in the retriever. *)
Record Match := { match_id : jsstring; metadata : option MatchMeta }.

(** A match whose metadata is known to be there: an element of
    [metadataResults]. *)
Record Entry := { entry_id : jsstring; entry_metadata : MatchMeta }.

(** [o || d] on an optional string: a missing or empty string is falsy. *)
Definition orElse (o : option jsstring) (d : jsstring) : jsstring :=
  match o with
  | Some s => if truthy s then s else d
  | None => d
  end.

Definition present (o : option jsstring) : bool :=
  match o with
  | Some s => truthy s
  | None => false
  end.

Definition en : jsstring := lit "en".
Definition zh : jsstring := lit "zh".
Definition enMarker : jsstring := lit "/en/".
Definition placeholder : jsstring := lit "#".

(** [/^\/(zh|en)/] replaced by the empty string. *)
Definition stripLanguagePrefix (pathname : jsstring) : jsstring :=
  if startsWith pathname (lit "/zh") || startsWith pathname (lit "/en")
  then drop 3 pathname else pathname.

Section WithUrl.
Context `{UrlApi}.

Definition convertUrlForLanguage (originalUrl targetLanguage : jsstring)
  : Res jsstring :=
  if is_empty originalUrl || str_eqb originalUrl placeholder then Ok originalUrl
  else
    tryCatchR
      (bindR (constructURL originalUrl None) (fun url =>
       let pathname := pathname url in
       let pathname := stripLanguagePrefix pathname in
       let pathname :=
         if str_eqb targetLanguage en then lit "/en" ++ pathname else pathname in
       let url := setPathname url pathname in
       Ok (toString url)))
      (fun error => Ok originalUrl).

(** *** The pure stages of [getRelevantDocuments] *)

(** [queryRes.matches.filter(m => m.metadata && m.metadata.text)] *)
Definition validMatches (matches : list Match) : list Match :=
  List.filter
    (fun m => match metadata m with
              | Some md => present (text md)
              | None => false
              end)
    matches.

(** A match without text: it has no metadata, or no [text] in it, or an
    empty one. A match with the text [t]: its metadata has the non-empty
    text [t]. *)
Definition withoutText (m : Match) : Prop :=
  match metadata m with
  | Some md => text md = None \/ text md = Some []
  | None => True
  end.

Definition withText (m : Match) (t : jsstring) : Prop :=
  exists md, metadata m = Some md /\ text md = Some t /\ t <> [].

(** [validMatches.map(m => ({ id: m.id, metadata: m.metadata }))]: after the
    filter every match has its metadata. *)
Definition toEntries (valid : list Match) : list Entry :=
  flat_map
    (fun m => match metadata m with
              | Some md => [ {| entry_id := match_id m; entry_metadata := md |} ]
              | None => []
              end)
    valid.

(** [r.metadata?.url?.includes('/en/')] *)
Definition urlHasMarker (r : Entry) : bool :=
  match url (entry_metadata r) with
  | Some u => includes u enMarker
  | None => false
  end.

(** Step 3, the callback of the post-query filter and the filter itself. The
    callback looks at the whole list (the one before the filter) on every
    element. *)
Definition postFilterKeeps (currentLang : jsstring) (metadataResults : list Entry)
    (v : Entry) : bool :=
  let url := orElse (url (entry_metadata v)) [] in
  if str_eqb currentLang en then
    let englishResults := List.filter urlHasMarker metadataResults in
    if (0 <? length englishResults) then includes url enMarker
    else negb (includes url enMarker)
  else if str_eqb currentLang zh then negb (includes url enMarker)
  else true.

Definition postFilter (currentLang : jsstring) (metadataResults : list Entry)
  : list Entry :=
  List.filter (postFilterKeeps currentLang metadataResults) metadataResults.

(** The matches kept for the context and the sources. *)
Definition retained (currentLang : jsstring) (usedFallback : bool)
    (matches : list Match) : list Entry :=
  let metadataResults := toEntries (validMatches matches) in
  if usedFallback then postFilter currentLang metadataResults
  else metadataResults.

(** Step 4. *)
Definition separator : jsstring := [10%N] ++ lit "---" ++ [10%N].

Definition buildContexts (metadataResults : list Entry) : jsstring :=
  join separator
    (List.map (fun t => orElse t [])
       (List.filter present
          (List.map (fun v => text (entry_metadata v)) metadataResults))).

(** A source; its title is what [translateTitleToEnglish] returned when the
    title was translated. *)
Record Source := {
  source_id : jsstring;
  source_url : jsstring;
  source_title : TitleValue;
  source_source : jsstring;
  hasEnglishVersion : bool
}.

Definition originalUrl (v : Entry) : jsstring :=
  orElse (url (entry_metadata v)) placeholder.

Definition originalTitle (v : Entry) : jsstring :=
  orElse (title (entry_metadata v))
    (orElse (source (entry_metadata v)) (entry_id v)).

Definition sourceOf (v : Entry) : jsstring :=
  orElse (source (entry_metadata v)) (entry_id v).

(** Step 5: the three callbacks, in order. *)
Definition hasUrlOrTitle (v : Entry) : bool :=
  present (url (entry_metadata v)) || present (title (entry_metadata v)).

Definition toSource (titleDictionary : gmap jsstring jsstring)
    (currentLang : jsstring) (v : Entry) : Res Source :=
  let originalUrl := originalUrl v in
  let originalTitle := originalTitle v in
  if str_eqb currentLang en && negb (includes originalUrl enMarker) then
    let translatedTitle := translateTitleToEnglish titleDictionary originalTitle in
    if negb (sameTitle translatedTitle originalTitle) then
      bindR (convertUrlForLanguage originalUrl currentLang) (fun finalUrl =>
      Ok {| source_id := entry_id v; source_url := finalUrl;
            source_title := translatedTitle; source_source := sourceOf v;
            hasEnglishVersion := true |})
    else
      Ok {| source_id := entry_id v; source_url := originalUrl;
            source_title := Str originalTitle; source_source := sourceOf v;
            hasEnglishVersion := false |}
  else
    Ok {| source_id := entry_id v; source_url := originalUrl;
          source_title := Str originalTitle; source_source := sourceOf v;
          hasEnglishVersion := true |}.

Definition keepSource (currentLang : jsstring) (source : Source) : bool :=
  if str_eqb currentLang en then hasEnglishVersion source else true.

Definition buildSources (titleDictionary : gmap jsstring jsstring)
    (currentLang : jsstring) (metadataResults : list Entry) : Res (list Source) :=
  bindR (mapR (toSource titleDictionary currentLang)
              (List.filter hasUrlOrTitle metadataResults))
        (fun sources => Ok (List.filter (keepSource currentLang) sources)).

(** What one retained match adds to the sources: nothing when it has neither
    URL nor title or when the last filter drops it. *)
Definition sourcesOfEntry (titleDictionary : gmap jsstring jsstring)
    (currentLang : jsstring) (v : Entry) : list Source :=
  if hasUrlOrTitle v then
    match toSource titleDictionary currentLang v with
    | Ok s => if keepSource currentLang s then [s] else []
    | Throw _ => []
    end
  else [].

(** The loop that removes duplicate sources: the state is [seenUrls] and
    [uniqueSources]. *)
Definition dedupStep (st : gset jsstring * list Source) (source : Source)
  : gset jsstring * list Source :=
  let '(seenUrls, uniqueSources) := st in
  if negb (bool_decide (source_url source ∈ seenUrls))
     && negb (str_eqb (source_url source) placeholder)
  then ({[ source_url source ]} ∪ seenUrls, uniqueSources ++ [source])
  else st.

Definition dedupSources (sources : list Source) : list Source :=
  snd (fold_left dedupStep sources (∅, [])).

Record Result := {
  contexts : jsstring;
  sources : list Source;
  matches : list Match;
  usedFallback : bool
}.

(** Everything after the query. *)
Definition assemble (titleDictionary : gmap jsstring jsstring)
    (currentLang : jsstring) (usedFallback : bool) (queryRes : list Match)
  : Res Result :=
  if length queryRes =? 0 then
    Ok {| contexts := []; sources := []; matches := []; usedFallback := usedFallback |}
  else
    let validMatches := validMatches queryRes in
    if length validMatches =? 0 then
      Ok {| contexts := []; sources := []; matches := queryRes;
            usedFallback := usedFallback |}
    else
      let metadataResults := retained currentLang usedFallback queryRes in
      let contexts := buildContexts metadataResults in
      bindR (buildSources titleDictionary currentLang metadataResults)
        (fun sources =>
           Ok {| contexts := contexts; sources := dedupSources sources;
                 matches := queryRes; usedFallback := usedFallback |}).

(** *** The vector store and the query stage *)

Section WithStore.
(** The query vector is passed on to the store untouched. *)
Context {Vector : Type}.

Record QueryOptions := {
  topK : Z;
  returnValues : bool;
  returnMetadata : jsstring;
  filter_language : option jsstring
}.

(** How the promise of a query settles, and whether it does so before the
    timer of [LANGUAGE_FILTER_TIMEOUT] (500 ms) fires. *)
Inductive Settled :=
| Fulfilled (matches : list Match)
| Rejected (e : Error).

Record Reply := { settled : Settled; inTime : bool }.

(** [env.VECTORIZE]: the reply to a query may depend on the queries issued
    before it (their number is the first argument). *)
Definition VectorizeIndex : Type := nat -> Vector -> QueryOptions -> Reply.

(** The computations of [getRelevantDocuments]: they return or throw, and
    add to the log of the queries issued to the store. *)
Definition M (A : Type) : Type :=
  list (Vector * QueryOptions) -> Res A * list (Vector * QueryOptions).

Definition ret {A} (a : A) : M A := fun log => (Ok a, log).
Definition throw {A} (e : Error) : M A := fun log => (Throw e, log).
Definition bind {A B} (m : M A) (k : A -> M B) : M B :=
  fun log =>
    match m log with
    | (Ok a, log') => k a log'
    | (Throw e, log') => (Throw e, log')
    end.
Definition tryCatch {A} (body : M A) (handler : Error -> M A) : M A :=
  fun log =>
    match body log with
    | (Ok a, log') => (Ok a, log')
    | (Throw e, log') => handler e log'
    end.
Definition liftR {A} (r : Res A) : M A := fun log => (r, log).

(** [env.VECTORIZE.query(qvec, options)]: the call is issued, the promise is
    not yet awaited. *)
Definition query (VECTORIZE : VectorizeIndex) (qvec : Vector)
    (options : QueryOptions) : M Reply :=
  fun log => (Ok (VECTORIZE (length log) qvec options), log ++ [(qvec, options)]).

(** [await promise] *)
Definition await (promise : Reply) : M (list Match) :=
  match settled promise with
  | Fulfilled ms => ret ms
  | Rejected e => throw e
  end.

(** [await Promise.race([promise, timeoutPromise])] *)
Definition awaitRace (promise : Reply) : M (list Match) :=
  if inTime promise then await promise
  else throw (mkError (lit "Language filter timeout")).

(** The options of the two queries:
    [{ topK: k, returnValues: false, returnMetadata: 'all',
       filter: { metadata: { language: currentLang } } }] and the same
    without the filter. *)
Definition filteredOptions (k : Z) (currentLang : jsstring) : QueryOptions :=
  {| topK := k; returnValues := false; returnMetadata := lit "all";
     filter_language := Some currentLang |}.

Definition unfilteredOptions (k : Z) : QueryOptions :=
  {| topK := k; returnValues := false; returnMetadata := lit "all";
     filter_language := None |}.

Definition getRelevantDocuments (VECTORIZE : VectorizeIndex)
    (titleDictionary : gmap jsstring jsstring)
    (qvec : Vector) (k : Z) (currentLang : jsstring) : M Result :=
  tryCatch
    (bind
       (tryCatch
          (bind (query VECTORIZE qvec (filteredOptions k currentLang))
             (fun queryWithFilter =>
           bind (awaitRace queryWithFilter) (fun queryRes =>
           if length queryRes =? 0
           then throw (mkError (lit "No language-filtered results"))
           else ret (queryRes, false))))
          (fun error =>
             bind (query VECTORIZE qvec (unfilteredOptions k))
               (fun fallbackQuery =>
             bind (await fallbackQuery) (fun queryRes =>
             ret (queryRes, true)))))
       (fun '(queryRes, usedFallback) =>
          liftR (assemble titleDictionary currentLang usedFallback queryRes)))
    (fun error => throw error).

(** The replies of the store to the first query when it is the filtered one,
    and to the second when it is the unfiltered one. *)
Definition filteredReply (VECTORIZE : VectorizeIndex) (qvec : Vector) (k : Z)
    (currentLang : jsstring) : Reply :=
  VECTORIZE 0 qvec (filteredOptions k currentLang).

Definition fallbackReply (VECTORIZE : VectorizeIndex) (qvec : Vector) (k : Z)
  : Reply :=
  VECTORIZE 1 qvec (unfilteredOptions k).

(** [k = 15] and [currentLang = 'zh'] are the defaults. *)
Definition defaultK : Z := 15.

Definition run {A} (m : M A) : Res A * list (Vector * QueryOptions) := m [].

(** The replies to the filtered query that send the engine to the fallback:
    the timer fires first, the promise is rejected, or there is no match. *)
Definition needsFallback (reply : Reply) : bool :=
  negb (inTime reply) ||
  match settled reply with
  | Fulfilled ms => length ms =? 0
  | Rejected _ => true
  end.

End WithStore.

End WithUrl.

(** The URL the post-query filter tests, [metadata.url || ''], and its test. *)
Definition marked (v : Entry) : bool :=
  includes (orElse (url (entry_metadata v)) []) enMarker.

(** The loop of [dedupSources] read from the front of the list: what it adds
    to [uniqueSources] from [sources] when [seenUrls] has been seen. *)
Fixpoint firstSeen (seenUrls : gset jsstring) (sources : list Source)
  : list Source :=
  match sources with
  | [] => []
  | source :: rest =>
      if negb (bool_decide (source_url source ∈ seenUrls))
         && negb (str_eqb (source_url source) placeholder)
      then source :: firstSeen ({[ source_url source ]} ∪ seenUrls) rest
      else firstSeen seenUrls rest
  end.

End Retriever.

(** ** Sample data *)

Module Samples.
Import Retriever.

(** The title of the tests, four Chinese characters (U+4E2D U+6587 U+6807
    U+9898). *)
Definition zhTitle : jsstring := [20013; 25991; 26631; 39064]%N.

Definition sampleDictionary : gmap jsstring jsstring :=
  {[ zhTitle := lit "English Title" ]}.

Definition zhMeta (chunk : jsstring) : MatchMeta :=
  {| text := Some chunk;
     source := Some (lit "zh/blog/test-post/index.md");
     title := Some zhTitle;
     url := Some (lit "https://your-site.com/blog/test-post");
     language := Some zh |}.

(** Two chunks of one Chinese post. *)
Definition chunk0 : Match :=
  {| match_id := lit "post#0"; metadata := Some (zhMeta (lit "first chunk")) |}.
Definition chunk1 : Match :=
  {| match_id := lit "post#1"; metadata := Some (zhMeta (lit "second chunk")) |}.

Definition entry0 : Entry :=
  {| entry_id := lit "post#0"; entry_metadata := zhMeta (lit "first chunk") |}.
Definition entry1 : Entry :=
  {| entry_id := lit "post#1"; entry_metadata := zhMeta (lit "second chunk") |}.

(** A chunk of an English post. *)
Definition enChunk : Match :=
  {| match_id := lit "guide#0";
     metadata := Some {| text := Some (lit "english chunk");
                         source := Some (lit "en/blog/guide/index.md");
                         title := Some (lit "Guide");
                         url := Some (lit "https://your-site.com/en/blog/guide");
                         language := Some en |} |}.

(** A match the store returns without text. *)
Definition bareMatch : Match :=
  {| match_id := lit "bare"; metadata := Some {| text := None; source := None;
       title := Some zhTitle; url := None; language := None |} |}.

(** A store whose first query is rejected and whose later queries give the
    two chunks. *)
Definition failingStore : @VectorizeIndex unit :=
  fun n _ _ =>
    match n with
    | 0 => {| settled := Rejected (mkError (lit "filter not supported")); inTime := true |}
    | _ => {| settled := Fulfilled [chunk0; chunk1]; inTime := true |}
    end.

(** A store that answers every query with one match without text. *)
Definition bareStore : @VectorizeIndex unit :=
  fun _ _ _ => {| settled := Fulfilled [bareMatch]; inTime := true |}.

(** A post whose title is the same in Chinese and in English: the
    dictionary maps the title to itself. *)
Definition handbookTitle : jsstring := lit "Istio Handbook".

Definition handbookDictionary : gmap jsstring jsstring :=
  {[ handbookTitle := handbookTitle ]}.

Definition handbookChunk : Match :=
  {| match_id := lit "handbook#0";
     metadata := Some {| text := Some (lit "a chunk of the handbook");
                         source := Some (lit "zh/blog/istio-handbook/index.md");
                         title := Some handbookTitle;
                         url := Some (lit "https://your-site.com/blog/istio-handbook");
                         language := Some zh |} |}.

(** A store that holds the Chinese post alone: nothing for the filter on
    English, the chunk without a filter. *)
Definition handbookStore : @VectorizeIndex unit :=
  fun _ _ options =>
    match filter_language options with
    | Some language =>
        {| settled := Fulfilled (if str_eqb language zh then [handbookChunk] else []);
           inTime := true |}
    | None => {| settled := Fulfilled [handbookChunk]; inTime := true |}
    end.

(** A match with text between two matches without. *)
Definition emptyTextMatch : Match :=
  {| match_id := lit "empty";
     metadata := Some {| text := Some []; source := None; title := Some (lit "Guide");
                         url := Some (lit "https://your-site.com/en/blog/guide");
                         language := Some en |} |}.

Definition noMetadataMatch : Match :=
  {| match_id := lit "nothing"; metadata := None |}.

End Samples.

(** ** Ingestion: URLs from paths and the choice of files,
    [scripts/verify-ingest-logic.ts]

    A file is named by its path relative to the content directory, the value
    of [path.relative(CONTENT_DIR, file)]. *)

Module Ingest.

(** [.replace(/\\/g, '/')] *)
Definition backslashesToSlashes (s : jsstring) : jsstring :=
  List.map (fun c => if (c =? 92)%N then 47%N else c) s.

(** [.replace(/\.md$/i, '')] *)
Definition stripMdExtension (s : jsstring) : jsstring :=
  match rev s with
  | d :: m :: dot :: r =>
      if ((dot =? 46) && ((m =? 109) || (m =? 77)) && ((d =? 100) || (d =? 68)))%N
      then rev r else s
  | _ => s
  end.

(** [.replace(/^\//, '')] *)
Definition stripLeadingSlash (s : jsstring) : jsstring :=
  match s with
  | c :: r => if (c =? 47)%N then r else s
  | [] => []
  end.

(** [.replace(/\/+/g, '/')]: every run of slashes becomes one slash.
    [inRun] tells that the character before was a slash. *)
Fixpoint collapseSlashesFrom (inRun : bool) (s : jsstring) : jsstring :=
  match s with
  | c :: r =>
      if (c =? 47)%N
      then (if inRun then collapseSlashesFrom true r
            else 47%N :: collapseSlashesFrom true r)
      else c :: collapseSlashesFrom false r
  | [] => []
  end.

Definition collapseSlashes (s : jsstring) : jsstring := collapseSlashesFrom false s.

(** [.replace(/\/$/, '')] *)
Definition stripTrailingSlash (s : jsstring) : jsstring :=
  match rev s with
  | c :: r => if (c =? 47)%N then rev r else s
  | [] => []
  end.

(** The local variables of [toUrlFromPath], each as a function of the one
    before: [cleanPath], [language], [finalPath] and [urlPath]. *)
Definition cleanPathOf (noExt : jsstring) : jsstring :=
  if endsWith noExt (lit "/_index")
  then stripLeadingSlash (replaceFirst noExt (lit "/_index") (lit "/"))
  else if endsWith noExt (lit "/index")
  then stripLeadingSlash (replaceFirst noExt (lit "/index") (lit "/"))
  else stripLeadingSlash noExt ++ lit "/".

Definition languageOf (cleanPath : jsstring) : jsstring :=
  if startsWith cleanPath (lit "en/") then lit "en" else lit "zh".

Definition finalPathOf (cleanPath : jsstring) : jsstring :=
  if startsWith cleanPath (lit "zh/blog/")
  then replaceFirst cleanPath (lit "zh/blog/") (lit "blog/")
  else if startsWith cleanPath (lit "en/blog/") then cleanPath
  else if startsWith cleanPath (lit "zh/")
  then replaceFirst cleanPath (lit "zh/") []
  else cleanPath.

Definition urlPathOf (finalPath : jsstring) : jsstring :=
  let p := stripTrailingSlash (collapseSlashes (lit "/" ++ finalPath)) in
  if truthy p then p else lit "/".

Section WithUrl.
Context `{UrlApi}.

(** [toUrlFromPath]: [rel] is [path.relative(CONTENT_DIR, filePath)]. The
    language is ['en'] or ['zh']. *)
Definition toUrlFromPath (BASE_URL rel : jsstring) : Res (jsstring * jsstring) :=
  let rel := backslashesToSlashes rel in
  let noExt := stripMdExtension rel in
  let cleanPath := cleanPathOf noExt in
  let language := languageOf cleanPath in
  let finalPath := finalPathOf cleanPath in
  let urlPath := urlPathOf finalPath in
  bindR (constructURL urlPath (Some BASE_URL)) (fun url =>
  Ok (toString url, language)).

End WithUrl.

(** [BASE_URL] when the environment does not set it. *)
Definition defaultBaseUrl : jsstring := lit "https://your-site.com".

(** *** The choice of the files, in [main] *)

(** The test of the first branch of the loop. *)
Definition isStaticPage (relativePath : jsstring) : bool :=
  includes relativePath (lit "/about/")
  || includes relativePath (lit "/contact/")
  || includes relativePath (lit "/community/").

(** [relativePath.replace(/^(zh|en)\/blog\//, '').replace('/index.md', '')] *)
Definition postPathOf (relativePath : jsstring) : jsstring :=
  let stripped :=
    if startsWith relativePath (lit "zh/blog/")
       || startsWith relativePath (lit "en/blog/")
    then drop 8 relativePath else relativePath in
  replaceFirst stripped (lit "/index.md") [].

(** A [Map<string, string>]: the entries in the order of their insertion;
    [set] on a key that is there replaces the value in place. *)
Definition JsMap : Type := list (jsstring * jsstring).

Definition mapHas (k : jsstring) (m : JsMap) : bool :=
  existsb (fun kv => str_eqb (fst kv) k) m.

Fixpoint mapSet (k v : jsstring) (m : JsMap) : JsMap :=
  match m with
  | [] => [(k, v)]
  | (k', v') :: m' =>
      if str_eqb k' k then (k', v) :: m' else (k', v') :: mapSet k v m'
  end.

Definition mapValues (m : JsMap) : list jsstring := List.map snd m.

(** One turn of the loop over [allFiles]; the state is [blogFiles] and
    [staticFiles]. *)
Definition selectStep (st : JsMap * list jsstring) (file : jsstring)
  : JsMap * list jsstring :=
  let '(blogFiles, staticFiles) := st in
  let relativePath := file in
  if isStaticPage relativePath then
    if startsWith relativePath (lit "zh/")
    then (blogFiles, staticFiles ++ [file])
    else st
  else if includes relativePath (lit "/blog/") then
    let postPath := postPathOf relativePath in
    if startsWith relativePath (lit "zh/")
    then (mapSet postPath file blogFiles, staticFiles)
    else if startsWith relativePath (lit "en/") && negb (mapHas postPath blogFiles)
    then (mapSet postPath file blogFiles, staticFiles)
    else st
  else st.

Definition selectState (allFiles : list jsstring) : JsMap * list jsstring :=
  fold_left selectStep allFiles ([], []).

(** [[...blogFiles.values(), ...staticFiles]] *)
Definition filesToProcess (allFiles : list jsstring) : list jsstring :=
  mapValues (fst (selectState allFiles)) ++ snd (selectState allFiles).







End Ingest.

(** ** More of JavaScript's strings and numbers *)

Module Text.

(** A literal of the source that is not ASCII: the bytes of the literal are
    UTF-8, the string the program holds is UTF-16. [need] counts the
    continuation bytes still to come and [acc] holds the bits read so far. *)
Definition codeUnits (cp : N) : jsstring :=
  if (cp <? 65536)%N then [cp]
  else [(55296 + (cp - 65536) / 1024)%N; (56320 + (cp - 65536) mod 1024)%N].

Fixpoint utf16From (need : nat) (acc : N) (bytes : list N) : jsstring :=
  match bytes with
  | [] => []
  | b :: rest =>
      match need with
      | O =>
          if (b <? 128)%N then b :: utf16From 0 0 rest
          else if (b <? 224)%N then utf16From 1 (b - 192) rest
          else if (b <? 240)%N then utf16From 2 (b - 224) rest
          else utf16From 3 (b - 240) rest
      | S n =>
          let acc' := (acc * 64 + (b - 128))%N in
          match n with
          | O => codeUnits acc' ++ utf16From 0 0 rest
          | S _ => utf16From n acc' rest
          end
      end
  end.

Definition utf16 (s : string) : jsstring :=
  utf16From 0 0 (List.map N_of_ascii (list_ascii_of_string s)).

(** [String(n)] for a natural number: its decimal digits. *)
Fixpoint digits (d : Decimal.uint) : jsstring :=
  match d with
  | Decimal.Nil => []
  | Decimal.D0 d => 48%N :: digits d
  | Decimal.D1 d => 49%N :: digits d
  | Decimal.D2 d => 50%N :: digits d
  | Decimal.D3 d => 51%N :: digits d
  | Decimal.D4 d => 52%N :: digits d
  | Decimal.D5 d => 53%N :: digits d
  | Decimal.D6 d => 54%N :: digits d
  | Decimal.D7 d => 55%N :: digits d
  | Decimal.D8 d => 56%N :: digits d
  | Decimal.D9 d => 57%N :: digits d
  end.

Definition decimal (n : nat) : jsstring := digits (Nat.to_uint n).

(** [s.substring(0, n)] *)
Definition substring0 (n : nat) (s : jsstring) : jsstring := take n s.

(** [a.slice(0, end)] for an integer [end]: a negative [end] counts from the
    end of the array. *)
Definition slice0 {A} (e : Z) (a : list A) : list A :=
  if (e <? 0)%Z then take (Z.to_nat (Z.of_nat (length a) + e)) a
  else take (Z.to_nat e) a.

End Text.
Import Text.

(** ** The batch ingestion, [scripts/fast-ingest.ts] *)

Module FastIngest.
Import Ingest Retriever.

(** What [matter(raw)] gives: [draft] is [fm.data.draft === true]. *)
Record FrontMatter := {
  draft : bool;
  fm_title : option jsstring;
  fm_Title : option jsstring;
  content : jsstring
}.

Section WithPlatform.
Context `{UrlApi}.
(** The numbers of the vectors, with their zero. *)
Context {Num : Type}.
Variable zero : Num.
(** [createHash('sha256').update(key).digest('hex')] of [node:crypto]. *)
Variable sha256hex : jsstring -> jsstring.
(** [markdownToPlain] of [src/utils/md.ts]. *)
Variable markdownToPlain : jsstring -> jsstring.
(** The environment: [PROVIDER], [EMBED_DIM] (an integer) and [BASE_URL]. *)
Variables (PROVIDER : jsstring) (EMBED_DIM : Z) (BASE_URL : jsstring).
(** [getBatchEmbeddings(texts)], for the batch that starts at chunk [i]: the
    vectors of the provider, or the error it throws. *)
Variable getBatchEmbeddings : nat -> list jsstring -> Res (list (list Num)).

Definition gemini : jsstring := lit "gemini".

Definition MAX_CONCURRENT_FILES : nat :=
  if str_eqb PROVIDER gemini then 30 else 15.
Definition UPLOAD_BATCH_SIZE : nat := 300.
Definition EMBEDDING_BATCH_SIZE : nat :=
  if str_eqb PROVIDER gemini then 1 else 10.

Record Item := {
  item_id : jsstring;
  item_vector : list Num;
  item_text : jsstring;
  item_title : jsstring;
  item_source : jsstring;
  item_url : jsstring;
  item_language : jsstring
}.

Definition generateShortId (baseUrl sourcePath : jsstring) (chunkIndex : nat)
  : jsstring :=
  let uniqueKey := baseUrl ++ lit "|" ++ sourcePath in
  let urlHash := substring0 12 (sha256hex uniqueKey) in
  urlHash ++ lit "-" ++ decimal chunkIndex.

(** The block under [// Ensure correct dimensions]. *)
Definition ensureDimensions (finalVector : list Num) : list Num :=
  if (EMBED_DIM <? Z.of_nat (length finalVector))%Z
  then slice0 EMBED_DIM finalVector
  else if (Z.of_nat (length finalVector) <? EMBED_DIM)%Z
  then finalVector
       ++ replicate (Z.to_nat (EMBED_DIM - Z.of_nat (length finalVector))) zero
  else finalVector.

(** [text.length > 500 ? text.substring(0, 500) + '...' : text] *)
Definition storedText (text : jsstring) : jsstring :=
  if 500 <? length text then substring0 500 text ++ lit "..." else text.

(** [title.length > 100 ? title.substring(0, 100) : title] *)
Definition storedTitle (title : jsstring) : jsstring :=
  if 100 <? length title then substring0 100 title else title.

Definition makeItem (baseUrl sourcePath title language : jsstring)
    (index : nat) (text : jsstring) (vector : list Num) : Item :=
  {| item_id := generateShortId baseUrl sourcePath index;
     item_vector := ensureDimensions vector;
     item_text := storedText text;
     item_title := storedTitle title;
     item_source := sourcePath;
     item_url := baseUrl;
     item_language := language |}.

(** The loop over [j]: the chunk [chunkBatch[j]] has index [i + j] and the
    vector [vectors[j]]; where the provider gave no vector, reading
    [finalVector.length] throws, after the items pushed so far. *)
Fixpoint pushItems (baseUrl sourcePath title language : jsstring)
    (index : nat) (chunkBatch : list jsstring) (vectors : list (list Num))
    (items : list Item) : list Item * Res unit :=
  match chunkBatch with
  | [] => (items, Ok tt)
  | text :: chunkBatch' =>
      match vectors with
      | [] => (items, Throw (mkError (lit "Cannot read properties of undefined")))
      | vector :: vectors' =>
          pushItems baseUrl sourcePath title language (S index) chunkBatch' vectors'
            (items ++ [makeItem baseUrl sourcePath title language index text vector])
      end
  end.

(** The items the loop over [j] pushes: one for each chunk that has a
    vector. *)
Fixpoint itemsFrom (baseUrl sourcePath title language : jsstring)
    (index : nat) (chunkBatch : list jsstring) (vectors : list (list Num))
  : list Item :=
  match chunkBatch, vectors with
  | text :: chunkBatch', vector :: vectors' =>
      makeItem baseUrl sourcePath title language index text vector
      :: itemsFrom baseUrl sourcePath title language (S index) chunkBatch' vectors'
  | _, _ => []
  end.

(** One turn of the loop over [i], with its [try] and [catch]: a failed batch
    is logged and left. *)
Definition embedBatch (baseUrl sourcePath title language : jsstring)
    (i : nat) (chunkBatch : list jsstring) (items : list Item) : list Item :=
  match getBatchEmbeddings i chunkBatch with
  | Ok vectors =>
      fst (pushItems baseUrl sourcePath title language i chunkBatch vectors items)
  | Throw _ => items
  end.

(** The loop over [i]: [rest] is [chunks.slice(i)]. *)
Equations? embedBatches (baseUrl sourcePath title language : jsstring)
    (i : nat) (rest : list jsstring) (items : list Item)
  : list Item by wf (length rest) lt :=
  embedBatches baseUrl sourcePath title language i [] items := items;
  embedBatches baseUrl sourcePath title language i (c :: rest) items :=
    embedBatches baseUrl sourcePath title language (i + EMBEDDING_BATCH_SIZE)
      (drop EMBEDDING_BATCH_SIZE (c :: rest))
      (embedBatch baseUrl sourcePath title language i
         (take EMBEDDING_BATCH_SIZE (c :: rest)) items).
Proof.
  unfold EMBEDDING_BATCH_SIZE. destruct (str_eqb PROVIDER gemini); cbn;
    rewrite length_drop; lia.
Qed.

(** [processFile] after its first two lines, which read the file and parse
    its front matter ([FastIngestMain.processFileAt] has them): [relPath] is
    [path.relative(CONTENT_DIR, filePath)] and [fm] what the file holds. *)
Definition processFile (relPath : jsstring) (fm : FrontMatter) : Res (list Item) :=
  if draft fm then Ok []
  else
    let title := orElse (fm_title fm) (orElse (fm_Title fm) []) in
    let plain := markdownToPlain (content fm) in
    let chunks := Chunk.chunkText plain 800 in
    if length chunks =? 0 then Ok []
    else
      bindR (toUrlFromPath BASE_URL relPath) (fun '(baseUrl, language) =>
      let sourcePath := relPath in
      Ok (embedBatches baseUrl sourcePath title language 0 chunks [])).

(** The chunks of a file that is not a draft. *)
Definition chunksOf (fm : FrontMatter) : list jsstring :=
  Chunk.chunkText (markdownToPlain (content fm)) 800.

(** The title of a file, [(fm.data.title || fm.data.Title) || '']. *)
Definition titleOf (fm : FrontMatter) : jsstring :=
  orElse (fm_title fm) (orElse (fm_Title fm) []).

(** The vector that the provider gave for the chunk of index [index]: the
    one at the place of the chunk in the answer to the batch of the chunk,
    the batch that starts at [i]. *)
Definition embeddedAt (chunks : list jsstring) (index : nat) (vector : list Num)
  : Prop :=
  exists i vectors,
    i <= index /\
    getBatchEmbeddings i (take EMBEDDING_BATCH_SIZE (drop i chunks)) = Ok vectors /\
    vectors !! (index - i) = Some vector.

(** An item made from the chunk of index [index] of [chunks] and from the
    vector that the provider gave for it. *)
Definition itemAt (baseUrl sourcePath title language : jsstring)
    (chunks : list jsstring) (index : nat) (it : Item) : Prop :=
  exists text vector,
    chunks !! index = Some text /\
    it = makeItem baseUrl sourcePath title language index text vector /\
    embeddedAt chunks index vector.

(** The provider answers every request with a vector for each text. *)
Definition providerAnswers : Prop :=
  forall j chunkBatch,
    exists vectors, getBatchEmbeddings j chunkBatch = Ok vectors /\
                    length chunkBatch <= length vectors.

End WithPlatform.

End FastIngest.

(** ** Markdown to plain text, [src/utils/md.ts] *)

Module Md.

(** [s.replace(re, r)] for a global expression [re] whose matches are not
    empty: [matchAt rest] is the length of the match of [re] at the start of
    [rest], if there is one. The scan goes on after the match. *)
Equations? replaceAll (matchAt : jsstring -> option nat) (r : jsstring)
    (s : jsstring) : jsstring by wf (length s) lt :=
  replaceAll matchAt r [] := [];
  replaceAll matchAt r (c :: s') with matchAt (c :: s') := {
    | Some m => r ++ replaceAll matchAt r (drop (m - 1) s');
    | None => c :: replaceAll matchAt r s' }.
Proof.
  rewrite length_drop. lia.
Qed.

(** [s.indexOf(p)] *)
Fixpoint indexOf (p s : jsstring) : option nat :=
  if startsWith s p then Some 0
  else match s with
       | [] => None
       | _ :: s' => option_map S (indexOf p s')
       end.

(** A match of [open[\s\S]*?close] at the start of [rest]: the lazy star
    stops at the first [close]. *)
Definition spanMatch (open close rest : jsstring) : option nat :=
  if startsWith rest open then
    match indexOf close (drop (length open) rest) with
    | Some k => Some (length open + k + length close)
    | None => None
    end
  else None.

(** A match of [<[^>]+>] at the start of [rest]: [<], then all the
    characters up to the next [>], at least one, then that [>]. *)
Definition tagMatch (rest : jsstring) : option nat :=
  match rest with
  | c :: r =>
      if (c =? 60)%N then
        let body := takeWhile (fun c => negb (c =? 62)%N) r in
        if (1 <=? length body) && startsWith (drop (length body) r) [62%N]
        then Some (length body + 2)
        else None
      else None
  | [] => None
  end.

Definition entities : list jsstring :=
  [ lit "&nbsp;"; lit "&amp;"; lit "&lt;"; lit "&gt;"; lit "&quot;"; lit "&#39;" ].

(** A match of [&nbsp;|&amp;|&lt;|&gt;|&quot;|&#39;] at the start of
    [rest]. *)
Definition entityMatch (rest : jsstring) : option nat :=
  match List.find (startsWith rest) entities with
  | Some e => Some (length e)
  | None => None
  end.

(** The class [[ \t\f\v]]. *)
Definition isBlank (c : N) : bool :=
  ((c =? 32) || (c =? 9) || (c =? 12) || (c =? 11))%N.

Definition isNewline (c : N) : bool := (c =? 10)%N.

(** [s.replace(/X+/g, r)] for a class [X] and a character [r]: every run of
    characters of the class becomes one [r]. [inRun] tells that the
    character before was of the class. *)
Fixpoint collapseRuns (inClass : N -> bool) (r : N) (inRun : bool) (s : jsstring)
  : jsstring :=
  match s with
  | c :: s' =>
      if inClass c
      then (if inRun then collapseRuns inClass r true s'
            else r :: collapseRuns inClass r true s')
      else c :: collapseRuns inClass r false s'
  | [] => []
  end.

Definition space : jsstring := [32%N].

(** The chain of replacements on the HTML that [md.render] gives. *)
Definition htmlToPlain (html : jsstring) : jsstring :=
  let s := replaceAll (spanMatch (lit "<style") (lit "</style>")) space html in
  let s := replaceAll (spanMatch (lit "<script") (lit "</script>")) space s in
  let s := replaceAll tagMatch space s in
  let s := replaceAll entityMatch space s in
  let s := collapseRuns isBlank 32 false s in
  let s := collapseRuns isNewline 10 false s in
  trim s.

Section WithRenderer.
(** [md.render] of the library markdown-it. *)
Variable render : jsstring -> jsstring.

Definition markdownToPlain (mdContent : jsstring) : jsstring :=
  let html := render mdContent in
  htmlToPlain html.

End WithRenderer.

(** No position of [s] starts a tag, a match of [<[^>]+>]: after every [<]
    comes [>] at once or no [>] at all. *)
Definition noGt (s : jsstring) : bool := forallb (fun c => negb (c =? 62)%N) s.

Fixpoint tagFree (s : jsstring) : bool :=
  match s with
  | [] => true
  | c :: s' =>
      if (c =? 60)%N
      then (if startsWith s' [62%N] then tagFree s' else noGt s')
      else tagFree s'
  end.

(** Whether [s] begins with the character [c]. *)
Definition headIs (c : N) (s : jsstring) : bool :=
  match s with a :: _ => (a =? c)%N | [] => false end.

(** No two characters [c] of [s] are next to each other. *)
Fixpoint noDouble (c : N) (s : jsstring) : bool :=
  match s with
  | a :: s' => negb ((a =? c)%N && headIs c s') && noDouble c s'
  | [] => true
  end.

End Md.

(** ** The embedding providers, [getBatchEmbeddings] of
    [scripts/fast-ingest.ts] and [src/providers/embeddings.ts] *)

Module Providers.
Import FastIngest.

Definition qwen : jsstring := lit "qwen".

Section WithProvider.
Context {Num : Type}.
(** The reply of Gemini to the request for one text: [embedding.values] of
    the body, or the error thrown for a reply that is not a success. *)
Variable geminiEmbedding : jsstring -> Res (list Num).
(** The reply of Qwen to the request for some texts: the [embedding] of each
    entry of [data], or the error thrown for a reply that is not a success. *)
Variable qwenEmbeddings : list jsstring -> Res (list (list Num)).

(** [getBatchEmbeddings(texts)] of the ingestion. *)
Definition getBatchEmbeddings (PROVIDER : jsstring) (EMBED_DIM : Z)
    (texts : list jsstring) : Res (list (list Num)) :=
  if str_eqb PROVIDER gemini then mapR geminiEmbedding texts
  else
    bindR (qwenEmbeddings texts) (fun data =>
    Ok (List.map (slice0 EMBED_DIM) data)).

(** [createEmbedder(env).embed(texts, dim)] of the worker. *)
Definition embed (PROVIDER : jsstring) (texts : list jsstring) (dim : Z)
  : Res (list (list Num)) :=
  if str_eqb PROVIDER gemini then mapR geminiEmbedding texts
  else if str_eqb PROVIDER qwen then
    bindR (qwenEmbeddings texts) (fun data =>
    Ok (List.map (fun embedding =>
                    if (dim <? Z.of_nat (length embedding))%Z
                    then slice0 dim embedding else embedding)
                 data))
  else Throw (mkError (lit "Unknown PROVIDER")).

End WithProvider.

End Providers.

(** ** The run of the batch ingestion, [main] of [scripts/fast-ingest.ts] *)

Module FastIngestMain.
Import Ingest Retriever FastIngest.

Section WithPlatform.
Context `{UrlApi}.
Context {Num : Type}.
Variable zero : Num.
Variable sha256hex : jsstring -> jsstring.
Variable markdownToPlain : jsstring -> jsstring.
Variables (PROVIDER : jsstring) (EMBED_DIM : Z) (BASE_URL : jsstring).
(** [matter(await fs.readFile(filePath, 'utf-8'))] *)
Variable readFile : jsstring -> Res FrontMatter.
(** The provider's answers to the requests made for one file. *)
Variable getBatchEmbeddings :
  jsstring -> nat -> list jsstring -> Res (list (list Num)).
(** [uploadBatch(items)] at the attempt of the given number: it returns, or
    throws when the worker does not answer with a success. *)
Variable uploadBatch : nat -> list (Item (Num := Num)) -> Res unit.

(** [processFile(filePath)] from its first line: the file is read and its
    front matter parsed outside any [try], so what [fs.readFile] or [matter]
    throws is thrown by [processFile]; the rest works on what was read. *)
Definition processFileAt (file : jsstring) : Res (list Item) :=
  bindR (readFile file)
    (processFile zero sha256hex markdownToPlain PROVIDER EMBED_DIM BASE_URL
       (getBatchEmbeddings file) file).

(** The callback of [batch.map]: [processFile] with its [try] and [catch]. *)
Definition processed (file : jsstring) : list Item :=
  match processFileAt file with
  | Ok items => items
  | Throw _ => []
  end.

(** The attempts to upload, in order, each with whether it succeeded. *)
Definition Uploads : Type := list (list (Item (Num := Num)) * bool).

Record Progress := {
  allItems : list (Item (Num := Num));
  totalItems : nat;
  processedFiles : nat;
  uploads : Uploads
}.

(** The loop [while (allItems.length >= UPLOAD_BATCH_SIZE)]: [splice] takes
    the batch off the front, a failed upload puts it back and leaves the
    loop. *)
Equations? drain (items : list (Item (Num := Num))) (total : nat) (log : Uploads)
  : list (Item (Num := Num)) * nat * Uploads by wf (length items) lt :=
  drain [] total log := ([], total, log);
  drain (it :: rest) total log :=
    if UPLOAD_BATCH_SIZE <=? length (it :: rest) then
      let uploadBatch_items := take UPLOAD_BATCH_SIZE (it :: rest) in
      let remaining := drop UPLOAD_BATCH_SIZE (it :: rest) in
      match uploadBatch (length log) uploadBatch_items with
      | Ok _ =>
          drain remaining (total + length uploadBatch_items)
            (log ++ [(uploadBatch_items, true)])
      | Throw _ =>
          (uploadBatch_items ++ remaining, total, log ++ [(uploadBatch_items, false)])
      end
    else (it :: rest, total, log).
Proof.
  subst remaining. rewrite length_drop. lia.
Qed.

(** The loop over the files, [MAX_CONCURRENT_FILES] at a time: every promise
    of [Promise.allSettled] is fulfilled, since the callback catches. *)
Equations? processBatches (rest : list jsstring) (st : Progress)
  : Progress by wf (length rest) lt :=
  processBatches [] st := st;
  processBatches (file :: rest) st :=
    let batch := take (MAX_CONCURRENT_FILES PROVIDER) (file :: rest) in
    let results := List.map processed batch in
    let '(items, total, log) :=
      drain (allItems st ++ concat results) (totalItems st) (uploads st) in
    processBatches (drop (MAX_CONCURRENT_FILES PROVIDER) (file :: rest))
      {| allItems := items; totalItems := total;
         processedFiles := processedFiles st + length results;
         uploads := log |}.
Proof.
  unfold MAX_CONCURRENT_FILES. destruct (str_eqb PROVIDER gemini); cbn;
    rewrite length_drop; lia.
Qed.

(** [// Upload remaining items] *)
Definition uploadRemaining (st : Progress) : Progress :=
  if 0 <? length (allItems st) then
    match uploadBatch (length (uploads st)) (allItems st) with
    | Ok _ =>
        {| allItems := allItems st;
           totalItems := totalItems st + length (allItems st);
           processedFiles := processedFiles st;
           uploads := uploads st ++ [(allItems st, true)] |}
    | Throw _ =>
        {| allItems := allItems st;
           totalItems := totalItems st;
           processedFiles := processedFiles st;
           uploads := uploads st ++ [(allItems st, false)] |}
    end
  else st.

Definition initial : Progress :=
  {| allItems := []; totalItems := 0; processedFiles := 0; uploads := [] |}.

(** [main], from the files that [globby] found to the final statistics. *)
Definition main (allFiles : list jsstring) : Progress :=
  let files := filesToProcess allFiles in
  uploadRemaining (processBatches files initial).

(** The items of the uploads that succeeded, in the order of the uploads. *)
Definition uploaded (log : Uploads) : list Item :=
  concat (List.map fst (List.filter snd log)).

(** Every upload succeeds. *)
Definition uploadsSucceed : Prop := forall k batch, uploadBatch k batch = Ok tt.

(** What the loop over the files keeps true: the uploads that succeeded and
    the items still held make up the items of the files done, in order. *)
Definition consistent (done : list jsstring) (st : Progress) : Prop :=
  uploaded (uploads st) ++ allItems st = concat (List.map processed done) /\
  totalItems st = length (uploaded (uploads st)) /\
  processedFiles st = length done.

End WithPlatform.

End FastIngestMain.

(** ** The prompt, [src/rag/prompt.ts] *)

Module Prompt.
Import Retriever.

(** An entry of the history, [{ type, content }]. *)
Record Turn := { turn_type : jsstring; turn_content : jsstring }.

(** [englishPrompt] without its last part, the contexts. *)
Definition englishHead : list jsstring :=
  [ lit "You are an AI assistant with expertise in cloud-native technologies, technical blogging, and open source. This knowledge base contains technical articles, insights, and experiences from a blog.";
    [];
    lit "LANGUAGE INSTRUCTION: You MUST respond in English only. Even if the source content below is in Chinese, you must translate and respond in English.";
    [];
    lit "Your personality and style:";
    lit "- You are passionate about AI, cloud-native technologies, service mesh, Kubernetes, and emerging technologies";
    lit "- You enjoy exploring new tools and sharing practical insights from real-world experiences";
    lit "- You have a thoughtful, analytical approach to technology and often provide deep technical insights";
    lit "- You like to connect concepts and draw parallels between different technologies";
    lit "- You are enthusiastic about AI-assisted programming and modern development workflows";
    [];
    lit "Answering guidelines:";
    lit "1. **Speak as an expert**: Answer in first person as a technical expert sharing knowledge and experience";
    lit "2. **Personal insights**: Draw from the blog content to share technical thoughts and experiences";
    lit "3. **Technical depth**: Provide detailed technical explanations based on expertise";
    lit "4. **Connect concepts**: Relate questions to broader knowledge and experience";
    lit "5. **Practical focus**: Emphasize practical applications and real-world implications";
    lit "6. **Conversational tone**: Keep responses engaging and personable, like a conversation with a friend";
    [];
    lit "--- Blog Content ---" ].

(** [chinesePrompt] without its last part, the contexts. *)
Definition chineseHead : list jsstring :=
  [ utf16 "你是一名 AI 助手，擅长云原生技术、技术写作和开源。这个知识库包含了技术博客中的文章、见解和经验。";
    [];
    utf16 "你的个性和风格：";
    utf16 "- 你对 AI、云原生技术、服务网格、Kubernetes 和新兴技术充满热情";
    utf16 "- 你喜欢探索新工具，并分享来自实际经验的实用见解";
    utf16 "- 你对技术有着深思熟虑的分析方法，经常提供深入的技术洞察";
    utf16 "- 你喜欢连接概念，在不同技术之间建立联系";
    utf16 "- 你对 AI 辅助编程和现代开发工作流程很感兴趣";
    [];
    utf16 "回答指导原则：";
    utf16 "1. **以专家身份说话**：用第一人称回答，像一位技术专家分享知识和经验";
    utf16 "2. **个人见解**：从博客内容中汲取技术思考和经验进行分享";
    utf16 "3. **技术深度**：基于专业知识提供详细的技术解释";
    utf16 "4. **概念关联**：将问题与更广泛的知识和经验联系起来";
    utf16 "5. **实用导向**：强调实际应用和现实世界的意义";
    utf16 "6. **对话语调**：保持回答的吸引力和亲和力，就像与朋友的对话";
    [];
    utf16 "--- 博客内容 ---" ].

Definition englishPrompt (contexts : jsstring) : list jsstring :=
  englishHead ++ [if truthy contexts then contexts else lit "(None)"].

Definition chinesePrompt (contexts : jsstring) : list jsstring :=
  chineseHead ++ [if truthy contexts then contexts else utf16 "（空）"].

(** [history.slice(-6)] *)
Definition lastSix {A} (history : list A) : list A :=
  drop (length history - 6) history.

Definition user : jsstring := lit "user".

(** The line of one entry of the history. *)
Definition turnLine (language : jsstring) (h : Turn) : jsstring :=
  let userLabel := if str_eqb language en then lit "User" else utf16 "用户" in
  let assistantLabel := if str_eqb language en then lit "Assistant" else utf16 "助手" in
  (if str_eqb (turn_type h) user then userLabel else assistantLabel)
  ++ lit ": " ++ turn_content h.

Definition finalInstruction (language : jsstring) : jsstring :=
  if str_eqb language en
  then lit "Please provide a concise and focused answer based on the knowledge snippets. Directly address the question with the most relevant information. Keep your response clear and to-the-point. CRITICAL: You MUST respond in English only, even if the source content is in Chinese. IMPORTANT: Do NOT include any source links, URLs, file paths, or reference paths in your response - sources are handled separately by the system:"
  else utf16 "请基于知识库片段提供简洁而有针对性的回答。直接回应问题的核心，使用最相关的信息。保持回答清晰明了。重要：请不要在回答中包含任何来源链接、网址、文件路径或引用路径，这些信息由系统单独处理：".

(** The line feed that joins the parts. *)
Definition newline : jsstring := [10%N].

(** The parts that are joined. *)
Definition promptParts (question contexts : jsstring) (history : list Turn)
    (language : jsstring) : list jsstring :=
  let parts := if str_eqb language en then englishPrompt contexts
               else chinesePrompt contexts in
  let parts :=
    if 0 <? length history then
      (parts ++ [if str_eqb language en then lit "--- Conversation History ---"
                 else utf16 "--- 对话历史 ---"])
      ++ List.map (turnLine language) (lastSix history)
    else parts in
  let parts := parts ++ [if str_eqb language en then lit "--- Question ---"
                         else utf16 "--- 问题 ---"] in
  let parts := parts ++ [question] in
  let parts := parts ++ [[]] in
  parts ++ [finalInstruction language].

(** [buildPrompt(question, contexts, history, language)]; the defaults of the
    last two are [[]] and ['zh']. *)
Definition buildPrompt (question contexts : jsstring) (history : list Turn)
    (language : jsstring) : jsstring :=
  join newline (promptParts question contexts history language).

(** A string of ASCII characters only. *)
Definition isAscii (s : jsstring) : bool := forallb (fun c => (c <? 128)%N) s.

End Prompt.

(** ** The worker's route [POST /admin/upsert], [src/index.ts] *)

Module Worker.
Import Retriever Prompt.

(** The variables of the environment the route reads. *)
Record Env := { ADMIN_TOKEN : jsstring; EMBED_DIM : jsstring }.

(** The bodies of the responses: a text, [{ ok: true, count }],
    [{ ok: true, totalDeleted }], [{ answer, sources }], and
    [{ error, details }], whose [details] (the stack) are left out. *)
Inductive Body :=
| Text (s : jsstring)
| OkCount (count : nat)
| OkDeleted (totalDeleted : nat)
| Answer (answer : jsstring) (sources : list Source)
| ErrorBody (error : jsstring).

Record Response := { status : nat; body : Body }.

(** [error.message || 'Internal server error'] *)
Definition messageOr (e : Error) : jsstring :=
  if truthy (message e) then message e else lit "Internal server error".

Definition serverError (e : Error) : Response :=
  {| status := 500; body := ErrorBody (messageOr e) |}.

Section WithStore.
Context {Num : Type}.
Variable env : Env.
(** [Number(env.EMBED_DIM)], an integer. *)
Variable dimension : Z.

(** [it.vector] as [req.json()] gives it: an array, or another value, of
    which only what [it.vector?.length || 'undefined'] shows in a template
    is read. *)
Inductive VectorField :=
| IsArray (values : list Num)
| NotArray (shown : jsstring).

Record UpsertItem := {
  up_id : jsstring;
  up_vector : VectorField;
  up_text : option jsstring;
  up_source : option jsstring;
  up_title : option jsstring;
  up_url : option jsstring;
  up_language : option jsstring
}.

(** What [env.VECTORIZE.upsert] receives. *)
Record StoredVector := {
  sv_id : jsstring;
  sv_values : list Num;
  sv_metadata : MatchMeta
}.

(** [env.VECTORIZE.upsert(vectors)] *)
Variable upsert : list StoredVector -> Res unit.

(** [`${it.vector?.length || 'undefined'}`] *)
Definition shownLength (v : VectorField) : jsstring :=
  match v with
  | IsArray values =>
      if length values =? 0 then lit "undefined" else decimal (length values)
  | NotArray shown => shown
  end.

Definition invalidDimension (it : UpsertItem) : Error :=
  mkError (lit "Invalid vector dimension: expected " ++ EMBED_DIM env
           ++ lit ", got " ++ shownLength (up_vector it)).

(** The callback of [payload.items.map]. *)
Definition toVector (it : UpsertItem) : Res StoredVector :=
  match up_vector it with
  | IsArray values =>
      if negb (Z.of_nat (length values) =? dimension)%Z
      then Throw (invalidDimension it)
      else Ok {| sv_id := up_id it;
                 sv_values := values;
                 sv_metadata := {| text := up_text it;
                                   source := up_source it;
                                   title := up_title it;
                                   url := up_url it;
                                   language := None |} |}
  | NotArray _ => Throw (invalidDimension it)
  end.

(** [auth !== `Bearer ${env.ADMIN_TOKEN}`], with
    [auth = req.headers.get('authorization') || '']. *)
Definition authorised (authorization : option jsstring) : bool :=
  str_eqb (orElse authorization []) (lit "Bearer " ++ ADMIN_TOKEN env).

Definition unauthorized : Response :=
  {| status := 401; body := Text (lit "Unauthorized") |}.

(** The route: [payload] is what [await req.json()] gives or throws, its
    [items] absent when the body has none. The second component lists the
    calls of [env.VECTORIZE.upsert]. *)
Definition upsertRoute (authorization : option jsstring)
    (payload : Res (option (list UpsertItem)))
  : Response * list (list StoredVector) :=
  if negb (authorised authorization) then (unauthorized, [])
  else
    match payload with
    | Throw e => (serverError e, [])
    | Ok None =>
        (serverError (mkError (lit "Cannot read properties of undefined")), [])
    | Ok (Some items) =>
        match mapR toVector items with
        | Throw e => (serverError e, [])
        | Ok vectors =>
            match upsert vectors with
            | Ok _ => ({| status := 200; body := OkCount (length items) |}, [vectors])
            | Throw e => (serverError e, [vectors])
            end
        end
    end.

(** An item the route accepts: its vector is an array of [dimension]
    numbers. *)
Definition validItem (it : UpsertItem) : bool :=
  match up_vector it with
  | IsArray values => (Z.of_nat (length values) =? dimension)%Z
  | NotArray _ => false
  end.

(** The vector stored for an item. *)
Definition storedFor (it : UpsertItem) (v : StoredVector) : Prop :=
  up_vector it = IsArray (sv_values v) /\
  sv_id v = up_id it /\
  sv_metadata v = {| text := up_text it; source := up_source it;
                     title := up_title it; url := up_url it;
                     language := None |}.

(** An item of the ingestion as [JSON.stringify({ items })] sends it and
    [req.json()] reads it. *)
Definition toPayload (it : FastIngest.Item (Num := Num)) : UpsertItem :=
  {| up_id := FastIngest.item_id it;
     up_vector := IsArray (FastIngest.item_vector it);
     up_text := Some (FastIngest.item_text it);
     up_source := Some (FastIngest.item_source it);
     up_title := Some (FastIngest.item_title it);
     up_url := Some (FastIngest.item_url it);
     up_language := Some (FastIngest.item_language it) |}.

End WithStore.

(** *** The route [DELETE /admin/clear-all] *)

(** The calls to the store: a query for 100 matches with the vector of
    zeros, and [deleteByIds]. *)
Inductive StoreCall :=
| QueryAll
| DeleteByIds (ids : list jsstring).

Section WithClearing.
Variable env : Env.
(** [Number(env.EMBED_DIM)], an integer. *)
Variable dimension : Z.
(** The identifiers of the matches that the store gives to the query of the
    given number, and what it answers to the deletion that follows. *)
Variable queryIds : nat -> Res (list jsstring).
Variable deleteByIds : nat -> list jsstring -> Res unit.

(** [new Array(Number(env.EMBED_DIM))] throws on a length that is negative
    or above [2^32 - 1]. *)
Definition dummyVector : Res unit :=
  if (dimension <? 0)%Z || (4294967295 <? dimension)%Z
  then Throw (mkError (lit "Invalid array length"))
  else Ok tt.

(** The loop [while (hasMore)], from the turn of number [n] on; [fuel]
    bounds the number of turns. *)
Fixpoint clearLoop (fuel n totalDeleted : nat) (log : list StoreCall)
  : option (Res nat * list StoreCall) :=
  match fuel with
  | O => None
  | S fuel' =>
      match dummyVector with
      | Throw e => Some (Throw e, log)
      | Ok _ =>
          match queryIds n with
          | Throw e => Some (Throw e, log ++ [QueryAll])
          | Ok idsToDelete =>
              if length idsToDelete =? 0
              then Some (Ok totalDeleted, log ++ [QueryAll])
              else
                match deleteByIds n idsToDelete with
                | Throw e =>
                    Some (Throw e, log ++ [QueryAll; DeleteByIds idsToDelete])
                | Ok _ =>
                    if length idsToDelete <? 100
                    then Some (Ok (totalDeleted + length idsToDelete),
                               log ++ [QueryAll; DeleteByIds idsToDelete])
                    else clearLoop fuel' (S n) (totalDeleted + length idsToDelete)
                           (log ++ [QueryAll; DeleteByIds idsToDelete])
                end
          end
      end
  end.

(** The route; [None] when the loop has not ended within [fuel] turns. *)
Definition clearAllRoute (fuel : nat) (authorization : option jsstring)
  : option (Response * list StoreCall) :=
  if negb (str_eqb (orElse authorization []) (lit "Bearer " ++ ADMIN_TOKEN env))
  then Some ({| status := 401; body := Text (lit "Unauthorized") |}, [])
  else
    match clearLoop fuel 0 0 [] with
    | Some (Ok totalDeleted, log) =>
        Some ({| status := 200; body := OkDeleted totalDeleted |}, log)
    | Some (Throw e, log) => Some (serverError e, log)
    | None => None
    end.

(** The identifiers that the query of number [k] gives. *)
Definition returned (k : nat) : list jsstring :=
  match queryIds k with Ok ids => ids | Throw _ => [] end.

(** The calls of the turn of number [k]. *)
Definition turnCalls (k : nat) : list StoreCall :=
  QueryAll :: (if length (returned k) =? 0 then [] else [DeleteByIds (returned k)]).

End WithClearing.

(** *** The route [POST /chat] *)

(** The [history] of a body. A missing [history] takes the default [[]].
    [null] does not: the default of the destructuring is for a missing
    property only, and the route reads [history.length] before it embeds
    the message. Any other value is read by [buildPrompt] alone, through
    [history.length], [history.slice(-6)], [forEach], [h.type] and
    [h.content]: it gives the turns that are read (the entries of an array;
    none for a number or an object without [length]), or the [TypeError] of
    a read that throws (a string with characters has no [forEach], a [null]
    entry has no [type]). *)
Inductive History :=
| NoHistory
| NullHistory
| Turns (history : list Turn)
| Unreadable (e : Error).

(** What [await req.json()] gives: [message] is absent when the body has
    none or one that is not a string; [language] is absent when the body has
    none. *)
Record ChatBody := {
  chat_message : option jsstring;
  chat_history : History;
  chat_language : option jsstring
}.

Definition invalidMessage : Response :=
  {| status := 400; body := ErrorBody (lit "Invalid message parameter") |}.

(** [history.length] in [console.log('History length:', history.length)]:
    a [TypeError] on [null]. *)
Definition historyLength (history : History) : Res unit :=
  match history with
  | NullHistory =>
      Throw (mkError (lit "Cannot read properties of null (reading 'length')"))
  | _ => Ok tt
  end.

(** [buildPrompt(message, contexts, history, language)] on the history of
    the body; [history = []] is the default. *)
Definition promptFor (message contexts : jsstring) (history : History)
    (language : jsstring) : Res jsstring :=
  match history with
  | NoHistory => Ok (buildPrompt message contexts [] language)
  | Turns history => Ok (buildPrompt message contexts history language)
  | Unreadable e => Throw e
  | NullHistory =>
      Throw (mkError (lit "Cannot read properties of null (reading 'length')"))
  end.

Section WithChat.
Context `{UrlApi} {Vector : Type}.
Variable VECTORIZE : VectorizeIndex (Vector := Vector).
Variable titleDictionary : gmap jsstring jsstring.
(** [createEmbedder(env).embed(texts, Number(env.EMBED_DIM))], or the error
    that [createEmbedder] or [embed] throws. *)
Variable embed : list jsstring -> Res (list Vector).
(** [llmGenerate(env, prompt)] *)
Variable llmGenerate : jsstring -> Res jsstring.

(** The language of a request, with its default. *)
Definition requestLanguage (b : ChatBody) : jsstring :=
  match chat_language b with Some l => l | None => zh end.

(** The route, with the log of the queries to the store. *)
Definition chatRoute (json : Res ChatBody) : M (Vector := Vector) Response :=
  tryCatch
    (bind (liftR json) (fun b =>
     let history := chat_history b in
     let language := requestLanguage b in
     if negb (present (chat_message b)) then ret invalidMessage
     else
       let message := orElse (chat_message b) [] in
       bind (liftR (historyLength history)) (fun _ =>
       bind (liftR (embed [message])) (fun vectors =>
       match vectors with
       | [] => throw (mkError (lit "Cannot read properties of undefined"))
       | qv :: _ =>
           bind (getRelevantDocuments VECTORIZE titleDictionary qv 8 language)
             (fun r =>
           bind (liftR (promptFor message (contexts r) history language))
             (fun prompt =>
           bind (liftR (llmGenerate prompt)) (fun answer =>
           ret {| status := 200; body := Answer answer (sources r) |})))
       end))))
    (fun error => ret (serverError error)).

End WithChat.

End Worker.

(** ** The generator of the title dictionary,
    [scripts/generate-title-dictionary.ts] *)

Module TitleGenerator.
Import Ingest Retriever FastIngest.

(** The value of [postFiles] at a post: [{ zh?: string, en?: string }]. *)
Record Versions := { zhVersion : option jsstring; enVersion : option jsstring }.

(** [postFiles], a [Map]: the entries in the order of their insertion. *)
Definition PostFiles : Type := list (jsstring * Versions).

Definition has (postPath : jsstring) (postFiles : PostFiles) : bool :=
  existsb (fun kv => str_eqb (fst kv) postPath) postFiles.

(** [postFiles.get(postPath)![lang] = file] on a key that is there. *)
Fixpoint assign (postPath : jsstring) (isZh : bool) (file : jsstring)
    (postFiles : PostFiles) : PostFiles :=
  match postFiles with
  | [] => []
  | (k, v) :: rest =>
      if str_eqb k postPath
      then (k, if isZh
               then {| zhVersion := Some file; enVersion := enVersion v |}
               else {| zhVersion := zhVersion v; enVersion := Some file |}) :: rest
      else (k, v) :: assign postPath isZh file rest
  end.

(** One turn of the loop over [allFiles]. *)
Definition groupStep (postFiles : PostFiles) (file : jsstring) : PostFiles :=
  let relativePath := file in
  let postPath := postPathOf relativePath in
  let isZh := startsWith relativePath (lit "zh/") in
  let postFiles :=
    if negb (has postPath postFiles)
    then postFiles ++ [(postPath, {| zhVersion := None; enVersion := None |})]
    else postFiles in
  assign postPath isZh file postFiles.

Definition group (allFiles : list jsstring) : PostFiles :=
  fold_left groupStep allFiles [].

(** [a || b] on two optional strings. *)
Definition orOption (a b : option jsstring) : option jsstring :=
  if present a then a else b.

(** [matter.data?.title || matter.data?.Title] *)
Definition titleIn (fm : FrontMatter) : option jsstring :=
  orOption (fm_title fm) (fm_Title fm).

Record Generated := {
  titleDictionary : gmap jsstring jsstring;
  pairsFound : nat;
  chineseOnly : nat;
  englishOnly : nat
}.

(** What the loop over the files keeps true of [postFiles]: the versions of
    a post are files seen so far, of the post and of the language. *)
Definition versionsOf (seen : list jsstring) (entry : jsstring * Versions) : Prop :=
  (forall f, zhVersion (snd entry) = Some f ->
             In f seen /\ startsWith f (lit "zh/") = true /\ postPathOf f = fst entry) /\
  (forall f, enVersion (snd entry) = Some f ->
             In f seen /\ startsWith f (lit "zh/") = false /\ postPathOf f = fst entry).

(** [titleDictionary[zhTitle] = enTitle]: the assignment makes or changes the
    own property of that name, except for [__proto__], which is the setter
    of the prototype: given a string, it does nothing. *)
Definition setProperty (titleDictionary : gmap jsstring jsstring)
    (zhTitle enTitle : jsstring) : gmap jsstring jsstring :=
  if str_eqb zhTitle proto then titleDictionary
  else <[zhTitle := enTitle]> titleDictionary.

Section WithFiles.
(** [matter(await fs.readFile(file, 'utf-8'))] *)
Variable readFile : jsstring -> Res FrontMatter.

(** One turn of the loop over [postFiles]. *)
Definition pairStep (st : Generated) (entry : jsstring * Versions) : Generated :=
  let zhFile := zhVersion (snd entry) in
  let enFile := enVersion (snd entry) in
  if present zhFile && present enFile then
    match bindR (readFile (orElse zhFile [])) (fun zhMatter =>
          bindR (readFile (orElse enFile [])) (fun enMatter =>
          Ok (zhMatter, enMatter))) with
    | Ok (zhMatter, enMatter) =>
        let zhTitle := titleIn zhMatter in
        let enTitle := titleIn enMatter in
        if present zhTitle && present enTitle then
          {| titleDictionary :=
               setProperty (titleDictionary st) (orElse zhTitle []) (orElse enTitle []);
             pairsFound := pairsFound st + 1;
             chineseOnly := chineseOnly st;
             englishOnly := englishOnly st |}
        else st
    | Throw _ => st
    end
  else if present zhFile && negb (present enFile) then
    {| titleDictionary := titleDictionary st; pairsFound := pairsFound st;
       chineseOnly := chineseOnly st + 1; englishOnly := englishOnly st |}
  else if present enFile && negb (present zhFile) then
    {| titleDictionary := titleDictionary st; pairsFound := pairsFound st;
       chineseOnly := chineseOnly st; englishOnly := englishOnly st + 1 |}
  else st.

Definition nothing : Generated :=
  {| titleDictionary := ∅; pairsFound := 0; chineseOnly := 0; englishOnly := 0 |}.

(** [generateTitleDictionary], from the files that [globby] found to the
    dictionary that is written and the statistics that are printed. *)
Definition generateTitleDictionary (allFiles : list jsstring) : Generated :=
  fold_left pairStep (group allFiles) nothing.

(** A post of [allFiles] in both languages whose titles can be read. *)
Definition titlePair (allFiles : list jsstring) (zhTitle enTitle : jsstring) : Prop :=
  exists zhFile enFile zhMatter enMatter,
    In zhFile allFiles /\ In enFile allFiles /\
    startsWith zhFile (lit "zh/") = true /\
    startsWith enFile (lit "zh/") = false /\
    postPathOf zhFile = postPathOf enFile /\
    readFile zhFile = Ok zhMatter /\ readFile enFile = Ok enMatter /\
    titleIn zhMatter = Some zhTitle /\ titleIn enMatter = Some enTitle.

(** What the loop over the posts keeps true of the dictionary. *)
Definition sound (allFiles : list jsstring) (st : Generated) : Prop :=
  forall zhTitle enTitle,
    titleDictionary st !! zhTitle = Some enTitle ->
    titlePair allFiles zhTitle enTitle /\
    truthy zhTitle = true /\ truthy enTitle = true.

End WithFiles.

End TitleGenerator.

(** A file and a platform to run the ingestion on. *)
Module FastSamples.
Import Ingest FastIngest.

(** A digest of the right shape: 64 hexadecimal digits. *)
Definition sampleDigest (key : jsstring) : jsstring := replicate 64 102%N.

(** A provider that answers with two numbers for each text. *)
Definition shortProvider (i : nat) (texts : list jsstring) : Res (list (list Z)) :=
  Ok (List.map (fun _ => [1%Z; 2%Z]) texts).

Definition samplePost : FrontMatter :=
  {| draft := false;
     fm_title := Some (lit "Guide");
     fm_Title := None;
     content := lit "# One
first section
## Two
second section" |}.

Definition samplePath : jsstring := lit "en/blog/guide/index.md".

Definition sampleItems : Res (list Item) :=
  processFile (H := plainUrlApi) 0%Z sampleDigest (fun s => s) gemini 4%Z
    defaultBaseUrl shortProvider samplePath samplePost.

(** The items of the sample file. *)
Definition sampleItemList : list Item :=
  match sampleItems with Ok items => items | Throw _ => [] end.

End FastSamples.

(** A worker to send requests to. *)
Module WorkerSamples.
Import Worker.

Definition sampleEnv : Env :=
  {| ADMIN_TOKEN := lit "secret"; EMBED_DIM := lit "4" |}.

Definition sampleAuthorization : option jsstring := Some (lit "Bearer secret").

(** A store that accepts what it is given. *)
Definition accepting (vectors : list (StoredVector (Num := Z))) : Res unit := Ok tt.

Definition itemWith (id : jsstring) (vector : list Z) : UpsertItem :=
  {| up_id := id;
     up_vector := IsArray vector;
     up_text := Some (lit "some text");
     up_source := Some (lit "zh/blog/post/index.md");
     up_title := Some (lit "Post");
     up_url := Some (lit "https://your-site.com/blog/post");
     up_language := Some (lit "zh") |}.

Definition goodItem : UpsertItem := itemWith (lit "abc-0") [1; 2; 3; 4]%Z.
Definition shortItem : UpsertItem := itemWith (lit "abc-1") [1; 2]%Z.

(** A request to the chat route, an embedder and a model. *)
Definition chatRequest : ChatBody :=
  {| chat_message := Some (lit "What is Istio?");
     chat_history := NoHistory;
     chat_language := Some (lit "zh") |}.

Definition unitEmbedder (texts : list jsstring) : Res (list unit) :=
  Ok (List.map (fun _ => tt) texts).

Definition echoModel (prompt : jsstring) : Res jsstring := Ok (lit "An answer.").

End WorkerSamples.

(** A conversation of seven turns. *)
Module PromptSamples.
Import Prompt.

Definition turn (type content : string) : Turn :=
  {| turn_type := lit type; turn_content := lit content |}.

Definition olderTurns : list Turn := [turn "user" "What is Istio?"].

Definition recentTurns : list Turn :=
  [ turn "bot" "A service mesh.";
    turn "user" "Who maintains it?";
    turn "bot" "Its community.";
    turn "user" "Is it open source?";
    turn "bot" "Yes.";
    turn "user" "Since when?" ].

End PromptSamples.

(** A post in both languages. *)
Module TitleSamples.
Import FastIngest.

Definition zhPost : jsstring := lit "zh/blog/test-post/index.md".
Definition enPost : jsstring := lit "en/blog/test-post/index.md".

Definition postWith (title : jsstring) : FrontMatter :=
  {| draft := false; fm_title := Some title; fm_Title := None;
     content := lit "text" |}.

Definition readPost (file : jsstring) : Res FrontMatter :=
  if str_eqb file zhPost then Ok (postWith Samples.zhTitle)
  else Ok (postWith (lit "English Title")).

(** A post with the same title in both languages. *)
Definition zhHandbook : jsstring := lit "zh/blog/istio-handbook/index.md".
Definition enHandbook : jsstring := lit "en/blog/istio-handbook/index.md".

Definition readHandbook (file : jsstring) : Res FrontMatter :=
  Ok (postWith Samples.handbookTitle).

End TitleSamples.

(** ** The URLs of a post in its two languages *)

Module PostUrls.

(** The characters of a slug: letters, digits, [-], [_] and [~]. *)
Definition slugChar (c : N) : bool :=
  (PlainUrl.isLower c || PlainUrl.isUpper c || PlainUrl.isDigit c
   || (c =? 45) || (c =? 95) || (c =? 126))%N.

Definition zhFile (slug : jsstring) : jsstring :=
  lit "zh/blog/" ++ slug ++ lit "/index.md".

Definition enFile (slug : jsstring) : jsstring :=
  lit "en/blog/" ++ slug ++ lit "/index.md".

End PostUrls.

(** Providers to ask. *)
Module ProviderSamples.

(** Gemini gives three numbers for every text. *)
Definition threeNumbers (text : jsstring) : Res (list Z) := Ok [1; 2; 3]%Z.

(** Qwen gives five numbers for every text. *)
Definition fiveNumbers (texts : list jsstring) : Res (list (list Z)) :=
  Ok (List.map (fun _ => [1; 2; 3; 4; 5]%Z) texts).

End ProviderSamples.

(** Stores to clear. *)
Module ClearSamples.

(** A store of 130 vectors: the first query gives 100 identifiers, the
    second the 30 that are left. *)
Definition twoBatches (k : nat) : Res (list jsstring) :=
  match k with
  | 0 => Ok (replicate 100 (lit "a"))
  | _ => Ok (replicate 30 (lit "b"))
  end.

(** A store whose deletions do not show in the next query. *)
Definition alwaysFull (k : nat) : Res (list jsstring) :=
  Ok (replicate 100 (lit "a")).

Definition deleting (k : nat) (ids : list jsstring) : Res unit := Ok tt.

End ClearSamples.

(** * Properties *)

(** ** Strings *)

Section StringFacts.

Implicit Types (s t p : jsstring) (c : N).

Lemma truthy_true s : truthy s = true <-> s <> [].
Proof. destruct s; cbn; split; congruence. Qed.

Lemma truthy_false s : truthy s = false <-> s = [].
Proof. destruct s; cbn; split; congruence. Qed.

Lemma takeWhile_dropWhile (f : N -> bool) s :
  takeWhile f s ++ dropWhile f s = s.
Proof. induction s as [|c s IH]; cbn; [easy|]. destruct (f c); cbn; congruence. Qed.

Lemma nonWs_app s t : nonWs (s ++ t) = nonWs s ++ nonWs t.
Proof. apply List.filter_app. Qed.

Lemma nonWs_rev s : nonWs (rev s) = rev (nonWs s).
Proof.
  induction s as [|c s IH]; cbn; [easy|].
  rewrite nonWs_app, IH. cbn. destruct (isWs c); cbn; [apply app_nil_r | easy].
Qed.

Lemma nonWs_dropWhile s : nonWs (dropWhile isWs s) = nonWs s.
Proof.
  induction s as [|c s IH]; cbn; [easy|].
  destruct (isWs c) eqn:E; cbn; rewrite ?E; cbn; easy.
Qed.

Lemma nonWs_trim s : nonWs (trim s) = nonWs s.
Proof.
  unfold trim, trimEnd, trimStart.
  rewrite nonWs_rev, nonWs_dropWhile, nonWs_rev, rev_involutive.
  apply nonWs_dropWhile.
Qed.

Lemma dropWhile_length (f : N -> bool) s : length (dropWhile f s) <= length s.
Proof. induction s as [|c s IH]; cbn; [lia|]. destruct (f c); cbn; lia. Qed.

Lemma trim_length s : length (trim s) <= length s.
Proof.
  unfold trim, trimEnd, trimStart. rewrite length_rev.
  etransitivity; [apply dropWhile_length|]. rewrite length_rev.
  apply dropWhile_length.
Qed.

Lemma dropWhile_headClean s : headClean (dropWhile isWs s) = true.
Proof.
  induction s as [|c s IH]; cbn; [easy|].
  destruct (isWs c) eqn:E; cbn; [easy | now rewrite E].
Qed.

Lemma dropWhile_id s : headClean s = true -> dropWhile isWs s = s.
Proof. destruct s as [|c s]; cbn; [easy|]. now destruct (isWs c). Qed.

Lemma headClean_prefix s t : headClean (s ++ t) = true -> headClean s = true.
Proof. destruct s; cbn; easy. Qed.

Lemma trimEnd_prefix s : exists t, s = trimEnd s ++ t.
Proof.
  unfold trimEnd. exists (rev (takeWhile isWs (rev s))).
  rewrite <- rev_app_distr, takeWhile_dropWhile. now rewrite rev_involutive.
Qed.

Lemma trim_headClean s : headClean (trim s) = true.
Proof.
  unfold trim. destruct (trimEnd_prefix (trimStart s)) as [t Ht].
  apply headClean_prefix with t. rewrite <- Ht. apply dropWhile_headClean.
Qed.

Lemma trim_lastClean s : headClean (rev (trim s)) = true.
Proof.
  unfold trim, trimEnd. rewrite rev_involutive. apply dropWhile_headClean.
Qed.

Lemma trim_idem s : trim (trim s) = trim s.
Proof.
  unfold trim at 1. unfold trimStart. rewrite (dropWhile_id _ (trim_headClean s)).
  unfold trimEnd. rewrite (dropWhile_id _ (trim_lastClean s)).
  apply rev_involutive.
Qed.

Lemma nonWs_nil_trim s : trim s = [] -> nonWs s = [].
Proof. intros H. now rewrite <- nonWs_trim, H. Qed.

End StringFacts.

(** ** The chunker *)

Module ChunkProps.
Import Chunk.

(** The pieces of the two splits put together give back what was split:
    the sentence split loses nothing. *)
Lemma splitSentencesFrom_concat behind acc rest :
  concat (splitSentencesFrom behind acc rest) = rev acc ++ rest.
Proof.
  revert behind acc. induction rest as [|c rest IH]; intros behind acc; cbn.
  - now rewrite !app_nil_r.
  - destruct (behind && negb (is_empty acc)); cbn; rewrite IH; cbn.
    + easy.
    + now rewrite <- app_assoc.
Qed.

Lemma splitSentences_concat sec : concat (splitSentences sec) = sec.
Proof. apply splitSentencesFrom_concat. Qed.

Lemma pushChunk_ok maxLen work chunks s :
  Forall (chunkOk maxLen work) chunks -> bufOk maxLen work s ->
  Forall (chunkOk maxLen work) (pushChunk chunks s).
Proof.
  intros Hc Hs. unfold pushChunk. destruct (truthy (trim s)) eqn:E; [|easy].
  apply Forall_app. split; [easy|]. constructor; [|constructor].
  apply truthy_true in E. split; [easy|]. split; [apply trim_idem|].
  destruct Hs as [-> | [Hlen | Hpart]].
  - now cbn in E.
  - left. pose proof (trim_length s). lia.
  - right. now exists s.
Qed.

Lemma packParts_ok maxLen work parts :
  forall chunks buf,
    (forall p, In p parts -> wholePart work p) ->
    Forall (chunkOk maxLen work) chunks -> bufOk maxLen work buf ->
    Forall (chunkOk maxLen work) (fst (packParts maxLen chunks buf parts)) /\
    bufOk maxLen work (snd (packParts maxLen chunks buf parts)).
Proof.
  induction parts as [|part parts IH]; intros chunks buf Hin Hc Hb; cbn.
  - easy.
  - destruct (maxLen <? Z.of_nat (length (buf ++ part)))%Z eqn:E.
    + apply IH.
      * intros p Hp. apply Hin. now right.
      * now apply pushChunk_ok.
      * right. right. apply Hin. now left.
    + apply IH.
      * intros p Hp. apply Hin. now right.
      * easy.
      * right. left. apply Z.ltb_ge in E. exact E.
Qed.

Lemma chunkSection_ok maxLen work chunks sec :
  In sec work -> Forall (chunkOk maxLen work) chunks ->
  Forall (chunkOk maxLen work) (chunkSection maxLen chunks sec).
Proof.
  intros Hsec Hc. unfold chunkSection.
  destruct (Z.of_nat (length sec) <=? maxLen)%Z eqn:E.
  - apply pushChunk_ok; [easy|]. right. left. now apply Z.leb_le.
  - destruct (packParts_ok maxLen work (splitSentences sec) chunks []) as [H1 H2].
    + intros p Hp. now exists sec.
    + easy.
    + now left.
    + destruct (packParts maxLen chunks [] (splitSentences sec)) as [chunks' buf].
      now apply pushChunk_ok.
Qed.

Lemma fold_chunkSection_ok maxLen work secs :
  forall chunks,
    (forall s, In s secs -> In s work) -> Forall (chunkOk maxLen work) chunks ->
    Forall (chunkOk maxLen work) (fold_left (chunkSection maxLen) secs chunks).
Proof.
  induction secs as [|sec secs IH]; intros chunks Hin Hc; cbn; [easy|].
  apply IH.
  - intros s Hs. apply Hin. now right.
  - apply chunkSection_ok; [|easy]. apply Hin. now left.
Qed.


(** A long sentence without a terminator is emitted whole, above [maxLen]. *)
Example chunkText_long_sentence :
  chunkText (lit "one very long sentence; short") 10
  = [lit "one very long sentence;"; lit "short"].
Proof. reflexivity. Qed.

(** *** Content *)

Lemma pushChunk_nonWs chunks s :
  nonWs (concat (pushChunk chunks s)) = nonWs (concat chunks) ++ nonWs s.
Proof.
  unfold pushChunk. destruct (truthy (trim s)) eqn:E.
  - rewrite concat_app, nonWs_app. cbn. now rewrite app_nil_r, nonWs_trim.
  - apply truthy_false in E. rewrite (nonWs_nil_trim _ E). now rewrite app_nil_r.
Qed.

Lemma packParts_nonWs maxLen parts :
  forall chunks buf,
    nonWs (concat (fst (packParts maxLen chunks buf parts))) ++
    nonWs (snd (packParts maxLen chunks buf parts))
    = nonWs (concat chunks) ++ nonWs buf ++ nonWs (concat parts).
Proof.
  induction parts as [|part parts IH]; intros chunks buf; cbn.
  - now rewrite app_nil_r.
  - destruct (maxLen <? Z.of_nat (length (buf ++ part)))%Z.
    + rewrite IH, pushChunk_nonWs, !nonWs_app, <- !app_assoc. easy.
    + rewrite IH, !nonWs_app, <- !app_assoc. easy.
Qed.

Lemma chunkSection_nonWs maxLen chunks sec :
  nonWs (concat (chunkSection maxLen chunks sec))
  = nonWs (concat chunks) ++ nonWs sec.
Proof.
  unfold chunkSection. destruct (Z.of_nat (length sec) <=? maxLen)%Z.
  - apply pushChunk_nonWs.
  - pose proof (packParts_nonWs maxLen (splitSentences sec) chunks []) as H.
    destruct (packParts maxLen chunks [] (splitSentences sec)) as [chunks' buf].
    cbn [fst snd] in H. rewrite pushChunk_nonWs, H. cbn [nonWs List.filter app].
    now rewrite splitSentences_concat.
Qed.

Lemma fold_chunkSection_nonWs maxLen secs :
  forall chunks,
    nonWs (concat (fold_left (chunkSection maxLen) secs chunks))
    = nonWs (concat chunks) ++ nonWs (concat secs).
Proof.
  induction secs as [|sec secs IH]; intros chunks; cbn.
  - now rewrite app_nil_r.
  - rewrite IH, chunkSection_nonWs, nonWs_app, <- app_assoc. easy.
Qed.

(** Trimming the pieces and dropping the empty ones keeps the content. *)
Lemma sections_nonWs pieces :
  nonWs (concat (List.filter truthy (List.map trim pieces)))
  = nonWs (concat pieces).
Proof.
  induction pieces as [|p pieces IH]; cbn; [easy|].
  rewrite nonWs_app, <- IH, <- (nonWs_trim p).
  destruct (truthy (trim p)) eqn:E; cbn.
  - now rewrite nonWs_app.
  - apply truthy_false in E. now rewrite E.
Qed.

(** An input no position of which starts a heading marker is one piece. *)
Lemma splitHeadingsFrom_free lineStart acc rest :
  headingFrom lineStart rest = false ->
  splitHeadingsFrom 0 lineStart acc rest = [rev acc ++ rest].
Proof.
  revert lineStart acc. induction rest as [|c rest IH]; intros lineStart acc H.
  - cbn. now rewrite app_nil_r.
  - cbn [headingFrom] in H. apply orb_false_iff in H as [H1 H2].
    cbn [splitHeadingsFrom].
    destruct (matchHeading lineStart (c :: rest)); [easy|].
    rewrite (IH _ _ H2). cbn. now rewrite <- app_assoc.
Qed.

Lemma workList_nonWs input :
  nonWs (concat (workList input))
  = match sections input with
    | [] => nonWs input
    | _ => nonWs (concat (splitHeadings input))
    end.
Proof.
  unfold workList. pose proof (sections_nonWs (splitHeadings input)) as H.
  fold (sections input) in H. destruct (sections input); [|easy].
  cbn. now rewrite app_nil_r.
Qed.

Lemma workList_free_nonWs input :
  hasHeading input = false -> nonWs (concat (workList input)) = nonWs input.
Proof.
  intros H. rewrite workList_nonWs.
  destruct (sections input); [easy|].
  unfold splitHeadings. rewrite (splitHeadingsFrom_free _ _ _ H). cbn.
  now rewrite app_nil_r.
Qed.

(** C9 as worded fails: the heading split consumes the markers. *)
Lemma chunkText_drops_heading_marker : ~ chunks_reproduce_input.
Proof.
  intros H. specialize (H (lit "# Intro") 800%Z). vm_compute in H. discriminate H.
Qed.

(** C9, amended. The chunks, white space apart, are the pieces of the heading
    split (the input without its heading markers), white space apart, or the
    whole input when every piece is blank; for an input without a heading
    marker they are the input, white space apart. *)
Theorem chunkText_content (input : jsstring) (maxLen : Z) :
  nonWs (concat (chunkText input maxLen))
  = match sections input with
    | [] => nonWs input
    | _ => nonWs (concat (splitHeadings input))
    end
  /\ (hasHeading input = false ->
      nonWs (concat (chunkText input maxLen)) = nonWs input).
Proof.
  unfold chunkText. rewrite fold_chunkSection_nonWs. cbn [concat nonWs List.filter app].
  split; [apply workList_nonWs | apply workList_free_nonWs].
Qed.

Lemma chunkText_content_witness :
  hasHeading (lit "First part! Second part; the rest") = false /\
  nonWs (concat (chunkText (lit "First part! Second part; the rest") 12))
  = nonWs (lit "First part! Second part; the rest").
Proof.
  split; [reflexivity|].
  apply (chunkText_content (lit "First part! Second part; the rest") 12). reflexivity.
Defined.

End ChunkProps.

(** ** The retriever *)

Module RetrieverProps.
Import Retriever.

Lemma str_eqb_eq a b : str_eqb a b = true <-> a = b.
Proof. unfold str_eqb. apply bool_decide_eq_true. Qed.

Lemma str_eqb_refl a : str_eqb a a = true.
Proof. now apply str_eqb_eq. Qed.

Lemma str_eqb_neq a b : str_eqb a b = false <-> a <> b.
Proof. unfold str_eqb. apply bool_decide_eq_false. Qed.

Section Url.
Context `{UrlApi}.

(** *** URL conversion *)

Lemma convertUrlForLanguage_returns originalUrl targetLanguage :
  exists finalUrl, convertUrlForLanguage originalUrl targetLanguage = Ok finalUrl.
Proof.
  unfold convertUrlForLanguage, constructURL.
  destruct (is_empty originalUrl || str_eqb originalUrl placeholder); [eauto|].
  destruct (newURL originalUrl None); cbn; eauto.
Qed.

Lemma toSource_returns dict lang v : exists s, toSource dict lang v = Ok s.
Proof.
  unfold toSource.
  destruct (str_eqb lang en && negb (includes (originalUrl v) enMarker)); [|eauto].
  destruct (negb (sameTitle _ _)); [|eauto].
  destruct (convertUrlForLanguage_returns (originalUrl v) lang) as [u ->]. cbn. eauto.
Qed.

Lemma mapR_returns {A B} (f : A -> Res B) (xs : list A) :
  (forall x, exists y, f x = Ok y) -> exists ys, mapR f xs = Ok ys.
Proof.
  intros Hf. induction xs as [|x xs [ys IH]]; cbn; [eauto|].
  destruct (Hf x) as [y ->]. cbn. rewrite IH. cbn. eauto.
Qed.

Lemma buildSources_returns dict lang metadataResults :
  exists sources, buildSources dict lang metadataResults = Ok sources.
Proof.
  unfold buildSources.
  destruct (mapR_returns (toSource dict lang) (List.filter hasUrlOrTitle metadataResults))
    as [ys ->]; [apply toSource_returns|].
  cbn. eauto.
Qed.

Lemma assemble_returns dict lang usedFallback queryRes :
  exists res, assemble dict lang usedFallback queryRes = Ok res /\
              Retriever.usedFallback res = usedFallback /\
              matches res = queryRes.
Proof.
  unfold assemble.
  destruct (length queryRes =? 0) eqn:E.
  - apply Nat.eqb_eq, length_zero_iff_nil in E. subst. eauto.
  - destruct (length (validMatches queryRes) =? 0); [eauto|].
    destruct (buildSources_returns dict lang (retained lang usedFallback queryRes))
      as [ss ->]. cbn. eauto.
Qed.

(** C10. The URL conversion never throws: it gives back the placeholder and
    the empty string as they are, and the original string when the URL
    constructor rejects it; so building the sources never fails, whatever
    the URL metadata. *)
Theorem convertUrlForLanguage_total (originalUrl targetLanguage : jsstring) :
  (exists finalUrl,
      convertUrlForLanguage originalUrl targetLanguage = Ok finalUrl) /\
  (originalUrl = placeholder \/ originalUrl = [] ->
   convertUrlForLanguage originalUrl targetLanguage = Ok originalUrl) /\
  (newURL originalUrl None = None ->
   convertUrlForLanguage originalUrl targetLanguage = Ok originalUrl) /\
  (forall dict lang metadataResults,
      exists sources, buildSources dict lang metadataResults = Ok sources).
Proof.
  split; [apply convertUrlForLanguage_returns|]. split; [|split].
  - intros [-> | ->]; reflexivity.
  - intros Hnone. unfold convertUrlForLanguage, constructURL. rewrite Hnone. cbn.
    now destruct (_ || _).
  - intros. apply buildSources_returns.
Qed.

End Url.

Lemma convertUrlForLanguage_total_witness :
  @newURL plainUrlApi (lit "blog/no-scheme") None = None /\
  @convertUrlForLanguage plainUrlApi (lit "blog/no-scheme") en
  = Ok (lit "blog/no-scheme").
Proof.
  split; [reflexivity|].
  apply (@convertUrlForLanguage_total plainUrlApi (lit "blog/no-scheme") en).
  reflexivity.
Defined.

Example convertUrlForLanguage_rewrites :
  @convertUrlForLanguage plainUrlApi (lit "https://your-site.com/blog/test-post") en
  = Ok (lit "https://your-site.com/en/blog/test-post").
Proof. reflexivity. Qed.

(** *** The post-query filter *)

Lemma orElse_nil o : orElse o [] = match o with Some s => s | None => [] end.
Proof. destruct o as [[|c s]|]; reflexivity. Qed.

Lemma urlHasMarker_marked v : urlHasMarker v = marked v.
Proof.
  unfold urlHasMarker, marked. rewrite orElse_nil.
  now destruct (url (entry_metadata v)).
Qed.

Lemma filter_length_existsb {A} (f : A -> bool) (l : list A) :
  (0 <? length (List.filter f l)) = existsb f l.
Proof.
  induction l as [|x l IH]; cbn; [easy|]. destruct (f x); cbn; [easy | exact IH].
Qed.

Lemma existsb_same {A} (f g : A -> bool) (l : list A) :
  (forall x, f x = g x) -> existsb f l = existsb g l.
Proof. intros E. induction l as [|x l IH]; cbn; [easy|]. now rewrite E, IH. Qed.

Lemma postFilter_en metadataResults :
  postFilter en metadataResults
  = if existsb marked metadataResults
    then List.filter marked metadataResults
    else List.filter (fun v => negb (marked v)) metadataResults.
Proof.
  unfold postFilter.
  assert (E : forall v, postFilterKeeps en metadataResults v
                        = if existsb marked metadataResults then marked v
                          else negb (marked v)).
  { intros v. unfold postFilterKeeps. rewrite str_eqb_refl, filter_length_existsb.
    rewrite (existsb_same _ _ _ urlHasMarker_marked). reflexivity. }
  rewrite (List.filter_ext _ _ E).
  destruct (existsb marked metadataResults); reflexivity.
Qed.

Lemma postFilter_zh metadataResults :
  postFilter zh metadataResults
  = List.filter (fun v => negb (marked v)) metadataResults.
Proof. unfold postFilter. now apply List.filter_ext. Qed.

(** C2. Without the fallback the valid matches are retained as they are. With
    it, a request for [zh] keeps exactly the matches whose URL lacks the
    English marker, and a request for [en] keeps exactly the marked matches
    when there is one and exactly the unmarked ones otherwise. *)
Theorem postFilter_only_on_fallback (currentLang : jsstring) (queryRes : list Match) :
  let valid := toEntries (validMatches queryRes) in
  retained currentLang false queryRes = valid /\
  (currentLang = zh ->
   retained currentLang true queryRes
   = List.filter (fun v => negb (marked v)) valid /\
   Forall (fun v => includes (orElse (url (entry_metadata v)) []) enMarker = false)
          (retained currentLang true queryRes)) /\
  (currentLang = en ->
   (existsb marked valid = true ->
    retained currentLang true queryRes = List.filter marked valid) /\
   (existsb marked valid = false ->
    retained currentLang true queryRes
    = List.filter (fun v => negb (marked v)) valid)).
Proof.
  cbn zeta. unfold retained. split; [reflexivity|]. split.
  - intros ->. rewrite postFilter_zh. split; [reflexivity|].
    apply List.Forall_forall. intros v Hv. apply List.filter_In in Hv as [_ Hv].
    now apply negb_true_iff in Hv.
  - intros ->. rewrite postFilter_en. split; intros ->; reflexivity.
Qed.

(** *** The query stage *)

Section Engine.
Context `{UrlApi} {Vector : Type}.
Variables (VECTORIZE : @VectorizeIndex Vector)
          (titleDictionary : gmap jsstring jsstring)
          (qvec : Vector) (k : Z) (currentLang : jsstring).

(** The run of the engine when the filtered query succeeds with a match. *)
Lemma run_filtered ms :
  needsFallback (filteredReply VECTORIZE qvec k currentLang) = false ->
  settled (filteredReply VECTORIZE qvec k currentLang) = Fulfilled ms ->
  run (getRelevantDocuments VECTORIZE titleDictionary qvec k currentLang)
  = (assemble titleDictionary currentLang false ms,
     [(qvec, filteredOptions k currentLang)]).
Proof.
  unfold run, getRelevantDocuments, tryCatch, bind, query, awaitRace, await.
  cbn [length app]. fold (filteredReply VECTORIZE qvec k currentLang).
  unfold needsFallback. intros Hneed Hset. rewrite Hset in *.
  apply orb_false_iff in Hneed as [Htime Hlen].
  apply negb_false_iff in Htime. rewrite Htime. cbn. rewrite Hlen. cbn.
  unfold liftR. now destruct (assemble _ _ _ _).
Qed.

(** The run of the engine when the filtered query fails. *)
Lemma run_fallback :
  needsFallback (filteredReply VECTORIZE qvec k currentLang) = true ->
  run (getRelevantDocuments VECTORIZE titleDictionary qvec k currentLang)
  = (match settled (fallbackReply VECTORIZE qvec k) with
     | Fulfilled ms => assemble titleDictionary currentLang true ms
     | Rejected e => Throw e
     end,
     [(qvec, filteredOptions k currentLang); (qvec, unfilteredOptions k)]).
Proof.
  unfold run, getRelevantDocuments, tryCatch, bind, query, awaitRace, await.
  cbn [length app]. fold (filteredReply VECTORIZE qvec k currentLang).
  unfold needsFallback. intros Hneed.
  destruct (inTime (filteredReply VECTORIZE qvec k currentLang));
    cbn in Hneed |- *;
    [destruct (settled (filteredReply VECTORIZE qvec k currentLang)) as [ms|e];
     cbn; [rewrite Hneed; cbn|] |];
    fold (fallbackReply VECTORIZE qvec k);
    (destruct (settled (fallbackReply VECTORIZE qvec k)) as [ms2|e2]; cbn;
     unfold liftR; [now destruct (assemble _ _ _ _) | reflexivity]).
Qed.

(** C1. When the filtered query throws, runs into the timeout or has no
    match, the engine issues exactly two queries: the filtered one and one
    unfiltered query with the same vector and [k]; nothing is retried. If
    the unfiltered query fails, its error is thrown to the caller; if it
    succeeds, the result reports the fallback. *)
Theorem fallback_exactly_once :
  needsFallback (filteredReply VECTORIZE qvec k currentLang) = true ->
  snd (run (getRelevantDocuments VECTORIZE titleDictionary qvec k currentLang))
  = [(qvec, filteredOptions k currentLang); (qvec, unfilteredOptions k)] /\
  match settled (fallbackReply VECTORIZE qvec k) with
  | Rejected e =>
      fst (run (getRelevantDocuments VECTORIZE titleDictionary qvec k currentLang))
      = Throw e
  | Fulfilled ms =>
      exists res,
        fst (run (getRelevantDocuments VECTORIZE titleDictionary qvec k currentLang))
        = Ok res /\
        usedFallback res = true /\ matches res = ms
  end.
Proof.
  intros Hneed. rewrite (run_fallback Hneed). cbn [fst snd]. split; [reflexivity|].
  destruct (settled (fallbackReply VECTORIZE qvec k)) as [ms|e]; [|reflexivity].
  apply assemble_returns.
Qed.

(** Without such a failure there is the filtered query alone. *)
Lemma no_fallback_without_failure :
  needsFallback (filteredReply VECTORIZE qvec k currentLang) = false ->
  snd (run (getRelevantDocuments VECTORIZE titleDictionary qvec k currentLang))
  = [(qvec, filteredOptions k currentLang)] /\
  exists res,
    fst (run (getRelevantDocuments VECTORIZE titleDictionary qvec k currentLang))
    = Ok res /\
    usedFallback res = false.
Proof.
  intros Hneed.
  assert (exists ms, settled (filteredReply VECTORIZE qvec k currentLang) = Fulfilled ms)
    as [ms Hms].
  { unfold needsFallback in Hneed. apply orb_false_iff in Hneed as [_ Hneed].
    destruct (settled (filteredReply VECTORIZE qvec k currentLang));
      [eauto | discriminate]. }
  rewrite (run_filtered ms Hneed Hms). cbn [fst snd]. split; [reflexivity|].
  destruct (assemble_returns titleDictionary currentLang false ms)
    as (res & -> & Hf & _).
  eauto.
Qed.

(** *** Validation of the metadata *)

Lemma validMatches_idem queryRes :
  validMatches (validMatches queryRes) = validMatches queryRes.
Proof.
  unfold validMatches. induction queryRes as [|m ms IH]; cbn; [easy|].
  destruct (match metadata m with Some md => present (text md) | None => false end)
    eqn:E; cbn; rewrite ?E, IH; reflexivity.
Qed.

Lemma assemble_no_valid lang usedFallback queryRes :
  validMatches queryRes = [] ->
  assemble titleDictionary lang usedFallback queryRes
  = Ok {| contexts := []; sources := []; matches := queryRes;
          usedFallback := usedFallback |}.
Proof.
  intros Hv. unfold assemble. rewrite Hv. cbn.
  destruct queryRes; reflexivity.
Qed.

End Engine.

(** *** Deduplication of the sources *)

Lemma dedupStep_eq seenUrls uniqueSources s :
  dedupStep (seenUrls, uniqueSources) s
  = if negb (bool_decide (source_url s ∈ seenUrls))
       && negb (str_eqb (source_url s) placeholder)
    then ({[ source_url s ]} ∪ seenUrls, uniqueSources ++ [s])
    else (seenUrls, uniqueSources).
Proof. reflexivity. Qed.

Lemma dedupStep_firstSeen sources :
  forall seenUrls uniqueSources,
    snd (fold_left dedupStep sources (seenUrls, uniqueSources))
    = uniqueSources ++ firstSeen seenUrls sources.
Proof.
  induction sources as [|s sources IH]; intros seenUrls uniqueSources.
  - cbn. now rewrite app_nil_r.
  - cbn [fold_left firstSeen]. rewrite dedupStep_eq.
    destruct (negb (bool_decide (source_url s ∈ seenUrls))
              && negb (str_eqb (source_url s) placeholder)).
    + rewrite IH, <- app_assoc. reflexivity.
    + apply IH.
Qed.

Lemma dedupSources_firstSeen sources :
  dedupSources sources = firstSeen ∅ sources.
Proof. unfold dedupSources. now rewrite dedupStep_firstSeen. Qed.

Lemma fresh_source_iff (seenUrls : gset jsstring) s :
  (negb (bool_decide (source_url s ∈ seenUrls))
   && negb (str_eqb (source_url s) placeholder)) = true
  <-> (source_url s ∉ seenUrls) /\ source_url s <> placeholder.
Proof.
  rewrite andb_true_iff, !negb_true_iff, bool_decide_eq_false, str_eqb_neq.
  reflexivity.
Qed.

Lemma firstSeen_fresh sources :
  forall seenUrls,
    Forall (fun s => source_url s <> placeholder /\ source_url s ∉ seenUrls)
           (firstSeen seenUrls sources).
Proof.
  induction sources as [|s sources IH]; intros seenUrls; cbn [firstSeen];
    [constructor|].
  destruct (negb (bool_decide (source_url s ∈ seenUrls))
            && negb (str_eqb (source_url s) placeholder)) eqn:E; [|apply IH].
  apply fresh_source_iff in E as [Hseen Hph].
  constructor; [easy|].
  eapply Forall_impl; [apply (IH ({[source_url s]} ∪ seenUrls))|].
  cbn beta. intros x [Hx1 Hx2]. split; [easy|].
  intros Hx. apply Hx2. now apply elem_of_union_r.
Qed.

Lemma firstSeen_NoDup sources :
  forall seenUrls, List.NoDup (List.map source_url (firstSeen seenUrls sources)).
Proof.
  induction sources as [|s sources IH]; intros seenUrls; cbn [firstSeen];
    [constructor|].
  destruct (negb (bool_decide (source_url s ∈ seenUrls))
            && negb (str_eqb (source_url s) placeholder)); [|apply IH].
  cbn [List.map]. constructor; [|apply IH].
  intros Hin. apply List.in_map_iff in Hin as (x & Hx & Hin).
  pose proof (firstSeen_fresh sources ({[source_url s]} ∪ seenUrls)) as Hf.
  rewrite List.Forall_forall in Hf. destruct (Hf x Hin) as [_ Hnot].
  apply Hnot. rewrite Hx. apply elem_of_union_l, elem_of_singleton. reflexivity.
Qed.

Lemma firstSeen_sublist sources :
  forall seenUrls, sublist (firstSeen seenUrls sources) sources.
Proof.
  induction sources as [|s sources IH]; intros seenUrls; cbn [firstSeen];
    [constructor|].
  destruct (negb (bool_decide (source_url s ∈ seenUrls))
            && negb (str_eqb (source_url s) placeholder)).
  - apply sublist_skip, IH.
  - apply sublist_cons, IH.
Qed.

Lemma firstSeen_keeps_first l1 :
  forall seenUrls s l2,
    source_url s <> placeholder -> source_url s ∉ seenUrls ->
    ~ In (source_url s) (List.map source_url l1) ->
    In s (firstSeen seenUrls (l1 ++ s :: l2)).
Proof.
  induction l1 as [|x l1 IH]; intros seenUrls s l2 Hph Hseen Hfirst;
    cbn [app firstSeen].
  - rewrite (proj2 (fresh_source_iff seenUrls s) (conj Hseen Hph)). now left.
  - cbn [List.map In] in Hfirst.
    destruct (negb (bool_decide (source_url x ∈ seenUrls))
              && negb (str_eqb (source_url x) placeholder)).
    + right. apply IH; [easy | | tauto].
      rewrite not_elem_of_union, not_elem_of_singleton. split; [|easy].
      intros E. apply Hfirst. now left.
    + apply IH; [easy | easy | tauto].
Qed.

(** C4. Deduplication drops every source whose URL is the placeholder, keeps
    one source for each other URL, the first one seen, and leaves the kept
    sources in the order they had. *)
Theorem dedupSources_keeps_first_seen (sources : list Source) :
  Forall (fun s => source_url s <> placeholder) (dedupSources sources) /\
  List.NoDup (List.map source_url (dedupSources sources)) /\
  sublist (dedupSources sources) sources /\
  (forall l1 s l2,
      sources = l1 ++ s :: l2 -> source_url s <> placeholder ->
      ~ In (source_url s) (List.map source_url l1) ->
      In s (dedupSources sources)).
Proof.
  rewrite dedupSources_firstSeen. split; [|split; [|split]].
  - eapply Forall_impl; [apply firstSeen_fresh|]. cbn beta. tauto.
  - apply firstSeen_NoDup.
  - apply firstSeen_sublist.
  - intros l1 s l2 -> Hph Hfirst.
    apply firstSeen_keeps_first; [easy | apply not_elem_of_empty | easy].
Qed.

(** Two chunks of one page and a match without URL give one source. *)
Example dedupSources_example :
  let src i u := {| source_id := i; source_url := u; source_title := Str (lit "t");
                    source_source := i; hasEnglishVersion := true |} in
  dedupSources [src (lit "a#0") (lit "https://h/blog/a"); src (lit "x") (lit "#");
                src (lit "a#1") (lit "https://h/blog/a");
                src (lit "b#0") (lit "https://h/blog/b")]
  = [src (lit "a#0") (lit "https://h/blog/a"); src (lit "b#0") (lit "https://h/blog/b")].
Proof. vm_compute. reflexivity. Qed.

Lemma firstSeen_covers sources :
  forall (seenUrls : gset jsstring) u,
    u <> placeholder -> u ∉ seenUrls -> In u (List.map source_url sources) ->
    In u (List.map source_url (firstSeen seenUrls sources)).
Proof.
  induction sources as [|s sources IH]; intros seenUrls u Hph Hseen Hin;
    cbn [firstSeen List.map In] in *; [easy|].
  destruct (negb (bool_decide (source_url s ∈ seenUrls))
            && negb (str_eqb (source_url s) placeholder)) eqn:E.
  - cbn [List.map In]. destruct (decide (source_url s = u)) as [Heq|Hne]; [now left|].
    right. apply IH; [easy | | tauto].
    rewrite not_elem_of_union, not_elem_of_singleton. split; [congruence | easy].
  - apply IH; [easy | easy |]. destruct Hin as [Heq|Hin]; [|easy].
    exfalso. subst u.
    assert (Hfresh := proj2 (fresh_source_iff seenUrls s) (conj Hseen Hph)).
    congruence.
Qed.

(** *** The sources of a request in English *)

Section Sources.
Context `{UrlApi}.
Variable titleDictionary : gmap jsstring jsstring.

Lemma buildSources_flat_map lang metadataResults :
  buildSources titleDictionary lang metadataResults
  = Ok (flat_map (sourcesOfEntry titleDictionary lang) metadataResults).
Proof.
  unfold buildSources.
  induction metadataResults as [|v l IH]; [reflexivity|].
  cbn [List.filter flat_map]. unfold sourcesOfEntry at 1.
  destruct (hasUrlOrTitle v); [|exact IH].
  cbn [mapR]. destruct (toSource_returns titleDictionary lang v) as [s ->].
  cbn [bindR].
  destruct (mapR (toSource titleDictionary lang) (List.filter hasUrlOrTitle l))
    as [ss|e]; cbn [bindR] in *; [|discriminate].
  injection IH as <-. cbn [List.filter]. now destruct (keepSource lang s).
Qed.

(** The result of [assemble], in one piece. *)
Lemma assemble_eq lang fallback queryRes :
  assemble titleDictionary lang fallback queryRes
  = Ok {| contexts := buildContexts (retained lang fallback queryRes);
          sources := dedupSources
                       (flat_map (sourcesOfEntry titleDictionary lang)
                                 (retained lang fallback queryRes));
          matches := queryRes; usedFallback := fallback |}.
Proof.
  unfold assemble. destruct (length (validMatches queryRes) =? 0) eqn:Hlen.
  - apply Nat.eqb_eq, length_zero_iff_nil in Hlen.
    assert (Hr : retained lang fallback queryRes = []).
    { unfold retained. rewrite Hlen. now destruct fallback. }
    rewrite Hr. destruct queryRes; reflexivity.
  - assert (Hq : (length queryRes =? 0) = false).
    { destruct queryRes; [discriminate Hlen | reflexivity]. }
    rewrite Hq, buildSources_flat_map. reflexivity.
Qed.

Lemma inherited_proto : inherited proto = true.
Proof. reflexivity. Qed.

Lemma not_inherited_proto (t : jsstring) : inherited t = false -> t <> proto.
Proof. intros Hno ->. now rewrite inherited_proto in Hno. Qed.

Lemma translate_none (t : jsstring) :
  titleDictionary !! t = None -> inherited t = false ->
  translateTitleToEnglish titleDictionary t = Str t.
Proof.
  intros E Hno. unfold translateTitleToEnglish, getProperty.
  rewrite (proj2 (str_eqb_neq t proto) (not_inherited_proto t Hno)).
  now rewrite E, Hno.
Qed.

Lemma translate_some (t t' : jsstring) :
  titleDictionary !! t = Some t' -> t' <> [] -> t <> proto ->
  translateTitleToEnglish titleDictionary t = Str t'.
Proof.
  intros E Hne Hproto. unfold translateTitleToEnglish, getProperty.
  rewrite (proj2 (str_eqb_neq t proto) Hproto), E.
  now rewrite (proj2 (truthy_true t') Hne).
Qed.

Lemma translate_inherited (t : jsstring) :
  titleDictionary !! t = None -> inherited t = true ->
  translateTitleToEnglish titleDictionary t = Member t.
Proof.
  intros E Hin. unfold translateTitleToEnglish, getProperty.
  destruct (str_eqb t proto); [reflexivity|]. now rewrite E, Hin.
Qed.

(** A match whose title is not translated adds no source. *)
Lemma sourcesOfEntry_same v :
  includes (originalUrl v) enMarker = false ->
  translateTitleToEnglish titleDictionary (originalTitle v) = Str (originalTitle v) ->
  sourcesOfEntry titleDictionary en v = [].
Proof.
  intros Hmark Hsame. unfold sourcesOfEntry, toSource.
  destruct (hasUrlOrTitle v); [|reflexivity].
  rewrite str_eqb_refl, Hmark, Hsame. cbn [sameTitle]. rewrite str_eqb_refl.
  cbn [andb negb]. unfold keepSource. now rewrite str_eqb_refl.
Qed.

Lemma sourcesOfEntry_untranslated v :
  includes (originalUrl v) enMarker = false ->
  titleDictionary !! originalTitle v = None ->
  inherited (originalTitle v) = false ->
  sourcesOfEntry titleDictionary en v = [].
Proof.
  intros Hmark Hnone Hno. apply sourcesOfEntry_same; [exact Hmark|].
  now apply translate_none.
Qed.

(** A title that the dictionary maps to itself counts as not translated. *)
Lemma sourcesOfEntry_self v :
  includes (originalUrl v) enMarker = false ->
  titleDictionary !! originalTitle v = Some (originalTitle v) ->
  originalTitle v <> proto ->
  sourcesOfEntry titleDictionary en v = [].
Proof.
  intros Hmark Hself Hproto. apply sourcesOfEntry_same; [exact Hmark|].
  unfold translateTitleToEnglish, getProperty.
  rewrite (proj2 (str_eqb_neq _ proto) Hproto), Hself.
  now destruct (truthy (originalTitle v)).
Qed.

Lemma sourcesOfEntry_changed v (t : TitleValue) :
  hasUrlOrTitle v = true ->
  includes (originalUrl v) enMarker = false ->
  translateTitleToEnglish titleDictionary (originalTitle v) = t ->
  sameTitle t (originalTitle v) = false ->
  exists finalUrl,
    convertUrlForLanguage (originalUrl v) en = Ok finalUrl /\
    sourcesOfEntry titleDictionary en v
    = [ {| source_id := entry_id v; source_url := finalUrl; source_title := t;
           source_source := sourceOf v; hasEnglishVersion := true |} ].
Proof.
  intros Hhas Hmark Ht Hdiff.
  destruct (convertUrlForLanguage_returns (originalUrl v) en) as [finalUrl Hconv].
  exists finalUrl. split; [exact Hconv|].
  unfold sourcesOfEntry, toSource.
  rewrite Hhas, str_eqb_refl, Hmark, Ht, Hdiff.
  cbn [andb negb]. rewrite Hconv. cbn [bindR]. unfold keepSource.
  now rewrite str_eqb_refl.
Qed.

Lemma sourcesOfEntry_translated v (t : jsstring) :
  hasUrlOrTitle v = true ->
  includes (originalUrl v) enMarker = false ->
  titleDictionary !! originalTitle v = Some t -> t <> [] -> t <> originalTitle v ->
  originalTitle v <> proto ->
  exists finalUrl,
    convertUrlForLanguage (originalUrl v) en = Ok finalUrl /\
    sourcesOfEntry titleDictionary en v
    = [ {| source_id := entry_id v; source_url := finalUrl; source_title := Str t;
           source_source := sourceOf v; hasEnglishVersion := true |} ].
Proof.
  intros Hhas Hmark Hsome Hne Hdiff Hproto.
  apply sourcesOfEntry_changed; try assumption.
  - now apply translate_some.
  - cbn [sameTitle]. now apply str_eqb_neq.
Qed.

(** Every retained match has a text, so it adds to the context. *)
Lemma toEntries_text valid :
  Forall (fun m => match metadata m with
                   | Some md => present (text md) = true
                   | None => False
                   end) valid ->
  Forall (fun v => present (text (entry_metadata v)) = true) (toEntries valid).
Proof.
  induction 1 as [|m ms Hm _ IH]; cbn; [constructor|].
  destruct (metadata m) as [md|]; [|easy]. cbn. now constructor.
Qed.

Lemma retained_text lang fallback queryRes :
  Forall (fun v => present (text (entry_metadata v)) = true)
         (retained lang fallback queryRes).
Proof.
  assert (Hall : Forall (fun v => present (text (entry_metadata v)) = true)
                        (toEntries (validMatches queryRes))).
  { apply toEntries_text, List.Forall_forall. intros m Hm.
    apply List.filter_In in Hm as [_ Hm]. now destruct (metadata m). }
  unfold retained. destruct fallback; [|exact Hall].
  rewrite List.Forall_forall in *. intros v Hv. apply Hall.
  unfold postFilter in Hv. now apply List.filter_In in Hv.
Qed.

Lemma buildContexts_nonempty metadataResults :
  Forall (fun v => present (text (entry_metadata v)) = true) metadataResults ->
  metadataResults <> [] -> buildContexts metadataResults <> [].
Proof.
  intros Hall Hne. destruct metadataResults as [|v l]; [easy|].
  unfold buildContexts. cbn [List.map List.filter].
  apply List.Forall_cons_iff in Hall as [Hv _]. rewrite Hv. cbn [List.map].
  assert (Hfirst : orElse (text (entry_metadata v)) [] <> []).
  { destruct (text (entry_metadata v)) as [[|c t]|]; cbn in *; congruence. }
  set (first := orElse (text (entry_metadata v)) []) in *.
  set (rest := List.map _ _).
  destruct first as [|c first]; [easy|]. destruct rest; discriminate.
Qed.

(** The sources of a request in English, match by match. A retained match
    whose URL lacks the English marker adds no source when the dictionary
    gives nothing for its title (no own entry, no member of the prototype
    of that name) and none when the dictionary maps the title to itself;
    with an entry that is another, non-empty title, a match that has a URL
    or a title adds one source with the converted URL and the translated
    title, and deduplication keeps a source with that URL unless it is the
    placeholder; a title that names a member of the prototype is surfaced
    with that member as its title. When the dictionary gives nothing for any
    retained match, the source list is empty, while the context is not (as
    soon as a match is retained). *)
Lemma english_sources_follow_dictionary (fallback : bool) (queryRes : list Match) :
  exists res,
    assemble titleDictionary en fallback queryRes = Ok res /\
    (forall before v after,
        retained en fallback queryRes = before ++ v :: after ->
        includes (originalUrl v) enMarker = false ->
        exists contribution,
          sources res
          = dedupSources (flat_map (sourcesOfEntry titleDictionary en) before
                          ++ contribution
                          ++ flat_map (sourcesOfEntry titleDictionary en) after) /\
          (titleDictionary !! originalTitle v = None ->
           inherited (originalTitle v) = false -> contribution = []) /\
          (titleDictionary !! originalTitle v = Some (originalTitle v) ->
           originalTitle v <> proto -> contribution = []) /\
          (titleDictionary !! originalTitle v = None ->
           inherited (originalTitle v) = true -> hasUrlOrTitle v = true ->
           exists finalUrl,
             contribution
             = [ {| source_id := entry_id v; source_url := finalUrl;
                    source_title := Member (originalTitle v);
                    source_source := sourceOf v; hasEnglishVersion := true |} ]) /\
          (forall t : jsstring,
              titleDictionary !! originalTitle v = Some t ->
              t <> [] -> t <> originalTitle v -> originalTitle v <> proto ->
              hasUrlOrTitle v = true ->
              exists finalUrl,
                convertUrlForLanguage (originalUrl v) en = Ok finalUrl /\
                contribution
                = [ {| source_id := entry_id v; source_url := finalUrl;
                       source_title := Str t; source_source := sourceOf v;
                       hasEnglishVersion := true |} ] /\
                (finalUrl <> placeholder ->
                 In finalUrl (List.map source_url (sources res))))) /\
    ((forall v, In v (retained en fallback queryRes) ->
                includes (originalUrl v) enMarker = false /\
                titleDictionary !! originalTitle v = None /\
                inherited (originalTitle v) = false) ->
     sources res = [] /\
     (retained en fallback queryRes <> [] -> contexts res <> [])).
Proof.
  eexists. split; [apply assemble_eq|]. cbn [sources contexts]. split.
  - intros before v after Hsplit Hmark.
    exists (sourcesOfEntry titleDictionary en v). rewrite Hsplit.
    split; [|split; [|split; [|split]]].
    + now rewrite flat_map_app.
    + now apply sourcesOfEntry_untranslated.
    + now apply sourcesOfEntry_self.
    + intros Hnone Hin Hhas.
      destruct (sourcesOfEntry_changed v (Member (originalTitle v)) Hhas Hmark)
        as (finalUrl & _ & Hcontrib);
        [now apply translate_inherited | reflexivity |].
      now exists finalUrl.
    + intros t Hsome Hne Hdiff Hproto Hhas.
      destruct (sourcesOfEntry_translated v t Hhas Hmark Hsome Hne Hdiff Hproto)
        as (finalUrl & Hconv & Hcontrib).
      exists finalUrl. split; [exact Hconv|]. split; [exact Hcontrib|].
      intros Hph. rewrite dedupSources_firstSeen.
      apply firstSeen_covers; [exact Hph | apply not_elem_of_empty |].
      rewrite flat_map_app. cbn [flat_map]. rewrite Hcontrib.
      rewrite List.map_app. apply List.in_or_app. right. now left.
  - intros Hall. split.
    + assert (E : flat_map (sourcesOfEntry titleDictionary en)
                           (retained en fallback queryRes) = []).
      { induction (retained en fallback queryRes) as [|v l IH]; [reflexivity|].
        cbn [flat_map]. destruct (Hall v (or_introl eq_refl)) as (Hm & Hn & Hi).
        rewrite (sourcesOfEntry_untranslated v Hm Hn Hi). cbn [app].
        apply IH. intros w Hw. apply Hall. now right. }
      now rewrite E.
    + apply buildContexts_nonempty, retained_text.
Qed.

End Sources.

(** *** Validation of the metadata, on the whole engine *)

Section Validation.
Context `{UrlApi} {Vector : Type}.
Variables (VECTORIZE : @VectorizeIndex Vector)
          (titleDictionary : gmap jsstring jsstring)
          (qvec : Vector) (k : Z) (currentLang : jsstring).

Lemma present_text (o : option jsstring) :
  present o = true <-> exists t, o = Some t /\ t <> [].
Proof.
  destruct o as [t|]; cbn.
  - rewrite truthy_true. split; [intros Ht; now exists t|].
    intros (t' & E & Ht). now injection E as ->.
  - split; [discriminate | intros (t & E & _); discriminate].
Qed.

Lemma withoutText_invalid m :
  withoutText m ->
  match metadata m with Some md => present (text md) | None => false end = false.
Proof.
  unfold withoutText. destruct (metadata m) as [md|]; [|easy].
  intros [-> | ->]; reflexivity.
Qed.

Lemma validMatches_without before m after :
  withoutText m ->
  validMatches (before ++ m :: after) = validMatches (before ++ after).
Proof.
  intros Hm. unfold validMatches. rewrite !List.filter_app. cbn [List.filter].
  now rewrite (withoutText_invalid m Hm).
Qed.

Lemma validMatches_all_without ms : Forall withoutText ms -> validMatches ms = [].
Proof.
  induction 1 as [|m ms Hm _ IH]; [reflexivity|].
  unfold validMatches in *. cbn [List.filter].
  now rewrite (withoutText_invalid m Hm).
Qed.

Lemma toEntries_from valid v :
  In v (toEntries valid) ->
  exists m, In m valid /\ metadata m = Some (entry_metadata v) /\
            match_id m = entry_id v.
Proof.
  unfold toEntries. intros Hin. apply List.in_flat_map in Hin as (m & Hm & Hv).
  exists m. split; [exact Hm|]. destruct (metadata m) as [md|]; [|destruct Hv].
  destruct Hv as [<-|[]]. easy.
Qed.

Lemma retained_from lang fallback queryRes v :
  In v (retained lang fallback queryRes) ->
  exists m, In m queryRes /\ metadata m = Some (entry_metadata v) /\
            match_id m = entry_id v /\ present (text (entry_metadata v)) = true.
Proof.
  intros Hv.
  assert (Hin : In v (toEntries (validMatches queryRes))).
  { unfold retained in Hv. destruct fallback; [|exact Hv].
    unfold postFilter in Hv. now apply List.filter_In in Hv. }
  apply toEntries_from in Hin as (m & Hm & Hmd & Hid).
  apply List.filter_In in Hm as [Hm Htext]. rewrite Hmd in Htext.
  now exists m.
Qed.

Lemma retained_withText lang fallback queryRes v :
  In v (retained lang fallback queryRes) ->
  exists m t, In m queryRes /\ withText m t /\ match_id m = entry_id v /\
              metadata m = Some (entry_metadata v) /\
              text (entry_metadata v) = Some t.
Proof.
  intros Hv. apply retained_from in Hv as (m & Hm & Hmd & Hid & Htext).
  apply present_text in Htext as (t & Ht & Hne).
  exists m, t. repeat split; try easy. now exists (entry_metadata v).
Qed.

Lemma sourcesOfEntry_short dict lang v :
  length (sourcesOfEntry dict lang v) <= 1 /\
  Forall (fun s => source_id s = entry_id v /\ source_source s = sourceOf v)
         (sourcesOfEntry dict lang v).
Proof.
  unfold sourcesOfEntry. destruct (hasUrlOrTitle v); [|cbn; split; [lia | constructor]].
  destruct (toSource dict lang v) as [s|e] eqn:Hs;
    [|cbn; split; [lia | constructor]].
  destruct (keepSource lang s); [|cbn; split; [lia | constructor]].
  split; [cbn; lia|]. constructor; [|constructor].
  unfold toSource in Hs.
  destruct (str_eqb lang en && negb (includes (originalUrl v) enMarker)).
  - destruct (negb (sameTitle _ _)).
    + destruct (convertUrlForLanguage (originalUrl v) lang); cbn in Hs; [|discriminate].
      now injection Hs as <-.
    + now injection Hs as <-.
  - now injection Hs as <-.
Qed.

(** The texts that [buildContexts] joins. *)
Lemma buildContexts_texts queryRes metadataResults :
  (forall v, In v metadataResults ->
             exists m t, In m queryRes /\ withText m t /\
                         text (entry_metadata v) = Some t) ->
  Forall (fun t => exists m, In m queryRes /\ withText m t)
    (List.map (fun t => orElse t [])
       (List.filter present
          (List.map (fun v => text (entry_metadata v)) metadataResults))).
Proof.
  induction metadataResults as [|v l IH]; intros Hall; [constructor|].
  destruct (Hall v (or_introl eq_refl)) as (m & t & Hm & Hwith & Ht).
  assert (Hne : truthy t = true).
  { destruct Hwith as (md & _ & _ & Hne). now apply truthy_true. }
  cbn [List.map List.filter]. rewrite Ht. cbn [present]. rewrite Hne.
  cbn [List.map orElse]. rewrite Hne.
  constructor; [now exists m|]. apply IH. intros w Hw. apply Hall. now right.
Qed.

(** C5. Matches without text are dropped before anything else is computed.
    A match without text (no metadata, no text in it, or an empty one) that
    is put anywhere among the matches of the store changes neither the
    context nor the sources nor the flag. Every retained entry is made from
    a match that has a text, every source has the identifier of such a
    match, and the context joins texts of such matches. When every match
    is without text the context is the empty string and there is no source,
    and the flag still tells whether the fallback ran. *)
Theorem validation_discards_matches_without_text :
  (forall lang fallback before m after,
      withoutText m ->
      exists res res',
        assemble titleDictionary lang fallback (before ++ m :: after) = Ok res /\
        assemble titleDictionary lang fallback (before ++ after) = Ok res' /\
        contexts res = contexts res' /\ sources res = sources res' /\
        usedFallback res = usedFallback res') /\
  (forall lang fallback queryRes,
      Forall (fun v => exists m t,
                  In m queryRes /\ withText m t /\ match_id m = entry_id v /\
                  metadata m = Some (entry_metadata v))
             (retained lang fallback queryRes) /\
      exists res texts,
        assemble titleDictionary lang fallback queryRes = Ok res /\
        Forall (fun s => exists m t,
                    In m queryRes /\ withText m t /\ source_id s = match_id m)
               (sources res) /\
        contexts res = join separator texts /\
        Forall (fun t => exists m, In m queryRes /\ withText m t) texts) /\
  (forall ms,
      settled (if needsFallback (filteredReply VECTORIZE qvec k currentLang)
               then fallbackReply VECTORIZE qvec k
               else filteredReply VECTORIZE qvec k currentLang)
      = Fulfilled ms ->
      Forall withoutText ms ->
      fst (run (getRelevantDocuments VECTORIZE titleDictionary qvec k currentLang))
      = Ok {| contexts := []; sources := []; matches := ms;
              usedFallback :=
                needsFallback (filteredReply VECTORIZE qvec k currentLang) |}).
Proof.
  split; [|split].
  - intros lang fallback before m after Hm.
    rewrite !assemble_eq. eexists. eexists.
    split; [reflexivity|]. split; [reflexivity|]. cbn [contexts sources usedFallback].
    unfold retained. now rewrite (validMatches_without before m after Hm).
  - intros lang fallback queryRes. split.
    + apply List.Forall_forall. intros v Hv.
      destruct (retained_withText lang fallback queryRes v Hv)
        as (m & t & Hm & Hwith & Hid & Hmd & _).
      now exists m, t.
    + rewrite assemble_eq. eexists. eexists. split; [reflexivity|].
      cbn [contexts sources]. split; [|split; [reflexivity|]].
      * apply List.Forall_forall. intros s Hs.
        assert (Hin : s ∈ flat_map (sourcesOfEntry titleDictionary lang)
                            (retained lang fallback queryRes)).
        { eapply elem_of_sublist; [apply list_elem_of_In; exact Hs|].
          rewrite dedupSources_firstSeen. apply firstSeen_sublist. }
        apply list_elem_of_In, List.in_flat_map in Hin as (v & Hv & Hsv).
        destruct (sourcesOfEntry_short titleDictionary lang v) as [_ Hall].
        rewrite List.Forall_forall in Hall. destruct (Hall s Hsv) as [Hid _].
        destruct (retained_withText lang fallback queryRes v Hv)
          as (m & t & Hm & Hwith & Hmid & _).
        exists m, t. repeat split; try easy. congruence.
      * apply buildContexts_texts. intros v Hv.
        destruct (retained_withText lang fallback queryRes v Hv)
          as (m & t & Hm & Hwith & _ & _ & Ht).
        now exists m, t.
  - intros ms Hset Hall. apply validMatches_all_without in Hall.
    destruct (needsFallback (filteredReply VECTORIZE qvec k currentLang)) eqn:Hneed.
    + rewrite (run_fallback VECTORIZE titleDictionary qvec k currentLang Hneed), Hset.
      cbn [fst]. now apply assemble_no_valid.
    + rewrite (run_filtered VECTORIZE titleDictionary qvec k currentLang ms Hneed Hset).
      cbn [fst]. now apply assemble_no_valid.
Qed.

End Validation.


(** *** The statements on the sample data *)

Import Samples.

Lemma fallback_exactly_once_witness :
  needsFallback (filteredReply failingStore tt 15 zh) = true /\
  snd (run (@getRelevantDocuments plainUrlApi unit failingStore sampleDictionary tt 15 zh))
  = [(tt, filteredOptions 15 zh); (tt, unfilteredOptions 15)].
Proof.
  split; [reflexivity|].
  exact (proj1 (@fallback_exactly_once plainUrlApi unit failingStore
                  sampleDictionary tt 15%Z zh eq_refl)).
Defined.

Lemma postFilter_only_on_fallback_witness :
  existsb marked (toEntries (validMatches [chunk0; enChunk; chunk1])) = true /\
  retained en true [chunk0; enChunk; chunk1]
  = List.filter marked (toEntries (validMatches [chunk0; enChunk; chunk1])).
Proof.
  split; [reflexivity|].
  exact (proj1 (proj2 (proj2 (postFilter_only_on_fallback en [chunk0; enChunk; chunk1]))
                  eq_refl) eq_refl).
Defined.

Lemma validation_discards_matches_without_text_witness :
  withoutText emptyTextMatch /\
  exists res res',
    @assemble plainUrlApi sampleDictionary en true
      ([chunk0] ++ emptyTextMatch :: [chunk1]) = Ok res /\
    @assemble plainUrlApi sampleDictionary en true ([chunk0] ++ [chunk1]) = Ok res' /\
    contexts res = contexts res' /\ sources res = sources res' /\
    usedFallback res = usedFallback res'.
Proof.
  assert (Hm : withoutText emptyTextMatch) by (right; reflexivity).
  split; [exact Hm|].
  exact (proj1 (@validation_discards_matches_without_text plainUrlApi unit bareStore
                  sampleDictionary tt 15%Z en) en true [chunk0] emptyTextMatch [chunk1] Hm).
Defined.

(** On the sample store whose matches are all without text. *)
Lemma bareStore_gives_empty_result :
  fst (run (@getRelevantDocuments plainUrlApi unit bareStore sampleDictionary tt 15 en))
  = Ok {| contexts := []; sources := []; matches := [bareMatch]; usedFallback := false |}.
Proof. reflexivity. Qed.

Lemma english_sources_follow_dictionary_witness :
  exists res,
    @assemble plainUrlApi sampleDictionary en true [chunk0; chunk1] = Ok res /\
    In (lit "https://your-site.com/en/blog/test-post") (List.map source_url (sources res)).
Proof.
  destruct (@english_sources_follow_dictionary plainUrlApi sampleDictionary true
              [chunk0; chunk1]) as (res & Hres & Hparts & _).
  exists res. split; [exact Hres|].
  destruct (Hparts [entry0] entry1 [] eq_refl eq_refl)
    as (contribution & _ & _ & _ & _ & Hsome).
  destruct (Hsome (lit "English Title") eq_refl) as (finalUrl & Hconv & _ & Hin).
  - discriminate.
  - discriminate.
  - discriminate.
  - reflexivity.
  - vm_compute in Hconv. injection Hconv as <-. apply Hin. discriminate.
Defined.

(** C3 fails on the code for a post whose title is the same in both
    languages. The generator maps the title to itself, so the dictionary
    holds a translation of the title and the English version exists; the
    engine tells a translation by [translatedTitle !== originalTitle] and
    drops the source, while the context still has the text of the match.
    With any other English title the same match is surfaced, with the
    converted URL and the translated title. *)
Theorem title_translated_to_itself_is_dropped :
  TitleGenerator.titleDictionary
    (TitleGenerator.generateTitleDictionary TitleSamples.readHandbook
       [TitleSamples.zhHandbook; TitleSamples.enHandbook])
  = handbookDictionary /\
  handbookDictionary !! handbookTitle = Some handbookTitle /\
  run (@getRelevantDocuments plainUrlApi unit handbookStore handbookDictionary tt 8 en)
  = (Ok {| contexts := lit "a chunk of the handbook"; sources := [];
           matches := [handbookChunk]; usedFallback := true |},
     [(tt, filteredOptions 8 en); (tt, unfilteredOptions 8)]) /\
  fst (run (@getRelevantDocuments plainUrlApi unit handbookStore
              {[ handbookTitle := lit "The Istio Handbook" ]} tt 8 en))
  = Ok {| contexts := lit "a chunk of the handbook";
          sources := [ {| source_id := lit "handbook#0";
                          source_url := lit "https://your-site.com/en/blog/istio-handbook";
                          source_title := Str (lit "The Istio Handbook");
                          source_source := lit "zh/blog/istio-handbook/index.md";
                          hasEnglishVersion := true |} ];
          matches := [handbookChunk]; usedFallback := true |}.
Proof.
  split; [vm_compute; reflexivity|]. split; [reflexivity|].
  split; vm_compute; reflexivity.
Qed.

End RetrieverProps.

(** ** Ingestion *)

Module IngestProps.
Import Ingest.

(** *** The map of the blog files *)








(** *** The loop of the selection *)











Lemma NoDup_map_on {A B} (f : A -> B) (l : list A) :
  (forall x y, In x l -> In y l -> f x = f y -> x = y) ->
  List.NoDup l -> List.NoDup (List.map f l).
Proof.
  intros Hinj Hnd. induction Hnd as [|x l Hx Hnd IH]; cbn [List.map]; constructor.
  - intros Hin. apply List.in_map_iff in Hin as (y & E & Hy).
    assert (y = x) by (apply Hinj; [now right | now left | easy]). congruence.
  - apply IH. intros a b Ha Hb. apply Hinj; now right.
Qed.

Lemma startsWith_app (s p : jsstring) :
  startsWith s p = true -> s = p ++ drop (length p) s.
Proof.
  revert s. induction p as [|a p IH]; intros s Hs; [reflexivity|].
  destruct s as [|b s]; [discriminate|]. cbn in Hs.
  apply andb_true_iff in Hs as [E Hs]. apply N.eqb_eq in E. subst b.
  cbn [app length drop]. f_equal. now apply IH.
Qed.



(** The three cases of the design document. *)
Example filesToProcess_both_languages :
  filesToProcess [lit "en/blog/p/index.md"; lit "zh/blog/p/index.md"]
  = [lit "zh/blog/p/index.md"].
Proof. reflexivity. Qed.

Example filesToProcess_english_only :
  filesToProcess [lit "en/blog/p/index.md"] = [lit "en/blog/p/index.md"].
Proof. reflexivity. Qed.

Example filesToProcess_english_about :
  filesToProcess [lit "en/about/_index.md"] = [].
Proof. reflexivity. Qed.


(** *** URLs from paths *)

(** The cases of [tests/unit/ingest.test.ts]. *)
Example toUrlFromPath_tests :
  @toUrlFromPath plainUrlApi defaultBaseUrl (lit "zh/blog/some-post/index.md")
  = Ok (lit "https://your-site.com/blog/some-post", lit "zh") /\
  @toUrlFromPath plainUrlApi defaultBaseUrl (lit "en/blog/some-post/index.md")
  = Ok (lit "https://your-site.com/en/blog/some-post", lit "en") /\
  @toUrlFromPath plainUrlApi defaultBaseUrl (lit "zh/about/_index.md")
  = Ok (lit "https://your-site.com/about", lit "zh") /\
  @toUrlFromPath plainUrlApi defaultBaseUrl (lit "en/about/_index.md")
  = Ok (lit "https://your-site.com/en/about", lit "en").
Proof. repeat split; reflexivity. Qed.

(** C7 fails on the code for a slug that begins with [index]: the code
    replaces the first [/index] of the path, not the one that ends it, so
    the URL of [zh/blog/index-guide/index.md] is not the base followed by
    [/blog/index-guide], and likewise for the English path. *)
Theorem toUrlFromPath_index_slug :
  @toUrlFromPath plainUrlApi defaultBaseUrl (lit "zh/blog/index-guide/index.md")
  = Ok (lit "https://your-site.com/blog/-guide/index", lit "zh") /\
  @toUrlFromPath plainUrlApi defaultBaseUrl (lit "en/blog/index-guide/index.md")
  = Ok (lit "https://your-site.com/en/blog/-guide/index", lit "en") /\
  lit "https://your-site.com/blog/-guide/index"
  <> defaultBaseUrl ++ lit "/blog/" ++ lit "index-guide".
Proof. split; [reflexivity | split; [reflexivity | discriminate]]. Qed.

Section CleanSlugs.
Context `{UrlApi}.

Implicit Types (slug s t p : jsstring).

(** A slug free of slashes and backslashes. *)
Lemma backslashesToSlashes_app s t :
  backslashesToSlashes (s ++ t) = backslashesToSlashes s ++ backslashesToSlashes t.
Proof. apply List.map_app. Qed.

Lemma backslashesToSlashes_clean slug :
  Forall (fun c => c <> 47%N /\ c <> 92%N) slug -> backslashesToSlashes slug = slug.
Proof.
  unfold backslashesToSlashes.
  induction 1 as [|c slug [_ Hc] _ IH]; [reflexivity|]. cbn [List.map].
  apply N.eqb_neq in Hc. now rewrite Hc, IH.
Qed.

Lemma stripMdExtension_md s : stripMdExtension (s ++ lit ".md") = s.
Proof.
  unfold stripMdExtension. rewrite rev_app_distr.
  change (rev (lit ".md")) with [100; 109; 46]%N. cbn. apply rev_involutive.
Qed.

Lemma startsWith_app_slash p :
  Forall (fun c => c <> 47%N) p ->
  forall s t, startsWith s p = false -> startsWith (s ++ 47%N :: t) p = false.
Proof.
  induction 1 as [|a p Ha _ IH]; intros s t Hs; [now destruct s|].
  destruct s as [|b s]; cbn in *.
  - apply N.eqb_neq in Ha. now rewrite Ha.
  - destruct (a =? b)%N; [|reflexivity]. cbn in *. now apply IH.
Qed.

Lemma replaceFirst_clean slug t p r :
  Forall (fun c => c <> 47%N /\ c <> 92%N) slug ->
  replaceFirst (slug ++ t) (47%N :: p) r = slug ++ replaceFirst t (47%N :: p) r.
Proof.
  induction 1 as [|c slug [Hc _] _ IH]; [reflexivity|].
  cbn [app replaceFirst startsWith].
  assert (E : (47 =? c)%N = false) by (apply N.eqb_neq; congruence).
  rewrite E. cbn [andb]. now rewrite IH.
Qed.

Lemma replaceFirst_skip c s p r :
  startsWith (c :: s) p = false ->
  replaceFirst (c :: s) p r = c :: replaceFirst s p r.
Proof. intros E. cbn [replaceFirst]. now rewrite E. Qed.

Lemma collapseSlashesFrom_clean slug inRun :
  Forall (fun c => c <> 47%N /\ c <> 92%N) slug -> slug <> [] ->
  collapseSlashesFrom inRun (slug ++ lit "/") = slug ++ lit "/".
Proof.
  intros Hall Hne. revert inRun.
  induction Hall as [|c slug [Hc _] Hall IH]; intros inRun; [easy|].
  cbn [app collapseSlashesFrom]. apply N.eqb_neq in Hc. rewrite Hc. f_equal.
  destruct slug as [|d slug]; [reflexivity|]. now apply IH.
Qed.

Lemma stripTrailingSlash_slash s : stripTrailingSlash (s ++ lit "/") = s.
Proof.
  unfold stripTrailingSlash. rewrite rev_app_distr. cbn. apply rev_involutive.
Qed.

Variables (BASE_URL slug : jsstring).
Hypothesis slug_clean : Forall (fun c => c <> 47%N /\ c <> 92%N) slug.
Hypothesis slug_nonempty : slug <> [].
Hypothesis slug_not_index : startsWith slug (lit "index") = false.

Lemma noExt_of_blog (prefix : jsstring) :
  Forall (fun c => c <> 92%N) prefix ->
  stripMdExtension (backslashesToSlashes (prefix ++ slug ++ lit "/index.md"))
  = prefix ++ slug ++ lit "/index".
Proof.
  intros Hprefix.
  rewrite !backslashesToSlashes_app, (backslashesToSlashes_clean slug slug_clean).
  change (backslashesToSlashes (lit "/index.md")) with (lit "/index" ++ lit ".md").
  rewrite !app_assoc, stripMdExtension_md. do 2 f_equal.
  unfold backslashesToSlashes.
  induction Hprefix as [|c l Hc _ IH]; [reflexivity|]. cbn [List.map].
  apply N.eqb_neq in Hc. now rewrite Hc, IH.
Qed.

Lemma replaceFirst_slug_index :
  replaceFirst (47%N :: slug ++ lit "/index") (lit "/index") (lit "/")
  = 47%N :: slug ++ lit "/".
Proof.
  change (lit "/index") with (47 :: lit "index")%N.
  cbn [replaceFirst startsWith]. rewrite N.eqb_refl. cbn [andb].
  change (47 :: lit "index")%N with (lit "/index").
  change (slug ++ lit "/index") with (slug ++ 47%N :: lit "index").
  rewrite (startsWith_app_slash (lit "index")); [|repeat constructor; discriminate | easy].
  f_equal. change (lit "/index") with (47 :: lit "index")%N.
  rewrite (replaceFirst_clean slug _ _ _ slug_clean). reflexivity.
Qed.

Lemma cleanPathOf_zh_blog :
  cleanPathOf (lit "zh/blog/" ++ slug ++ lit "/index") = lit "zh/blog/" ++ slug ++ lit "/".
Proof.
  unfold cleanPathOf.
  assert (Eunder : endsWith (lit "zh/blog/" ++ slug ++ lit "/index") (lit "/_index") = false).
  { unfold endsWith. rewrite !rev_app_distr. reflexivity. }
  assert (Eindex : endsWith (lit "zh/blog/" ++ slug ++ lit "/index") (lit "/index") = true).
  { unfold endsWith. rewrite !rev_app_distr. reflexivity. }
  rewrite Eunder, Eindex.
  change (lit "zh/blog/" ++ slug ++ lit "/index")
    with ([122; 104; 47; 98; 108; 111; 103]%N ++ 47%N :: slug ++ lit "/index").
  cbn [app]. rewrite !replaceFirst_skip by reflexivity.
  rewrite replaceFirst_slug_index. reflexivity.
Qed.

Lemma cleanPathOf_en_blog :
  cleanPathOf (lit "en/blog/" ++ slug ++ lit "/index") = lit "en/blog/" ++ slug ++ lit "/".
Proof.
  unfold cleanPathOf.
  assert (Eunder : endsWith (lit "en/blog/" ++ slug ++ lit "/index") (lit "/_index") = false).
  { unfold endsWith. rewrite !rev_app_distr. reflexivity. }
  assert (Eindex : endsWith (lit "en/blog/" ++ slug ++ lit "/index") (lit "/index") = true).
  { unfold endsWith. rewrite !rev_app_distr. reflexivity. }
  rewrite Eunder, Eindex.
  change (lit "en/blog/" ++ slug ++ lit "/index")
    with ([101; 110; 47; 98; 108; 111; 103]%N ++ 47%N :: slug ++ lit "/index").
  cbn [app]. rewrite !replaceFirst_skip by reflexivity.
  rewrite replaceFirst_slug_index. reflexivity.
Qed.

Lemma urlPathOf_blog (prefix : jsstring) :
  collapseSlashes (lit "/" ++ prefix) = lit "/" ++ prefix ->
  (forall t, collapseSlashes (lit "/" ++ prefix ++ t)
             = lit "/" ++ prefix ++ collapseSlashesFrom true t) ->
  urlPathOf (prefix ++ slug ++ lit "/") = lit "/" ++ prefix ++ slug.
Proof.
  intros _ Hprefix. unfold urlPathOf. cbn zeta.
  rewrite Hprefix, (collapseSlashesFrom_clean slug true slug_clean slug_nonempty).
  replace (lit "/" ++ prefix ++ slug ++ lit "/")
    with ((lit "/" ++ prefix ++ slug) ++ lit "/") by now rewrite <- !app_assoc.
  rewrite stripTrailingSlash_slash. reflexivity.
Qed.

(** For a clean slug that does not begin with [index] the path handed to
    the URL constructor is the one the design document names. *)
Lemma toUrlFromPath_zh_blog :
  toUrlFromPath BASE_URL (lit "zh/blog/" ++ slug ++ lit "/index.md")
  = bindR (constructURL (lit "/blog/" ++ slug) (Some BASE_URL)) (fun url =>
    Ok (toString url, lit "zh")).
Proof.
  unfold toUrlFromPath. cbn zeta.
  rewrite noExt_of_blog by (repeat constructor; discriminate).
  rewrite cleanPathOf_zh_blog.
  change (languageOf (lit "zh/blog/" ++ slug ++ lit "/")) with (lit "zh").
  change (finalPathOf (lit "zh/blog/" ++ slug ++ lit "/"))
    with (lit "blog/" ++ slug ++ lit "/").
  rewrite (urlPathOf_blog (lit "blog/")); [reflexivity | reflexivity |].
  intros t. reflexivity.
Qed.

Lemma toUrlFromPath_en_blog :
  toUrlFromPath BASE_URL (lit "en/blog/" ++ slug ++ lit "/index.md")
  = bindR (constructURL (lit "/en/blog/" ++ slug) (Some BASE_URL)) (fun url =>
    Ok (toString url, lit "en")).
Proof.
  unfold toUrlFromPath. cbn zeta.
  rewrite noExt_of_blog by (repeat constructor; discriminate).
  rewrite cleanPathOf_en_blog.
  change (languageOf (lit "en/blog/" ++ slug ++ lit "/")) with (lit "en").
  change (finalPathOf (lit "en/blog/" ++ slug ++ lit "/"))
    with (lit "en/blog/" ++ slug ++ lit "/").
  rewrite (urlPathOf_blog (lit "en/blog/")); [reflexivity | reflexivity |].
  intros t. reflexivity.
Qed.

(** Where the URL constructor resolves the path to the base followed by the
    path, the result has the form of the design document. *)
Corollary toUrlFromPath_zh_blog_url :
  (exists u, newURL (lit "/blog/" ++ slug) (Some BASE_URL) = Some u /\
             toString u = BASE_URL ++ lit "/blog/" ++ slug) ->
  toUrlFromPath BASE_URL (lit "zh/blog/" ++ slug ++ lit "/index.md")
  = Ok (BASE_URL ++ lit "/blog/" ++ slug, lit "zh").
Proof.
  intros (u & Hnew & Hstr). rewrite toUrlFromPath_zh_blog.
  unfold constructURL. rewrite Hnew. cbn [bindR]. now rewrite Hstr.
Qed.

Corollary toUrlFromPath_en_blog_url :
  (exists u, newURL (lit "/en/blog/" ++ slug) (Some BASE_URL) = Some u /\
             toString u = BASE_URL ++ lit "/en/blog/" ++ slug) ->
  toUrlFromPath BASE_URL (lit "en/blog/" ++ slug ++ lit "/index.md")
  = Ok (BASE_URL ++ lit "/en/blog/" ++ slug, lit "en").
Proof.
  intros (u & Hnew & Hstr). rewrite toUrlFromPath_en_blog.
  unfold constructURL. rewrite Hnew. cbn [bindR]. now rewrite Hstr.
Qed.

End CleanSlugs.

End IngestProps.

(** ** The batch ingestion *)

Module FastIngestProps.
Import Ingest Retriever FastIngest.

Lemma digits_inj d1 d2 : digits d1 = digits d2 -> d1 = d2.
Proof.
  revert d2. induction d1; intros d2 E; destruct d2; cbn in E;
    try discriminate; try reflexivity;
    injection E as E; f_equal; now apply IHd1.
Qed.

Lemma decimal_inj n m : decimal n = decimal m -> n = m.
Proof.
  unfold decimal. intros E. apply digits_inj in E.
  rewrite <- (Unsigned.of_to n), <- (Unsigned.of_to m). now rewrite E.
Qed.

Lemma seq_sorted n : forall i, StronglySorted lt (seq i n).
Proof.
  induction n as [|n IH]; intros i; cbn; constructor; [apply IH|].
  apply Forall_forall. intros b Hb. apply elem_of_seq in Hb. lia.
Qed.

Section WithPlatform.
Context `{UrlApi} {Num : Type}.
Variables (zero : Num) (sha256hex : jsstring -> jsstring)
          (markdownToPlain : jsstring -> jsstring)
          (PROVIDER : jsstring) (EMBED_DIM : Z) (BASE_URL : jsstring)
          (getBatchEmbeddings : nat -> list jsstring -> Res (list (list Num))).

Lemma ensureDimensions_length (v : list Num) :
  (0 <= EMBED_DIM)%Z ->
  length (ensureDimensions zero EMBED_DIM v) = Z.to_nat EMBED_DIM.
Proof.
  intros Hdim. unfold ensureDimensions, slice0.
  destruct (EMBED_DIM <? Z.of_nat (length v))%Z eqn:E1.
  - apply Z.ltb_lt in E1. replace (EMBED_DIM <? 0)%Z with false by (symmetry; apply Z.ltb_ge; lia).
    rewrite length_take. lia.
  - apply Z.ltb_ge in E1. destruct (Z.of_nat (length v) <? EMBED_DIM)%Z eqn:E2.
    + apply Z.ltb_lt in E2. rewrite length_app, length_replicate. lia.
    + apply Z.ltb_ge in E2. lia.
Qed.

Lemma storedText_length text : length (storedText text) <= 503.
Proof.
  unfold storedText, substring0. destruct (500 <? length text) eqn:E.
  - rewrite length_app, length_take. change (length (lit "...")) with 3. lia.
  - apply Nat.ltb_ge in E. lia.
Qed.

Lemma storedText_prefix text : take 500 (storedText text) = take 500 text.
Proof.
  unfold storedText, substring0. destruct (500 <? length text) eqn:E; [|reflexivity].
  apply Nat.ltb_lt in E. rewrite take_app_le by (rewrite length_take; lia).
  rewrite take_take. reflexivity.
Qed.

Lemma storedTitle_length title : length (storedTitle title) <= 100.
Proof.
  unfold storedTitle, substring0. destruct (100 <? length title) eqn:E.
  - rewrite length_take. lia.
  - apply Nat.ltb_ge in E. lia.
Qed.

Lemma pushItems_itemsFrom baseUrl sourcePath title language chunkBatch :
  forall index vectors items,
    fst (pushItems zero sha256hex EMBED_DIM baseUrl sourcePath title language
           index chunkBatch vectors items)
    = items ++ itemsFrom zero sha256hex EMBED_DIM baseUrl sourcePath title language
                 index chunkBatch vectors.
Proof.
  induction chunkBatch as [|text chunkBatch IH]; intros index vectors items; cbn.
  - now rewrite app_nil_r.
  - destruct vectors as [|v vectors]; cbn; [now rewrite app_nil_r|].
    rewrite IH, <- app_assoc. reflexivity.
Qed.

Lemma EMBEDDING_BATCH_SIZE_pos : 1 <= EMBEDDING_BATCH_SIZE PROVIDER.
Proof. unfold EMBEDDING_BATCH_SIZE. destruct (str_eqb PROVIDER gemini); lia. Qed.

Section OneFile.
Variables (baseUrl sourcePath title language : jsstring) (chunks : list jsstring).

(** The items of one batch have the indices of its chunks, in order, and
    the vectors of the answer, in order. *)
Lemma itemsFrom_itemAt i vectors0 chunkBatch :
  getBatchEmbeddings i (take (EMBEDDING_BATCH_SIZE PROVIDER) (drop i chunks))
  = Ok vectors0 ->
  forall index vectors,
    i <= index ->
    (forall k text, chunkBatch !! k = Some text -> chunks !! (index + k) = Some text) ->
    (forall k v, vectors !! k = Some v -> vectors0 !! (index - i + k) = Some v) ->
    exists n,
      n <= length chunkBatch /\
      (length chunkBatch <= length vectors -> n = length chunkBatch) /\
      Forall2 (itemAt zero sha256hex PROVIDER EMBED_DIM getBatchEmbeddings
                 baseUrl sourcePath title language chunks)
              (seq index n)
              (itemsFrom zero sha256hex EMBED_DIM baseUrl sourcePath title language
                 index chunkBatch vectors).
Proof.
  intros Hanswer.
  induction chunkBatch as [|text chunkBatch IH]; intros index vectors Hi Hin Hvec.
  - exists 0. cbn. repeat split; [lia | constructor].
  - destruct vectors as [|v vectors].
    + exists 0. cbn. repeat split; [lia | lia | constructor].
    + destruct (IH (S index) vectors) as (n & Hn & Hfull & Hall); [lia | |  |].
      { intros k t Hk. replace (S index + k) with (index + S k) by lia.
        now apply Hin. }
      { intros k w Hk. replace (S index - i + k) with (index - i + S k) by lia.
        now apply Hvec. }
      exists (S n). cbn [length seq itemsFrom]. repeat split; [lia | lia |].
      constructor; [|exact Hall].
      exists text, v. split; [|split; [reflexivity|]].
      * replace index with (index + 0) by lia. now apply Hin.
      * exists i, vectors0. split; [exact Hi|]. split; [exact Hanswer|].
        replace (index - i) with (index - i + 0) by lia. now apply Hvec.
Qed.

(** What the loop keeps true of [items]: they are made from chunks of
    increasing indices below [bound]. *)
Lemma embedBatch_inv i items indices :
  Forall2 (itemAt zero sha256hex PROVIDER EMBED_DIM getBatchEmbeddings baseUrl sourcePath title language chunks)
          indices items ->
  StronglySorted lt indices -> Forall (fun idx => idx < i) indices ->
  exists indices',
    Forall2 (itemAt zero sha256hex PROVIDER EMBED_DIM getBatchEmbeddings baseUrl sourcePath title language chunks)
            indices'
            (embedBatch zero sha256hex EMBED_DIM getBatchEmbeddings
               baseUrl sourcePath title language i
               (take (EMBEDDING_BATCH_SIZE PROVIDER) (drop i chunks)) items) /\
    StronglySorted lt indices' /\
    Forall (fun idx => idx < i + EMBEDDING_BATCH_SIZE PROVIDER) indices' /\
    (forall vectors,
        getBatchEmbeddings i (take (EMBEDDING_BATCH_SIZE PROVIDER) (drop i chunks))
        = Ok vectors ->
        length (take (EMBEDDING_BATCH_SIZE PROVIDER) (drop i chunks)) <= length vectors ->
        indices' = indices
                   ++ seq i (length (take (EMBEDDING_BATCH_SIZE PROVIDER) (drop i chunks)))).
Proof.
  intros Hitems Hsorted Hbound. unfold embedBatch.
  set (chunkBatch := take (EMBEDDING_BATCH_SIZE PROVIDER) (drop i chunks)).
  assert (Hweak : Forall (fun idx => idx < i + EMBEDDING_BATCH_SIZE PROVIDER) indices).
  { eapply Forall_impl; [exact Hbound|]. cbn. lia. }
  destruct (getBatchEmbeddings i chunkBatch) as [vectors|e] eqn:Hanswer.
  2:{ exists indices. repeat split; try easy. }
  rewrite pushItems_itemsFrom.
  destruct (itemsFrom_itemAt i vectors chunkBatch Hanswer i vectors)
    as (n & Hn & Hfull & Hall); [lia | |  |].
  { intros k text Hk. unfold chunkBatch in Hk.
    apply lookup_take_Some in Hk as [Hk _]. now rewrite lookup_drop in Hk. }
  { intros k v Hk. now replace (i - i + k) with k by lia. }
  assert (Hlen : length chunkBatch <= EMBEDDING_BATCH_SIZE PROVIDER).
  { unfold chunkBatch. rewrite length_take. lia. }
  exists (indices ++ seq i n). split; [now apply Forall2_app|]. split; [|split].
  - apply StronglySorted_app_2; [|exact Hsorted | apply seq_sorted].
    intros a b Ha Hb. rewrite Forall_forall in Hbound.
    apply Hbound in Ha. apply elem_of_seq in Hb. lia.
  - apply Forall_app. split; [exact Hweak|]. apply Forall_forall.
    intros b Hb. apply elem_of_seq in Hb. lia.
  - intros vectors' E Hfull'. injection E as <-. now rewrite (Hfull Hfull').
Qed.

Lemma embedBatches_inv n :
  forall i items indices,
    length (drop i chunks) <= n ->
    Forall2 (itemAt zero sha256hex PROVIDER EMBED_DIM getBatchEmbeddings baseUrl sourcePath title language chunks)
            indices items ->
    StronglySorted lt indices -> Forall (fun idx => idx < i) indices ->
    exists indices',
      Forall2 (itemAt zero sha256hex PROVIDER EMBED_DIM getBatchEmbeddings baseUrl sourcePath title language chunks)
              indices'
              (embedBatches zero sha256hex PROVIDER EMBED_DIM getBatchEmbeddings
                 baseUrl sourcePath title language i (drop i chunks) items) /\
      StronglySorted lt indices' /\
      ((forall j chunkBatch,
           exists vectors, getBatchEmbeddings j chunkBatch = Ok vectors /\
                           length chunkBatch <= length vectors) ->
       indices' = indices ++ seq i (length (drop i chunks))).
Proof.
  induction n as [|n IH]; intros i items indices Hn Hitems Hsorted Hbound.
  - destruct (drop i chunks) as [|c rest] eqn:E; [|cbn in Hn; lia].
    simp embedBatches. exists indices. cbn. rewrite app_nil_r. easy.
  - destruct (drop i chunks) as [|c rest] eqn:E.
    { simp embedBatches. exists indices. cbn. rewrite app_nil_r. easy. }
    simp embedBatches. rewrite <- E.
    destruct (embedBatch_inv i items indices Hitems Hsorted Hbound)
      as (indices1 & Hitems1 & Hsorted1 & Hbound1 & Hfull1).
    pose proof EMBEDDING_BATCH_SIZE_pos as Hpos.
    rewrite drop_drop.
    destruct (IH (i + EMBEDDING_BATCH_SIZE PROVIDER)
                (embedBatch zero sha256hex EMBED_DIM getBatchEmbeddings
                   baseUrl sourcePath title language i
                   (take (EMBEDDING_BATCH_SIZE PROVIDER) (drop i chunks)) items)
                indices1) as
      (indices2 & Hitems2 & Hsorted2 & Hfull2); try easy.
    { rewrite <- drop_drop, length_drop, E. cbn in *. lia. }
    exists indices2. split; [exact Hitems2|]. split; [exact Hsorted2|].
    intros Hgood. rewrite (Hfull2 Hgood).
    destruct (Hgood i (take (EMBEDDING_BATCH_SIZE PROVIDER) (drop i chunks)))
      as (vectors & Hv & Hlen).
    rewrite (Hfull1 vectors Hv Hlen), <- app_assoc. f_equal.
    rewrite length_take, <- drop_drop, !length_drop.
    set (b := EMBEDDING_BATCH_SIZE PROVIDER) in *.
    set (m := length chunks - i).
    destruct (Nat.le_ge_cases b m) as [Hle|Hge].
    + rewrite Nat.min_l by exact Hle.
      rewrite <- seq_app. f_equal. lia.
    + rewrite Nat.min_r by exact Hge. replace (m - b) with 0 by lia.
      cbn. now rewrite app_nil_r.
Qed.

End OneFile.

(** What [processFile] returns: nothing, or items made from chunks of
    increasing indices, one for each chunk when the provider answers. *)
Lemma processFile_inv relPath fm items :
  processFile zero sha256hex markdownToPlain PROVIDER EMBED_DIM BASE_URL
    getBatchEmbeddings relPath fm = Ok items ->
  (items = [] /\ (draft fm = true \/ chunksOf markdownToPlain fm = [])) \/
  (draft fm = false /\
   exists baseUrl language indices,
     toUrlFromPath BASE_URL relPath = Ok (baseUrl, language) /\
     Forall2 (itemAt zero sha256hex PROVIDER EMBED_DIM getBatchEmbeddings baseUrl relPath (titleOf fm) language
                (chunksOf markdownToPlain fm))
             indices items /\
     StronglySorted lt indices /\
     (providerAnswers getBatchEmbeddings ->
      indices = seq 0 (length (chunksOf markdownToPlain fm)))).
Proof.
  unfold processFile. fold (chunksOf markdownToPlain fm). fold (titleOf fm).
  destruct (draft fm); [intros E; injection E as <-; left; auto|].
  destruct (length (chunksOf markdownToPlain fm) =? 0) eqn:Elen.
  { intros E. injection E as <-. left. split; [easy|]. right.
    apply Nat.eqb_eq in Elen. now apply length_zero_iff_nil. }
  destruct (toUrlFromPath BASE_URL relPath) as [[baseUrl language]|e]; cbn [bindR];
    [|discriminate].
  intros E. injection E as <-. right. split; [reflexivity|].
  exists baseUrl, language.
  destruct (embedBatches_inv baseUrl relPath (titleOf fm) language
              (chunksOf markdownToPlain fm)
              (length (chunksOf markdownToPlain fm)) 0 [] [])
    as (indices & Hitems & Hsorted & Hfull).
  - rewrite length_drop. lia.
  - constructor.
  - constructor.
  - constructor.
  - exists indices. cbn [drop] in *. repeat split; try easy.
Qed.

Lemma sorted_NoDup (l : list nat) : StronglySorted lt l -> List.NoDup l.
Proof.
  induction 1 as [|a l Hs IH Ha]; constructor; [|exact IH].
  intros Hin. rewrite Forall_forall in Ha.
  apply list_elem_of_In, Ha in Hin. lia.
Qed.

Lemma generateShortId_inj baseUrl sourcePath i j :
  generateShortId sha256hex baseUrl sourcePath i
  = generateShortId sha256hex baseUrl sourcePath j -> i = j.
Proof.
  unfold generateShortId. intros E.
  apply app_inv_head, app_inv_head in E. now apply decimal_inj.
Qed.

Lemma itemAt_ids baseUrl sourcePath title language chunks indices items :
  Forall2 (itemAt zero sha256hex PROVIDER EMBED_DIM getBatchEmbeddings baseUrl sourcePath title language chunks)
          indices items ->
  List.map item_id items
  = List.map (generateShortId sha256hex baseUrl sourcePath) indices.
Proof.
  induction 1 as [|idx it indices items (text & vector & _ & -> & _) _ IH]; cbn;
    [reflexivity|]. now rewrite IH.
Qed.

Lemma itemAt_texts baseUrl sourcePath title language chunks n :
  forall i items,
    Forall2 (itemAt zero sha256hex PROVIDER EMBED_DIM getBatchEmbeddings baseUrl sourcePath title language chunks)
            (seq i n) items ->
    i + n = length chunks ->
    List.map item_text items = List.map storedText (drop i chunks).
Proof.
  induction n as [|n IH]; intros i items Hall Hlen; cbn [seq] in Hall.
  - apply Forall2_nil_inv_l in Hall as ->. rewrite drop_ge by lia. reflexivity.
  - apply Forall2_cons_inv_l in Hall as (it & items' & (text & v & Ht & -> & _) & Hall & ->).
    rewrite (drop_S _ _ _ Ht). cbn. f_equal. apply IH; [exact Hall | lia].
Qed.

(** X1. Every vector that [processFile] hands on has exactly [EMBED_DIM]
    numbers, whatever length the provider answered with. *)
Theorem processFile_vectors_have_dimension relPath fm items :
  (0 <= EMBED_DIM)%Z ->
  processFile zero sha256hex markdownToPlain PROVIDER EMBED_DIM BASE_URL
    getBatchEmbeddings relPath fm = Ok items ->
  Forall (fun it => length (item_vector it) = Z.to_nat EMBED_DIM) items.
Proof.
  intros Hdim Hrun.
  apply processFile_inv in Hrun as [[-> _]|(_ & baseUrl & language & indices & _ & Hall & _)];
    [constructor|].
  induction Hall as [|idx it indices items (text & vector & _ & -> & _) _ IH];
    constructor; [|exact IH].
  cbn. now apply ensureDimensions_length.
Qed.

(** X2. Every item of a file is made from one of the file's chunks: its text
    is the chunk when the chunk has at most 500 code units, and otherwise the
    chunk's first 500 code units followed by three dots; its title has at most
    100 code units and its source is the file's path. *)
Theorem processFile_items_from_chunks relPath fm items :
  processFile zero sha256hex markdownToPlain PROVIDER EMBED_DIM BASE_URL
    getBatchEmbeddings relPath fm = Ok items ->
  Forall (fun it =>
            (exists chunk,
                In chunk (Chunk.chunkText (markdownToPlain (content fm)) 800) /\
                (length chunk <= 500 -> item_text it = chunk) /\
                (500 < length chunk -> item_text it = take 500 chunk ++ lit "...")) /\
            length (item_text it) <= 503 /\
            length (item_title it) <= 100 /\
            item_source it = relPath)
         items.
Proof.
  intros Hrun.
  apply processFile_inv in Hrun as [[-> _]|(_ & baseUrl & language & indices & _ & Hall & _)];
    [constructor|].
  induction Hall as [|idx it indices items (text & vector & Ht & -> & _) _ IH];
    constructor; [|exact IH].
  cbn [item_text item_title item_source makeItem]. split; [|split; [|split]].
  - exists text. split; [|split].
    + apply list_elem_of_In. eapply list_elem_of_lookup_2. exact Ht.
    + intros Hle. unfold storedText.
      now replace (500 <? length text) with false by (symmetry; apply Nat.ltb_ge; lia).
    + intros Hlt. unfold storedText, substring0.
      now replace (500 <? length text) with true by (symmetry; apply Nat.ltb_lt; lia).
  - apply storedText_length.
  - apply storedTitle_length.
  - reflexivity.
Qed.

(** X3. Every item of a file carries the vector that the provider gave
    for the item's own chunk: the item numbered [index] has the text of the
    chunk of that index and, brought to [EMBED_DIM] numbers, the vector at
    the chunk's place in the answer to the chunk's batch. *)
Theorem processFile_pairs_chunks_with_their_vectors relPath fm items baseUrl language :
  processFile zero sha256hex markdownToPlain PROVIDER EMBED_DIM BASE_URL
    getBatchEmbeddings relPath fm = Ok items ->
  toUrlFromPath BASE_URL relPath = Ok (baseUrl, language) ->
  Forall (fun it =>
            exists index chunk vector i vectors,
              Chunk.chunkText (markdownToPlain (content fm)) 800 !! index = Some chunk /\
              item_id it = generateShortId sha256hex baseUrl relPath index /\
              item_text it = storedText chunk /\
              item_vector it = ensureDimensions zero EMBED_DIM vector /\
              i <= index /\
              getBatchEmbeddings i
                (take (EMBEDDING_BATCH_SIZE PROVIDER)
                   (drop i (Chunk.chunkText (markdownToPlain (content fm)) 800)))
              = Ok vectors /\
              vectors !! (index - i) = Some vector)
         items.
Proof.
  intros Hrun Hurl.
  apply processFile_inv in Hrun
    as [[-> _]|(_ & baseUrl' & language' & indices & Hurl' & Hall & _)];
    [constructor|].
  rewrite Hurl in Hurl'. injection Hurl' as <- <-. unfold chunksOf in Hall.
  induction Hall
    as [|idx it indices items (text & vector & Ht & -> & i & vectors & Hi & Hv & Hk) _ IH];
    constructor; [|exact IH].
  exists idx, text, vector, i, vectors. cbn. easy.
Qed.

(** X4. The identifiers of the items of one file are pairwise distinct. *)
Theorem processFile_ids_distinct relPath fm items :
  processFile zero sha256hex markdownToPlain PROVIDER EMBED_DIM BASE_URL
    getBatchEmbeddings relPath fm = Ok items ->
  List.NoDup (List.map item_id items).
Proof.
  intros Hrun.
  apply processFile_inv in Hrun
    as [[-> _]|(_ & baseUrl & language & indices & _ & Hall & Hsorted & _)];
    [constructor|].
  rewrite (itemAt_ids _ _ _ _ _ _ _ Hall).
  apply IngestProps.NoDup_map_on; [|now apply sorted_NoDup].
  intros i j _ _. apply generateShortId_inj.
Qed.

(** X5. When the provider answers every batch with a vector for each text,
    a file that is not a draft and whose URL can be built gives one item for
    each chunk, in the order of the chunks, numbered from 0. *)
Theorem processFile_one_item_per_chunk relPath fm baseUrl language :
  (forall j chunkBatch,
      exists vectors, getBatchEmbeddings j chunkBatch = Ok vectors /\
                      length chunkBatch <= length vectors) ->
  draft fm = false ->
  toUrlFromPath BASE_URL relPath = Ok (baseUrl, language) ->
  exists items,
    processFile zero sha256hex markdownToPlain PROVIDER EMBED_DIM BASE_URL
      getBatchEmbeddings relPath fm = Ok items /\
    List.map item_text items
    = List.map storedText (Chunk.chunkText (markdownToPlain (content fm)) 800) /\
    List.map item_id items
    = List.map (generateShortId sha256hex baseUrl relPath)
        (seq 0 (length (Chunk.chunkText (markdownToPlain (content fm)) 800))) /\
    Forall (fun it => item_url it = baseUrl /\ item_language it = language) items.
Proof.
  intros Hgood Hdraft Hurl.
  destruct (processFile zero sha256hex markdownToPlain PROVIDER EMBED_DIM BASE_URL
              getBatchEmbeddings relPath fm) as [items|e] eqn:Hrun.
  2:{ unfold processFile in Hrun. rewrite Hdraft, Hurl in Hrun. cbn [bindR] in Hrun.
      destruct (length _ =? 0); discriminate. }
  exists items. split; [reflexivity|].
  apply processFile_inv in Hrun
    as [[-> [Hd|Hnil]]|(_ & baseUrl' & language' & indices & Hurl' & Hall & _ & Hfull)].
  - congruence.
  - unfold chunksOf in Hnil. rewrite Hnil. cbn. repeat split; constructor.
  - rewrite Hurl in Hurl'. injection Hurl' as <- <-.
    specialize (Hfull Hgood). subst indices. unfold chunksOf in *.
    split; [|split].
    + now rewrite (itemAt_texts _ _ _ _ _ _ 0 items Hall).
    + now apply itemAt_ids in Hall.
    + clear -Hall. induction Hall as [|idx it indices items (text & vector & _ & -> & _) _ IH];
        constructor; [now cbn | exact IH].
Qed.

(** The loop over the batches leaves [items] as it is when the provider
    fails at every batch. *)
Lemma embedBatches_all_fail baseUrl sourcePath title language n :
  (forall j chunkBatch, exists e, getBatchEmbeddings j chunkBatch = Throw e) ->
  forall i rest items,
    length rest <= n ->
    embedBatches zero sha256hex PROVIDER EMBED_DIM getBatchEmbeddings
      baseUrl sourcePath title language i rest items = items.
Proof.
  intros Hfail. induction n as [|n IH]; intros i rest items Hn.
  - destruct rest; [now simp embedBatches | cbn in Hn; lia].
  - destruct rest as [|c rest]; [now simp embedBatches|].
    simp embedBatches. rewrite IH.
    + unfold embedBatch. destruct (Hfail i (take (EMBEDDING_BATCH_SIZE PROVIDER) (c :: rest)))
        as (e & ->). reflexivity.
    + pose proof EMBEDDING_BATCH_SIZE_pos. rewrite length_drop. cbn in *. lia.
Qed.

(** Once the file has been read: the only error that is let through is that
    of building the URL, and when the provider fails at every batch the file
    gives no item at all. *)
Lemma processFile_read_errors relPath fm :
  (forall e,
      processFile zero sha256hex markdownToPlain PROVIDER EMBED_DIM BASE_URL
        getBatchEmbeddings relPath fm = Throw e ->
      toUrlFromPath BASE_URL relPath = Throw e) /\
  ((forall j chunkBatch, exists e, getBatchEmbeddings j chunkBatch = Throw e) ->
   forall items,
     processFile zero sha256hex markdownToPlain PROVIDER EMBED_DIM BASE_URL
       getBatchEmbeddings relPath fm = Ok items ->
     items = []).
Proof.
  unfold processFile. split.
  - intros e. destruct (draft fm); [discriminate|].
    destruct (length _ =? 0); [discriminate|].
    destruct (toUrlFromPath BASE_URL relPath) as [[baseUrl language]|e']; cbn [bindR];
      [discriminate|]. congruence.
  - intros Hfail items. destruct (draft fm); [congruence|].
    destruct (length _ =? 0); [congruence|].
    destruct (toUrlFromPath BASE_URL relPath) as [[baseUrl language]|e']; cbn [bindR];
      [|discriminate].
    rewrite (embedBatches_all_fail _ _ _ _ _ Hfail _ _ _ (Nat.le_refl _)). congruence.
Qed.

End WithPlatform.

Import FastSamples.

Lemma sampleItems_run :
  processFile (H := plainUrlApi) 0%Z sampleDigest (fun s => s) gemini 4%Z
    defaultBaseUrl shortProvider samplePath samplePost = Ok sampleItemList.
Proof. vm_compute. reflexivity. Qed.

Lemma processFile_vectors_have_dimension_witness :
  length sampleItemList = 2 /\
  Forall (fun it => length (item_vector it) = Z.to_nat 4) sampleItemList.
Proof.
  split; [reflexivity|].
  apply (processFile_vectors_have_dimension (H := plainUrlApi) 0%Z sampleDigest
           (fun s => s) gemini 4%Z defaultBaseUrl shortProvider samplePath samplePost).
  - lia.
  - vm_compute. reflexivity.
Defined.

Lemma processFile_items_from_chunks_witness :
  Forall (fun it =>
            (exists chunk,
                In chunk (Chunk.chunkText (content samplePost) 800) /\
                (length chunk <= 500 -> item_text it = chunk) /\
                (500 < length chunk -> item_text it = take 500 chunk ++ lit "...")) /\
            length (item_text it) <= 503 /\
            length (item_title it) <= 100 /\
            item_source it = samplePath)
         sampleItemList.
Proof.
  apply (processFile_items_from_chunks (H := plainUrlApi) 0%Z sampleDigest
           (fun s => s) gemini 4%Z defaultBaseUrl shortProvider samplePath samplePost).
  vm_compute. reflexivity.
Defined.

Lemma processFile_pairs_chunks_with_their_vectors_witness :
  Forall (fun it =>
            exists index chunk vector i vectors,
              Chunk.chunkText (content samplePost) 800 !! index = Some chunk /\
              item_id it
              = generateShortId sampleDigest (lit "https://your-site.com/en/blog/guide")
                  samplePath index /\
              item_text it = storedText chunk /\
              item_vector it = ensureDimensions 0%Z 4%Z vector /\
              i <= index /\
              shortProvider i
                (take (EMBEDDING_BATCH_SIZE gemini)
                   (drop i (Chunk.chunkText (content samplePost) 800)))
              = Ok vectors /\
              vectors !! (index - i) = Some vector)
         sampleItemList.
Proof.
  apply (processFile_pairs_chunks_with_their_vectors (H := plainUrlApi) 0%Z sampleDigest
           (fun s => s) gemini 4%Z defaultBaseUrl shortProvider samplePath samplePost
           sampleItemList (lit "https://your-site.com/en/blog/guide") Retriever.en).
  - vm_compute. reflexivity.
  - vm_compute. reflexivity.
Defined.

Lemma processFile_ids_distinct_witness :
  List.NoDup (List.map item_id sampleItemList).
Proof.
  apply (processFile_ids_distinct (H := plainUrlApi) 0%Z sampleDigest
           (fun s => s) gemini 4%Z defaultBaseUrl shortProvider samplePath samplePost).
  vm_compute. reflexivity.
Defined.

Lemma processFile_one_item_per_chunk_witness :
  exists items,
    processFile (H := plainUrlApi) 0%Z sampleDigest (fun s => s) gemini 4%Z
      defaultBaseUrl shortProvider samplePath samplePost = Ok items /\
    List.map item_text items
    = List.map storedText (Chunk.chunkText (content samplePost) 800) /\
    List.map item_id items
    = List.map (generateShortId sampleDigest
                  (lit "https://your-site.com/en/blog/guide") samplePath)
        (seq 0 (length (Chunk.chunkText (content samplePost) 800))) /\
    Forall (fun it => item_url it = lit "https://your-site.com/en/blog/guide" /\
                      item_language it = Retriever.en) items.
Proof.
  apply (processFile_one_item_per_chunk (H := plainUrlApi) 0%Z sampleDigest
           (fun s => s) gemini 4%Z defaultBaseUrl shortProvider samplePath samplePost).
  - intros j chunkBatch. exists (List.map (fun _ => [1%Z; 2%Z]) chunkBatch).
    split; [reflexivity|]. rewrite length_map. lia.
  - reflexivity.
  - vm_compute. reflexivity.
Defined.

End FastIngestProps.

(** ** The run of the batch ingestion *)

Module FastIngestMainProps.
Import Ingest Retriever FastIngest FastIngestMain.

Section WithPlatform.
Context `{UrlApi} {Num : Type}.
Variables (zero : Num) (sha256hex : jsstring -> jsstring)
          (markdownToPlain : jsstring -> jsstring)
          (PROVIDER : jsstring) (EMBED_DIM : Z) (BASE_URL : jsstring)
          (readFile : jsstring -> Res FrontMatter)
          (getBatchEmbeddings : jsstring -> nat -> list jsstring -> Res (list (list Num)))
          (uploadBatch : nat -> list (Item (Num := Num)) -> Res unit).

Lemma uploaded_app (log1 log2 : Uploads (Num := Num)) :
  uploaded (log1 ++ log2) = uploaded log1 ++ uploaded log2.
Proof.
  unfold uploaded. now rewrite List.filter_app, List.map_app, concat_app.
Qed.

Lemma uploaded_success (batch : list (Item (Num := Num))) :
  uploaded [(batch, true)] = batch.
Proof. unfold uploaded. cbn. now rewrite app_nil_r. Qed.

Lemma uploaded_failure (batch : list (Item (Num := Num))) :
  uploaded [(batch, false)] = [].
Proof. reflexivity. Qed.

(** What the loop of the uploads does to the items, to the count and to the
    log. *)
Lemma drain_inv n :
  forall items total log,
    length items <= n ->
    exists new,
      snd (drain uploadBatch items total log) = log ++ new /\
      Forall (fun a => length (fst a) = UPLOAD_BATCH_SIZE) new /\
      uploaded new ++ fst (fst (drain uploadBatch items total log)) = items /\
      snd (fst (drain uploadBatch items total log)) = total + length (uploaded new) /\
      (uploadsSucceed uploadBatch ->
       Forall (fun a => snd a = true) new /\
       length (fst (fst (drain uploadBatch items total log))) < UPLOAD_BATCH_SIZE).
Proof.
  induction n as [|n IH]; intros items total log Hn.
  - destruct items; [|cbn in Hn; lia]. simp drain. exists []. cbn.
    rewrite app_nil_r. repeat split; try constructor; cbn; lia.
  - destruct items as [|it rest].
    { simp drain. exists []. cbn. rewrite app_nil_r.
      repeat split; try constructor; cbn; lia. }
    rewrite drain_equation_2.
    destruct (UPLOAD_BATCH_SIZE <=? length (it :: rest)) eqn:Hfull.
    2:{ apply Nat.leb_gt in Hfull. exists []. cbn [fst snd uploaded List.filter List.map concat].
        rewrite app_nil_r. cbn [app]. split; [reflexivity|]. split; [constructor|].
        split; [reflexivity|]. split; [cbn; lia|]. intros _. split; [constructor|].
        exact Hfull. }
    apply Nat.leb_le in Hfull. cbv zeta.
    set (batch := take UPLOAD_BATCH_SIZE (it :: rest)).
    set (remaining := drop UPLOAD_BATCH_SIZE (it :: rest)).
    assert (Hbatch : length batch = UPLOAD_BATCH_SIZE).
    { unfold batch. rewrite length_take. lia. }
    destruct (uploadBatch (length log) batch) as [u|e] eqn:Hup.
    + destruct (IH remaining (total + length batch) (log ++ [(batch, true)]))
        as (new & Hlog & Hsize & Hitems & Htotal & Hgood).
      { unfold remaining. rewrite length_drop. unfold UPLOAD_BATCH_SIZE in *.
        cbn [length] in *. lia. }
      exists ((batch, true) :: new). split; [|split; [|split; [|split]]].
      * rewrite Hlog, <- app_assoc. reflexivity.
      * constructor; [exact Hbatch | exact Hsize].
      * change ((batch, true) :: new) with ([(batch, true)] ++ new).
        rewrite uploaded_app, uploaded_success, <- app_assoc, Hitems.
        apply take_drop.
      * rewrite Htotal. change ((batch, true) :: new) with ([(batch, true)] ++ new).
        rewrite uploaded_app, uploaded_success, length_app. lia.
      * intros Hall. destruct (Hgood Hall) as [Hnew Hshort].
        split; [constructor; [reflexivity | exact Hnew] | exact Hshort].
    + exists [(batch, false)]. cbn [fst snd]. split; [|split; [|split; [|split]]].
      * reflexivity.
      * constructor; [exact Hbatch | constructor].
      * rewrite uploaded_failure. cbn [app]. apply take_drop.
      * rewrite uploaded_failure. cbn. lia.
      * intros Hall. rewrite Hall in Hup. discriminate.
Qed.

Lemma MAX_CONCURRENT_FILES_pos : 1 <= MAX_CONCURRENT_FILES PROVIDER.
Proof. unfold MAX_CONCURRENT_FILES. destruct (str_eqb PROVIDER gemini); lia. Qed.

Lemma processBatches_inv n :
  forall rest done st,
    length rest <= n ->
    consistent zero sha256hex markdownToPlain PROVIDER EMBED_DIM BASE_URL readFile getBatchEmbeddings done st ->
    consistent zero sha256hex markdownToPlain PROVIDER EMBED_DIM BASE_URL readFile getBatchEmbeddings (done ++ rest)
      (processBatches zero sha256hex markdownToPlain PROVIDER EMBED_DIM BASE_URL
         readFile getBatchEmbeddings uploadBatch rest st) /\
    (uploadsSucceed uploadBatch ->
     length (allItems st) < UPLOAD_BATCH_SIZE ->
     Forall (fun a => snd a = true /\ length (fst a) = UPLOAD_BATCH_SIZE) (uploads st) ->
     length (allItems (processBatches zero sha256hex markdownToPlain PROVIDER EMBED_DIM
                         BASE_URL readFile getBatchEmbeddings uploadBatch rest st))
     < UPLOAD_BATCH_SIZE /\
     Forall (fun a => snd a = true /\ length (fst a) = UPLOAD_BATCH_SIZE)
            (uploads (processBatches zero sha256hex markdownToPlain PROVIDER EMBED_DIM
                        BASE_URL readFile getBatchEmbeddings uploadBatch rest st))).
Proof.
  induction n as [|n IH]; intros rest done st Hn Hst.
  - destruct rest; [|cbn in Hn; lia]. simp processBatches. rewrite app_nil_r. easy.
  - destruct rest as [|file rest]; [simp processBatches; rewrite app_nil_r; easy|].
    rewrite processBatches_equation_2. cbv zeta.
    set (size := MAX_CONCURRENT_FILES PROVIDER).
    set (batch := take size (file :: rest)).
    set (results := List.map _ batch).
    destruct (drain_inv (length (allItems st ++ concat results))
                (allItems st ++ concat results) (totalItems st) (uploads st)
                (Nat.le_refl _))
      as (new & Hlog & Hsize & Hitems & Htotal & Hgood).
    destruct (drain uploadBatch (allItems st ++ concat results) (totalItems st)
                (uploads st)) as [[items total] log].
    cbn [fst snd] in *.
    pose proof MAX_CONCURRENT_FILES_pos as Hpos. fold size in Hpos.
    set (next := {| allItems := items; totalItems := total;
                    processedFiles := processedFiles st + length results;
                    uploads := log |}).
    assert (Hnext : consistent zero sha256hex markdownToPlain PROVIDER EMBED_DIM BASE_URL readFile getBatchEmbeddings (done ++ batch) next).
    { destruct Hst as (Hall & Hcount & Hfiles). unfold consistent, next.
      cbn [allItems totalItems processedFiles uploads]. split; [|split].
      - rewrite Hlog, uploaded_app, <- app_assoc, Hitems, app_assoc, Hall.
        now rewrite List.map_app, concat_app.
      - rewrite Htotal, Hlog, uploaded_app, length_app. lia.
      - unfold results. rewrite length_map, length_app. lia. }
    destruct (IH (drop size (file :: rest)) (done ++ batch) next) as [Hend Hsucc];
      [rewrite length_drop; cbn [length] in *; lia | exact Hnext |].
    unfold batch in Hend. rewrite <- app_assoc, take_drop in Hend.
    split; [exact Hend|].
    intros Hall Hshort Hold. apply Hsucc; [exact Hall | |].
    + unfold next. cbn [allItems]. now apply Hgood.
    + unfold next. cbn [uploads]. rewrite Hlog. apply Forall_app. split; [exact Hold|].
      destruct (Hgood Hall) as [Hnew _]. clear -Hnew Hsize.
      induction new as [|a new IHn]; [constructor|].
      inversion Hnew; inversion Hsize; subst. constructor; [easy | now apply IHn].
Qed.

Lemma initial_consistent :
  consistent zero sha256hex markdownToPlain PROVIDER EMBED_DIM BASE_URL readFile
    getBatchEmbeddings [] initial.
Proof. now unfold consistent, initial. Qed.

(** X7. The uploads that succeeded carry, in order and without a gap or a
    repetition, the items of the selected files: either all of them, or all
    but those of the last upload, which failed. [totalItems] counts the
    items uploaded and [processedFiles] the selected files. *)
Theorem main_uploads_items_in_order (allFiles : list jsstring) :
  let st := main zero sha256hex markdownToPlain PROVIDER EMBED_DIM BASE_URL
              readFile getBatchEmbeddings uploadBatch allFiles in
  let all := concat (List.map (processed zero sha256hex markdownToPlain PROVIDER
                                 EMBED_DIM BASE_URL readFile getBatchEmbeddings)
                       (filesToProcess allFiles)) in
  (uploaded (uploads st) = all \/
   exists log remainder,
     uploads st = log ++ [(remainder, false)] /\
     uploaded (uploads st) ++ remainder = all) /\
  totalItems st = length (uploaded (uploads st)) /\
  processedFiles st = length (filesToProcess allFiles).
Proof.
  cbv zeta. unfold main.
  destruct (processBatches_inv (length (filesToProcess allFiles))
              (filesToProcess allFiles) [] initial (Nat.le_refl _) initial_consistent)
    as [(Hall & Hcount & Hfiles) _].
  cbn [app] in *.
  set (st := processBatches _ _ _ _ _ _ _ _ _ _ _) in *.
  unfold uploadRemaining. destruct (0 <? length (allItems st)) eqn:Hleft.
  - destruct (uploadBatch (length (uploads st)) (allItems st)) as [u|e];
      cbn [uploads totalItems processedFiles].
    + rewrite uploaded_app, uploaded_success, length_app. split; [now left|].
      split; [lia | exact Hfiles].
    + rewrite uploaded_app, uploaded_failure, app_nil_r. split; [|easy].
      right. exists (uploads st), (allItems st). easy.
  - apply Nat.ltb_ge in Hleft. split; [|easy]. left.
    destruct (allItems st); [|cbn in Hleft; lia]. now rewrite app_nil_r in Hall.
Qed.

(** X8. When every upload succeeds, every item of the selected files is
    uploaded, in order; no upload is empty and none has more than
    [UPLOAD_BATCH_SIZE] items. *)
Theorem main_uploads_everything (allFiles : list jsstring) :
  (forall k batch, uploadBatch k batch = Ok tt) ->
  let st := main zero sha256hex markdownToPlain PROVIDER EMBED_DIM BASE_URL
              readFile getBatchEmbeddings uploadBatch allFiles in
  concat (List.map fst (uploads st))
  = concat (List.map (processed zero sha256hex markdownToPlain PROVIDER
                        EMBED_DIM BASE_URL readFile getBatchEmbeddings)
              (filesToProcess allFiles)) /\
  Forall (fun a => snd a = true /\ 1 <= length (fst a) <= UPLOAD_BATCH_SIZE)
         (uploads st).
Proof.
  intros Hgood. cbv zeta. unfold main.
  destruct (processBatches_inv (length (filesToProcess allFiles))
              (filesToProcess allFiles) [] initial (Nat.le_refl _) initial_consistent)
    as [(Hall & _ & _) Hsucc].
  destruct Hsucc as [Hshort Hlog]; [exact Hgood | unfold UPLOAD_BATCH_SIZE; cbn; lia | constructor |].
  cbn [app] in *.
  set (st := processBatches _ _ _ _ _ _ _ _ _ _ _) in *.
  assert (Hup : uploaded (uploads st) = concat (List.map fst (uploads st))).
  { unfold uploaded. f_equal. f_equal. clear -Hlog.
    induction (uploads st) as [|[b ok] log IH]; [reflexivity|].
    inversion Hlog as [|? ? [Hok _] Hrest]; subst. cbn in Hok. subst ok. cbn.
    f_equal. now apply IH. }
  unfold uploadRemaining. destruct (0 <? length (allItems st)) eqn:Hleft.
  - rewrite Hgood. cbn [uploads]. split.
    + rewrite List.map_app, concat_app. cbn. now rewrite app_nil_r, <- Hup.
    + apply Forall_app. split.
      * eapply Forall_impl; [exact Hlog|]. cbn. intros a [? ?]. split; [easy|].
        unfold UPLOAD_BATCH_SIZE in *. lia.
      * constructor; [|constructor]. cbn [fst snd]. apply Nat.ltb_lt in Hleft.
        split; [reflexivity | lia].
  - apply Nat.ltb_ge in Hleft. split.
    + destruct (allItems st); [|cbn in Hleft; lia].
      now rewrite app_nil_r, Hup in Hall.
    + eapply Forall_impl; [exact Hlog|]. cbn. intros a [? ?]. split; [easy|].
      unfold UPLOAD_BATCH_SIZE in *. lia.
Qed.

(** X6. A failing provider never makes [processFile] fail. What
    [processFile] throws is what reading the file or parsing its front
    matter threw, or what building the URL threw; when the file is read and
    its URL is built, [processFile] returns whatever the provider does; and
    when the provider fails at every batch the file gives no item at all. *)
Theorem processFile_swallows_provider_errors file :
  (forall e,
      processFileAt zero sha256hex markdownToPlain PROVIDER EMBED_DIM BASE_URL
        readFile getBatchEmbeddings file = Throw e ->
      readFile file = Throw e \/
      exists fm, readFile file = Ok fm /\ toUrlFromPath BASE_URL file = Throw e) /\
  (forall fm url,
      readFile file = Ok fm -> toUrlFromPath BASE_URL file = Ok url ->
      exists items,
        processFileAt zero sha256hex markdownToPlain PROVIDER EMBED_DIM BASE_URL
          readFile getBatchEmbeddings file = Ok items) /\
  ((forall j chunkBatch, exists e, getBatchEmbeddings file j chunkBatch = Throw e) ->
   forall items,
     processFileAt zero sha256hex markdownToPlain PROVIDER EMBED_DIM BASE_URL
       readFile getBatchEmbeddings file = Ok items ->
     items = []).
Proof.
  unfold processFileAt. split; [|split].
  - intros e. destruct (readFile file) as [fm|e'] eqn:Hread; cbn [bindR].
    + intros Hthrow. right. exists fm. split; [reflexivity|].
      now apply (proj1 (FastIngestProps.processFile_read_errors zero sha256hex
                          markdownToPlain PROVIDER EMBED_DIM BASE_URL
                          (getBatchEmbeddings file) file fm)).
    + intros E. injection E as <-. now left.
  - intros fm url Hread Hurl. rewrite Hread. cbn [bindR].
    destruct (processFile zero sha256hex markdownToPlain PROVIDER EMBED_DIM BASE_URL
                (getBatchEmbeddings file) file fm) as [items|e] eqn:Hrun; [eauto|].
    apply (proj1 (FastIngestProps.processFile_read_errors zero sha256hex
                    markdownToPlain PROVIDER EMBED_DIM BASE_URL
                    (getBatchEmbeddings file) file fm)) in Hrun.
    congruence.
  - intros Hfail items. destruct (readFile file) as [fm|e'] eqn:Hread; cbn [bindR];
      [|discriminate].
    now apply (proj2 (FastIngestProps.processFile_read_errors zero sha256hex
                        markdownToPlain PROVIDER EMBED_DIM BASE_URL
                        (getBatchEmbeddings file) file fm)).
Qed.

End WithPlatform.

Import FastSamples.

Lemma main_uploads_everything_witness :
  let st := main (H := plainUrlApi) 0%Z sampleDigest (fun s => s) gemini 4%Z
              defaultBaseUrl (fun _ => Ok samplePost) (fun _ => shortProvider)
              (fun _ _ => Ok tt) [samplePath] in
  concat (List.map fst (uploads st))
  = concat (List.map (processed (H := plainUrlApi) 0%Z sampleDigest (fun s => s)
                        gemini 4%Z defaultBaseUrl (fun _ => Ok samplePost)
                        (fun _ => shortProvider))
              (filesToProcess [samplePath])) /\
  Forall (fun a => snd a = true /\ 1 <= length (fst a) <= UPLOAD_BATCH_SIZE)
         (uploads st).
Proof.
  apply (main_uploads_everything (H := plainUrlApi) 0%Z sampleDigest (fun s => s)
           gemini 4%Z defaultBaseUrl (fun _ => Ok samplePost) (fun _ => shortProvider)
           (fun _ _ => Ok tt) [samplePath]).
  intros k batch. reflexivity.
Defined.

End FastIngestMainProps.

(** ** The worker's route for upserts *)

Module WorkerProps.
Import Retriever Prompt Worker.

Lemma mapR_Ok {A B} (f : A -> Res B) (xs : list A) :
  forall ys, mapR f xs = Ok ys -> Forall2 (fun x y => f x = Ok y) xs ys.
Proof.
  induction xs as [|x xs IH]; intros ys E; cbn in E.
  - injection E as <-. constructor.
  - destruct (f x) as [y|e] eqn:Ex; cbn in E; [|discriminate].
    destruct (mapR f xs) as [ys'|e]; cbn in E; [|discriminate].
    injection E as <-. constructor; [exact Ex | now apply IH].
Qed.

Lemma mapR_all {A B} (f : A -> Res B) (xs : list A) :
  forall ys, Forall2 (fun x y => f x = Ok y) xs ys -> mapR f xs = Ok ys.
Proof.
  induction 1 as [|x y xs ys Ex _ IH]; cbn; [reflexivity|].
  now rewrite Ex, IH.
Qed.

Lemma mapR_Throw {A B} (f : A -> Res B) (xs : list A) (x : A) (e : Error) :
  In x xs -> f x = Throw e -> exists e', mapR f xs = Throw e'.
Proof.
  intros Hin Ex. induction xs as [|a xs IH]; [destruct Hin|]. cbn.
  destruct (f a) as [y|e'] eqn:Ea; cbn; [|now exists e'].
  destruct Hin as [->|Hin]; [congruence|].
  destruct (IH Hin) as [e' ->]. now exists e'.
Qed.

Section WithStore.
Context {Num : Type}.
Variables (env : Env) (dimension : Z).
Variable upsert : list (StoredVector (Num := Num)) -> Res unit.

Lemma toVector_Ok (it : UpsertItem (Num := Num)) v :
  toVector env dimension it = Ok v ->
  storedFor it v /\ Z.of_nat (length (sv_values v)) = dimension.
Proof.
  unfold toVector, storedFor. destruct (up_vector it) as [values|shown]; [|discriminate].
  destruct (Z.of_nat (length values) =? dimension)%Z eqn:E; cbn [negb]; [|discriminate].
  intros Ev. injection Ev as <-. cbn. apply Z.eqb_eq in E. easy.
Qed.

Lemma toVector_invalid (it : UpsertItem (Num := Num)) :
  validItem dimension it = false ->
  toVector env dimension it = Throw (invalidDimension env it).
Proof.
  unfold toVector, validItem. destruct (up_vector it) as [values|shown]; [|reflexivity].
  now intros ->.
Qed.

(** X9. The route writes to the store at most once, and only for a request
    that carries the admin token and whose items all have a vector of
    exactly [Number(env.EMBED_DIM)] numbers: the batch written has one vector
    for each item, in order, with the item's identifier and values, and
    metadata without a language. *)
Theorem upsertRoute_writes_whole_valid_batches authorization
    (payload : Res (option (list (UpsertItem (Num := Num))))) :
  snd (upsertRoute env dimension upsert authorization payload) = [] \/
  exists items vectors,
    orElse authorization [] = lit "Bearer " ++ ADMIN_TOKEN env /\
    payload = Ok (Some items) /\
    snd (upsertRoute env dimension upsert authorization payload) = [vectors] /\
    Forall2 storedFor items vectors /\
    Forall (fun v => Z.of_nat (length (sv_values v)) = dimension /\
                     language (sv_metadata v) = None) vectors.
Proof.
  unfold upsertRoute, authorised.
  destruct (str_eqb (orElse authorization []) (lit "Bearer " ++ ADMIN_TOKEN env)) eqn:Hauth;
    cbn [negb]; [|now left].
  apply RetrieverProps.str_eqb_eq in Hauth.
  destruct payload as [[items|]|e]; [|now left..].
  destruct (mapR (toVector env dimension) items) as [vectors|e] eqn:Hmap; [|now left].
  right. exists items, vectors. apply mapR_Ok in Hmap.
  split; [exact Hauth|]. split; [reflexivity|]. split; [now destruct (upsert vectors)|].
  clear -Hmap. induction Hmap as [|it v items vectors Hv _ [IH1 IH2]]; [easy|].
  apply toVector_Ok in Hv as [Hst Hdim]. split; constructor; try easy.
  split; [exact Hdim|]. destruct Hst as (_ & _ & ->). reflexivity.
Qed.

(** X10. One item whose vector is not an array of [Number(env.EMBED_DIM)]
    numbers makes the route answer 500 and leave the store untouched, also
    for the valid items of the same request. *)
Theorem upsertRoute_rejects_batch_with_invalid_item authorization
    (items : list (UpsertItem (Num := Num))) it :
  authorised env authorization = true ->
  In it items ->
  validItem dimension it = false ->
  exists e,
    upsertRoute env dimension upsert authorization (Ok (Some items))
    = ({| status := 500; body := ErrorBody (messageOr e) |}, []).
Proof.
  intros Hauth Hin Hbad. unfold upsertRoute. rewrite Hauth. cbn [negb].
  destruct (mapR_Throw _ _ _ _ Hin (toVector_invalid it Hbad)) as [e ->].
  now exists e.
Qed.

End WithStore.

Section WithIngestion.
Import Ingest FastIngest.
Context `{UrlApi} {Num : Type}.
Variables (zero : Num) (sha256hex : jsstring -> jsstring)
          (markdownToPlain : jsstring -> jsstring)
          (PROVIDER : jsstring) (EMBED_DIM : Z) (BASE_URL : jsstring)
          (getBatchEmbeddings : nat -> list jsstring -> Res (list (list Num))).
Variable env : Env.
Variable upsert : list (StoredVector (Num := Num)) -> Res unit.

(** X11. The items that [processFile] makes pass the route's check of the
    dimension when worker and script read the same [EMBED_DIM]: sent with the
    admin token to a store that accepts them, they are all written, with
    their identifiers, vectors and texts, and the language that every item
    carries is not stored. *)
Theorem upsertRoute_accepts_ingested_items relPath fm items authorization :
  (0 <= EMBED_DIM)%Z ->
  processFile zero sha256hex markdownToPlain PROVIDER EMBED_DIM BASE_URL
    getBatchEmbeddings relPath fm = Ok items ->
  authorised env authorization = true ->
  (forall vectors, upsert vectors = Ok tt) ->
  exists vectors,
    upsertRoute env EMBED_DIM upsert authorization
      (Ok (Some (List.map toPayload items)))
    = ({| status := 200; body := OkCount (length items) |}, [vectors]) /\
    Forall2 (fun it v => sv_id v = item_id it /\
                         sv_values v = item_vector it /\
                         text (sv_metadata v) = Some (item_text it) /\
                         language (sv_metadata v) = None)
            items vectors.
Proof.
  intros Hdim Hrun Hauth Hstore.
  pose proof (FastIngestProps.processFile_inv zero sha256hex markdownToPlain PROVIDER
                EMBED_DIM BASE_URL getBatchEmbeddings relPath fm items Hrun) as Hinv.
  assert (Hlen : Forall (fun it => Z.of_nat (length (item_vector it)) = EMBED_DIM) items).
  { destruct Hinv as [[-> _]|(_ & baseUrl & language & indices & _ & Hall & _)];
      [constructor|].
    clear -Hall Hdim.
    induction Hall as [|idx it indices items (text & vector & _ & -> & _) _ IH];
      constructor; [|exact IH].
    cbn. rewrite FastIngestProps.ensureDimensions_length by exact Hdim. lia. }
  clear Hinv Hrun.
  set (store (it : Item (Num := Num)) := {| sv_id := item_id it; sv_values := item_vector it;
                      sv_metadata := {| text := Some (item_text it);
                                        source := Some (item_source it);
                                        title := Some (item_title it);
                                        url := Some (item_url it);
                                        language := None |} |}).
  exists (List.map store items). unfold upsertRoute. rewrite Hauth. cbn [negb].
  rewrite (mapR_all (toVector env EMBED_DIM) (List.map toPayload items)
             (List.map store items)).
  - rewrite Hstore, length_map. split; [reflexivity|].
    clear. induction items; constructor; easy.
  - clear -Hlen. induction Hlen as [|it items Hit _ IH]; cbn [List.map]; constructor;
      [|exact IH].
    unfold toVector, toPayload. cbn [up_vector].
    replace (Z.of_nat (length (item_vector it)) =? EMBED_DIM)%Z with true
      by (symmetry; now apply Z.eqb_eq).
    reflexivity.
Qed.

End WithIngestion.

Section WithClearing.
Variables (env : Env) (dimension : Z)
          (queryIds : nat -> Res (list jsstring))
          (deleteByIds : nat -> list jsstring -> Res unit).

Lemma dummyVector_valid :
  (0 <= dimension <= 4294967295)%Z -> dummyVector dimension = Ok tt.
Proof.
  intros [Hlo Hhi]. unfold dummyVector.
  replace (dimension <? 0)%Z with false by (symmetry; apply Z.ltb_ge; lia).
  replace (4294967295 <? dimension)%Z with false by (symmetry; apply Z.ltb_ge; lia).
  reflexivity.
Qed.

(** The loop, turn by turn, while the store gives 100 matches or more. *)
Lemma clearLoop_turns m :
  (0 <= dimension <= 4294967295)%Z ->
  (forall k ids, deleteByIds k ids = Ok tt) ->
  forall fuel n totalDeleted log,
    (forall k, n <= k < n + m ->
               exists ids, queryIds k = Ok ids /\ 100 <= length ids) ->
    m <= fuel ->
    clearLoop dimension queryIds deleteByIds fuel n totalDeleted log
    = clearLoop dimension queryIds deleteByIds (fuel - m) (n + m)
        (totalDeleted + length (concat (List.map (returned queryIds) (seq n m))))
        (log ++ flat_map (turnCalls queryIds) (seq n m)).
Proof.
  intros Hdim Hdel. induction m as [|m IH]; intros fuel n totalDeleted log Hfull Hfuel.
  - cbn. now rewrite Nat.sub_0_r, !Nat.add_0_r, app_nil_r.
  - destruct fuel as [|fuel]; [lia|]. cbn [clearLoop]. rewrite (dummyVector_valid Hdim).
    destruct (Hfull n ltac:(lia)) as (ids & Hq & Hlen).
    assert (Hret : returned queryIds n = ids) by (unfold returned; now rewrite Hq).
    rewrite Hq, Hdel.
    replace (length ids =? 0) with false by (symmetry; apply Nat.eqb_neq; lia).
    replace (length ids <? 100) with false by (symmetry; apply Nat.ltb_ge; lia).
    rewrite IH; [|intros k Hk; apply Hfull; lia | lia].
    cbn [seq List.map concat flat_map]. unfold turnCalls at 2. rewrite Hret.
    replace (length ids =? 0) with false by (symmetry; apply Nat.eqb_neq; lia).
    rewrite length_app, <- !app_assoc. cbn [app Nat.sub].
    f_equal; [lia | lia].
Qed.

(** X12. The route for clearing ends at the first query that the store
    answers with fewer than 100 matches: it has then deleted what every
    query gave, in the order of the queries, and reports the number of
    identifiers it passed on. *)
Theorem clearAllRoute_ends_at_first_short_answer n fuel authorization :
  orElse authorization [] = lit "Bearer " ++ ADMIN_TOKEN env ->
  (0 <= dimension <= 4294967295)%Z ->
  (forall k ids, deleteByIds k ids = Ok tt) ->
  (forall k, k < n -> exists ids, queryIds k = Ok ids /\ 100 <= length ids) ->
  (exists ids, queryIds n = Ok ids /\ length ids < 100) ->
  n < fuel ->
  clearAllRoute env dimension queryIds deleteByIds fuel authorization
  = Some ({| status := 200;
             body := OkDeleted
                       (length (concat (List.map (returned queryIds) (seq 0 (S n))))) |},
          flat_map (turnCalls queryIds) (seq 0 (S n))).
Proof.
  intros Hauth Hdim Hdel Hfull (ids & Hq & Hshort) Hfuel.
  unfold clearAllRoute. rewrite Hauth, RetrieverProps.str_eqb_refl. cbn [negb].
  rewrite (clearLoop_turns n Hdim Hdel fuel 0 0 []); [|intros k Hk; apply Hfull; lia | lia].
  destruct (fuel - n) as [|rest] eqn:Hrest; [lia|]. cbn [clearLoop Nat.add app].
  rewrite (dummyVector_valid Hdim), Hq.
  assert (Hret : returned queryIds n = ids) by (unfold returned; now rewrite Hq).
  rewrite seq_S, List.map_app, concat_app, flat_map_app, length_app.
  assert (Hturn : turnCalls queryIds n
                  = QueryAll :: (if length ids =? 0 then [] else [DeleteByIds ids]))
    by (unfold turnCalls; now rewrite Hret).
  cbn [Nat.add List.map concat flat_map]. rewrite Hturn, Hret, !app_nil_r.
  destruct (length ids =? 0) eqn:Hempty.
  - apply Nat.eqb_eq in Hempty. rewrite Hempty, Nat.add_0_r. reflexivity.
  - rewrite Hdel. replace (length ids <? 100) with true by (symmetry; apply Nat.ltb_lt; lia).
    reflexivity.
Qed.

(** X13. The loop of the route has no bound of its own: as long as every
    query is answered with 100 matches or more, as when the deletions do not
    show in the next query, the route goes on asking and deleting and gives
    no response. *)
Theorem clearAllRoute_goes_on_while_store_answers_in_full fuel authorization :
  orElse authorization [] = lit "Bearer " ++ ADMIN_TOKEN env ->
  (0 <= dimension <= 4294967295)%Z ->
  (forall k ids, deleteByIds k ids = Ok tt) ->
  (forall k, exists ids, queryIds k = Ok ids /\ 100 <= length ids) ->
  clearAllRoute env dimension queryIds deleteByIds fuel authorization = None.
Proof.
  intros Hauth Hdim Hdel Hfull.
  unfold clearAllRoute. rewrite Hauth, RetrieverProps.str_eqb_refl. cbn [negb].
  rewrite (clearLoop_turns fuel Hdim Hdel fuel 0 0 []); [|intros k _; apply Hfull | lia].
  rewrite Nat.sub_diag. reflexivity.
Qed.

End WithClearing.

Section WithChat.
Context `{UrlApi} {Vector : Type}.
Variables (VECTORIZE : VectorizeIndex (Vector := Vector))
          (titleDictionary : gmap jsstring jsstring)
          (embed : list jsstring -> Res (list Vector))
          (llmGenerate : jsstring -> Res jsstring).

(** The queries of one retrieval: the filtered one, and after it at most
    the unfiltered one. *)
Lemma getRelevantDocuments_log qv k language :
  snd (run (getRelevantDocuments VECTORIZE titleDictionary qv k language))
  = [(qv, filteredOptions k language)] \/
  snd (run (getRelevantDocuments VECTORIZE titleDictionary qv k language))
  = [(qv, filteredOptions k language); (qv, unfilteredOptions k)].
Proof.
  destruct (needsFallback (filteredReply VECTORIZE qv k language)) eqn:Hneed.
  - right. now rewrite (RetrieverProps.run_fallback _ _ _ _ _ Hneed).
  - left. now apply RetrieverProps.no_fallback_without_failure.
Qed.

(** The route, case by case. *)
Lemma chatRoute_cases json :
  (exists e, json = Throw e /\
             run (chatRoute VECTORIZE titleDictionary embed llmGenerate json)
             = (Ok (serverError e), [])) \/
  (exists b, json = Ok b /\ present (chat_message b) = false /\
             run (chatRoute VECTORIZE titleDictionary embed llmGenerate json)
             = (Ok invalidMessage, [])) \/
  (exists b e, json = Ok b /\ present (chat_message b) = true /\
               (chat_history b = NullHistory \/
                chat_history b <> NullHistory /\
                (embed [orElse (chat_message b) []] = Throw e \/
                 embed [orElse (chat_message b) []] = Ok [])) /\
               run (chatRoute VECTORIZE titleDictionary embed llmGenerate json)
               = (Ok (serverError e), [])) \/
  (exists b qv rest, json = Ok b /\ present (chat_message b) = true /\
     chat_history b <> NullHistory /\
     embed [orElse (chat_message b) []] = Ok (qv :: rest) /\
     run (chatRoute VECTORIZE titleDictionary embed llmGenerate json)
     = (match fst (run (getRelevantDocuments VECTORIZE titleDictionary qv 8
                          (requestLanguage b))) with
        | Ok r =>
            match promptFor (orElse (chat_message b) []) (contexts r)
                    (chat_history b) (requestLanguage b) with
            | Ok prompt =>
                match llmGenerate prompt with
                | Ok answer => Ok {| status := 200; body := Answer answer (sources r) |}
                | Throw e => Ok (serverError e)
                end
            | Throw e => Ok (serverError e)
            end
        | Throw e => Ok (serverError e)
        end,
        snd (run (getRelevantDocuments VECTORIZE titleDictionary qv 8 (requestLanguage b))))).
Proof.
  destruct json as [b|e]; [|left; now exists e].
  right. destruct (present (chat_message b)) eqn:Hmsg.
  2:{ left. exists b. unfold run, chatRoute, tryCatch, bind, liftR, ret.
      rewrite Hmsg. easy. }
  right.
  assert (Hlen : chat_history b = NullHistory \/
                 chat_history b <> NullHistory /\ historyLength (chat_history b) = Ok tt).
  { destruct (chat_history b); [right|left|right|right]; easy. }
  destruct Hlen as [Hnull | [Hnot Hlen]].
  { left. eexists b, _. split; [easy|]. split; [easy|]. split; [now left|].
    unfold run, chatRoute, tryCatch, bind, liftR, ret. rewrite Hmsg, Hnull.
    reflexivity. }
  destruct (embed [orElse (chat_message b) []]) as [[|qv rest]|e] eqn:Hembed.
  - left. exists b, (mkError (lit "Cannot read properties of undefined")).
    unfold run, chatRoute, tryCatch, bind, liftR, ret, throw.
    rewrite Hmsg, Hlen, Hembed. cbn [negb]. split; [easy|]. split; [easy|].
    split; [right; split; [exact Hnot | now right]|].
    reflexivity.
  - right. exists b, qv, rest.
    unfold run, chatRoute, tryCatch, bind, liftR, ret. rewrite Hmsg, Hlen, Hembed.
    cbn [negb]. split; [easy|]. split; [easy|]. split; [easy|]. split; [easy|].
    destruct (getRelevantDocuments VECTORIZE titleDictionary qv 8 (requestLanguage b) [])
      as [[r|e] log]; cbn [fst snd]; [|reflexivity].
    destruct (promptFor _ _ _ _) as [prompt|e]; [|reflexivity].
    now destruct (llmGenerate _).
  - left. exists b, e. unfold run, chatRoute, tryCatch, bind, liftR, ret.
    rewrite Hmsg, Hlen, Hembed. cbn [negb]. split; [easy|]. split; [easy|].
    split; [right; split; [exact Hnot | now left]|].
    reflexivity.
Qed.

(** X14. The chat route always answers, with the status 200, 400 or 500,
    and never throws. It asks the store at most twice, each time for 8
    matches without their values, and not at all when it answers 400, which
    it does exactly for a request without a message that is a string with
    characters. *)
Theorem chatRoute_always_responds json :
  exists resp log,
    run (chatRoute VECTORIZE titleDictionary embed llmGenerate json) = (Ok resp, log) /\
    (status resp = 200 \/ status resp = 400 \/ status resp = 500) /\
    length log <= 2 /\
    Forall (fun q => topK (snd q) = 8%Z /\ returnValues (snd q) = false) log /\
    (status resp = 400 <->
     exists b, json = Ok b /\ present (chat_message b) = false) /\
    (status resp = 400 -> log = []).
Proof.
  destruct (chatRoute_cases json)
    as [(e & -> & ->)|[(b & -> & Hmsg & ->)|[(b & e & -> & Hmsg & _ & ->)
       |(b & qv & rest & -> & Hmsg & _ & _ & ->)]]].
  - exists (serverError e), []. cbn. repeat split; auto; try lia; try discriminate.
    intros (b & Hb & _). discriminate.
  - exists invalidMessage, []. cbn. repeat split; auto; try lia. now exists b.
  - exists (serverError e), []. cbn. repeat split; auto; try lia; try discriminate.
    intros (b' & Hb & Hno). injection Hb as <-. congruence.
  - assert (Hlog : length (snd (run (getRelevantDocuments VECTORIZE titleDictionary qv 8
                                       (requestLanguage b)))) <= 2 /\
                   Forall (fun q => topK (snd q) = 8%Z /\ returnValues (snd q) = false)
                     (snd (run (getRelevantDocuments VECTORIZE titleDictionary qv 8
                                  (requestLanguage b))))).
    { destruct (getRelevantDocuments_log qv 8 (requestLanguage b)) as [-> | ->]; cbn;
        split; try lia; repeat constructor. }
    destruct Hlog as [Hlen Hall].
    destruct (fst (run (getRelevantDocuments VECTORIZE titleDictionary qv 8 (requestLanguage b))))
      as [r|e];
      [destruct (promptFor _ _ _ _) as [prompt|e];
       [destruct (llmGenerate _) as [answer|e]|]|];
      eexists; eexists; (split; [reflexivity|]); cbn [status serverError];
      (split; [auto|]); (split; [exact Hlen|]); (split; [exact Hall|]);
      (split; [split; [discriminate | intros (b' & Hb & Hno); injection Hb as <-; congruence]
              | discriminate]).
Qed.

(** X15. The history of a request plays no part in the retrieval, except
    that a history that is [null] ends the route before the retrieval. A
    request with a message whose history is [null] is answered with the
    status 500 and sends no query to the store. Two requests that differ in
    their history only, neither of them [null], send the same queries to the
    store, and when both are answered with the status 200 they are given the
    same sources. *)
Theorem chatRoute_retrieval_ignores_history b history' :
  let b' := {| chat_message := chat_message b; chat_history := history';
               chat_language := chat_language b |} in
  (present (chat_message b) = true -> chat_history b = NullHistory ->
   exists e,
     run (chatRoute VECTORIZE titleDictionary embed llmGenerate (Ok b))
     = (Ok (serverError e), [])) /\
  (chat_history b <> NullHistory -> history' <> NullHistory ->
   snd (run (chatRoute VECTORIZE titleDictionary embed llmGenerate (Ok b)))
   = snd (run (chatRoute VECTORIZE titleDictionary embed llmGenerate (Ok b'))) /\
   forall resp resp' answer answer' found found',
     fst (run (chatRoute VECTORIZE titleDictionary embed llmGenerate (Ok b))) = Ok resp ->
     fst (run (chatRoute VECTORIZE titleDictionary embed llmGenerate (Ok b'))) = Ok resp' ->
     body resp = Answer answer found ->
     body resp' = Answer answer' found' ->
     found = found').
Proof.
  cbv zeta. set (b' := {| chat_message := chat_message b; chat_history := history';
                          chat_language := chat_language b |}).
  split.
  { intros Hmsg Hnull.
    unfold run, chatRoute, tryCatch, bind, liftR, ret. rewrite Hmsg, Hnull.
    cbn. eauto. }
  intros Hnot Hnot'.
  destruct (chatRoute_cases (Ok b))
    as [(e & E & _)|[(b1 & E1 & Hmsg1 & R1)|[(b1 & e1 & E1 & Hmsg1 & Hemb1 & R1)
       |(b1 & qv1 & rest1 & E1 & Hmsg1 & _ & Hemb1 & R1)]]]; [discriminate|..];
    injection E1 as <-;
    (destruct (chatRoute_cases (Ok b'))
      as [(e & E & _)|[(b2 & E2 & Hmsg2 & R2)|[(b2 & e2 & E2 & Hmsg2 & Hemb2 & R2)
         |(b2 & qv2 & rest2 & E2 & Hmsg2 & _ & Hemb2 & R2)]]]; [discriminate|..]);
    injection E2 as <-; rewrite R1, R2; cbn [fst snd];
    change (chat_message b') with (chat_message b) in *;
    change (chat_history b') with history' in *;
    try congruence.
  - split; [reflexivity|]. intros resp resp' a a' f f' E. injection E as <-. discriminate.
  - split; [reflexivity|]. intros resp resp' a a' f f' E. injection E as <-. discriminate.
  - destruct Hemb1 as [?|[_ [?|?]]]; congruence.
  - destruct Hemb2 as [?|[_ [?|?]]]; congruence.
  - rewrite Hemb1 in Hemb2. injection Hemb2 as <- <-.
    change (requestLanguage b') with (requestLanguage b). split; [reflexivity|].
    intros resp resp' a a' f f'.
    destruct (fst (run (getRelevantDocuments VECTORIZE titleDictionary qv1 8 (requestLanguage b))))
      as [r|e].
    + destruct (promptFor _ _ (chat_history b) _) as [p|?];
        destruct (promptFor _ _ history' _) as [p'|?];
        try destruct (llmGenerate p); try destruct (llmGenerate p');
        intros E E'; injection E as <-; injection E' as <-; cbn; congruence.
    + intros E E'. injection E as <-. discriminate.
Qed.

End WithChat.

Import FastIngest FastSamples WorkerSamples.

Lemma upsertRoute_rejects_batch_with_invalid_item_witness :
  exists e,
    upsertRoute sampleEnv 4%Z accepting sampleAuthorization
      (Ok (Some [goodItem; shortItem]))
    = ({| status := 500; body := ErrorBody (messageOr e) |}, []).
Proof.
  apply (upsertRoute_rejects_batch_with_invalid_item sampleEnv 4%Z accepting
           sampleAuthorization [goodItem; shortItem] shortItem).
  - reflexivity.
  - right. left. reflexivity.
  - reflexivity.
Defined.

Import ClearSamples.

Lemma clearAllRoute_ends_at_first_short_answer_witness :
  clearAllRoute sampleEnv 4%Z twoBatches deleting 5 sampleAuthorization
  = Some ({| status := 200;
             body := OkDeleted
                       (length (concat (List.map (returned twoBatches) (seq 0 2)))) |},
          flat_map (turnCalls twoBatches) (seq 0 2)).
Proof.
  apply (clearAllRoute_ends_at_first_short_answer sampleEnv 4%Z twoBatches deleting 1 5
           sampleAuthorization).
  - reflexivity.
  - lia.
  - intros k ids. reflexivity.
  - intros k Hk. assert (k = 0) as -> by lia. eexists. split; [reflexivity|].
    rewrite length_replicate. lia.
  - eexists. split; [reflexivity|]. rewrite length_replicate. lia.
  - lia.
Defined.

Lemma clearAllRoute_goes_on_while_store_answers_in_full_witness :
  clearAllRoute sampleEnv 4%Z alwaysFull deleting 1000 sampleAuthorization = None.
Proof.
  apply (clearAllRoute_goes_on_while_store_answers_in_full sampleEnv 4%Z alwaysFull
           deleting 1000 sampleAuthorization).
  - reflexivity.
  - lia.
  - intros k ids. reflexivity.
  - intros k. eexists. split; [reflexivity|]. rewrite length_replicate. lia.
Defined.

Lemma chatRoute_retrieval_ignores_history_witness :
  snd (run (chatRoute (H := plainUrlApi) Samples.failingStore Samples.sampleDictionary
              unitEmbedder echoModel (Ok chatRequest)))
  = snd (run (chatRoute (H := plainUrlApi) Samples.failingStore Samples.sampleDictionary
                unitEmbedder echoModel
                (Ok {| chat_message := chat_message chatRequest;
                       chat_history := Turns PromptSamples.recentTurns;
                       chat_language := chat_language chatRequest |}))) /\
  snd (run (chatRoute (H := plainUrlApi) Samples.failingStore Samples.sampleDictionary
              unitEmbedder echoModel (Ok chatRequest)))
  = [(tt, filteredOptions 8 zh); (tt, unfilteredOptions 8)].
Proof.
  split; [|reflexivity].
  apply (proj2 (chatRoute_retrieval_ignores_history (H := plainUrlApi)
                  Samples.failingStore Samples.sampleDictionary unitEmbedder echoModel
                  chatRequest (Turns PromptSamples.recentTurns)));
    discriminate.
Defined.

Lemma upsertRoute_accepts_ingested_items_witness :
  exists vectors,
    upsertRoute sampleEnv 4%Z accepting sampleAuthorization
      (Ok (Some (List.map toPayload sampleItemList)))
    = ({| status := 200; body := OkCount (length sampleItemList) |}, [vectors]) /\
    Forall2 (fun it v => sv_id v = item_id it /\
                         sv_values v = item_vector it /\
                         text (sv_metadata v) = Some (item_text it) /\
                         language (sv_metadata v) = None)
            sampleItemList vectors.
Proof.
  apply (upsertRoute_accepts_ingested_items (H := plainUrlApi) 0%Z sampleDigest
           (fun s => s) gemini 4%Z Ingest.defaultBaseUrl shortProvider sampleEnv
           accepting samplePath samplePost sampleItemList sampleAuthorization).
  - lia.
  - vm_compute. reflexivity.
  - reflexivity.
  - intros vectors. reflexivity.
Defined.

End WorkerProps.

(** ** The prompt *)

Module PromptProps.
Import Retriever Prompt.

Lemma lastSix_short {A} (history : list A) :
  length (lastSix history) <= 6.
Proof. unfold lastSix. rewrite length_drop. lia. Qed.

Lemma lastSix_idem {A} (history : list A) :
  lastSix (lastSix history) = lastSix history.
Proof.
  unfold lastSix at 1. pose proof (lastSix_short history).
  replace (length (lastSix history) - 6) with 0 by lia. reflexivity.
Qed.

Lemma lastSix_empty {A} (history : list A) :
  (0 <? length (lastSix history)) = (0 <? length history).
Proof.
  unfold lastSix. rewrite length_drop.
  destruct (length history) as [|n] eqn:E; [reflexivity|].
  apply eq_trans with true; [apply Nat.ltb_lt; lia | reflexivity].
Qed.

(** X16. The prompt reads at most the last six entries of the history: it
    is the prompt of the history cut down to its last six entries, and
    entries before them change nothing. *)
Theorem buildPrompt_reads_last_six_turns question contexts history language :
  length (lastSix history) <= 6 /\
  (exists older, history = older ++ lastSix history) /\
  buildPrompt question contexts history language
  = buildPrompt question contexts (lastSix history) language /\
  (forall older' : list Turn,
      6 <= length history ->
      buildPrompt question contexts (older' ++ lastSix history) language
      = buildPrompt question contexts history language).
Proof.
  split; [apply lastSix_short|]. split.
  { exists (take (length history - 6) history). unfold lastSix.
    now rewrite take_drop. }
  assert (Hcut : forall h : list Turn,
             buildPrompt question contexts h language
             = buildPrompt question contexts (lastSix h) language).
  { intros h. unfold buildPrompt, promptParts.
    now rewrite lastSix_idem, lastSix_empty. }
  split; [apply Hcut|].
  intros older' Hlen. rewrite (Hcut (older' ++ lastSix history)), (Hcut history).
  f_equal. unfold lastSix at 1. rewrite length_app.
  assert (Hsix : length (lastSix history) = 6).
  { unfold lastSix. rewrite length_drop. lia. }
  rewrite Hsix. replace (length older' + 6 - 6) with (length older') by lia.
  now rewrite drop_app_length.
Qed.

Lemma isAscii_app (a b : jsstring) :
  isAscii (a ++ b) = isAscii a && isAscii b.
Proof. apply forallb_app. Qed.

Lemma isAscii_join (sep : jsstring) (parts : list jsstring) :
  isAscii sep = true -> forallb isAscii parts = true ->
  isAscii (join sep parts) = true.
Proof.
  intros Hsep. induction parts as [|p parts IH]; [reflexivity|].
  cbn [forallb]. intros Hall. apply andb_true_iff in Hall as [Hp Hrest].
  destruct parts as [|p' parts]; [exact Hp|].
  change (join sep (p :: p' :: parts)) with (p ++ sep ++ join sep (p' :: parts)).
  rewrite !isAscii_app, Hp, Hsep, (IH Hrest). reflexivity.
Qed.

Lemma englishHead_ascii : forallb isAscii englishHead = true.
Proof. vm_compute. reflexivity. Qed.

(** X17. The English prompt has no character outside ASCII that does not
    come from the question, the contexts or the history. *)
Theorem buildPrompt_english_is_ascii question contexts history :
  isAscii question = true ->
  isAscii contexts = true ->
  Forall (fun h => isAscii (turn_content h) = true) history ->
  isAscii (buildPrompt question contexts history en) = true.
Proof.
  intros Hq Hc Hh. unfold buildPrompt. apply isAscii_join; [reflexivity|].
  unfold promptParts. rewrite RetrieverProps.str_eqb_refl.
  assert (Hlines : forallb isAscii (List.map (turnLine en) (lastSix history)) = true).
  { unfold lastSix. apply forallb_forall. intros line Hin.
    apply List.in_map_iff in Hin as (h & <- & Hin).
    assert (Hcontent : isAscii (turn_content h) = true).
    { rewrite Forall_forall in Hh. apply Hh.
      apply list_elem_of_In in Hin. eapply subseteq_drop. exact Hin. }
    unfold turnLine. rewrite RetrieverProps.str_eqb_refl, !isAscii_app, Hcontent.
    now destruct (str_eqb (turn_type h) user). }
  assert (Hhead : forallb isAscii (englishPrompt contexts) = true).
  { unfold englishPrompt. rewrite forallb_app, englishHead_ascii. cbn.
    destruct (truthy contexts); [now rewrite Hc | reflexivity]. }
  unfold finalInstruction. rewrite RetrieverProps.str_eqb_refl.
  destruct (0 <? length history); rewrite !forallb_app, ?Hlines, Hhead; cbn;
    now rewrite Hq.
Qed.

Lemma join_cons_snoc (sep p x : jsstring) (l : list jsstring) :
  join sep (p :: l ++ [x]) = p ++ sep ++ join sep (l ++ [x]).
Proof. destruct l; reflexivity. Qed.

Lemma chineseHead_first :
  exists first rest, chineseHead = (20320%N :: first) :: rest.
Proof. eexists. eexists. vm_compute. reflexivity. Qed.

(** X18. Only the language ['en'] gives the English prompt: every other
    language gives the prompt of ['zh'], which opens with a Chinese
    character. *)
Theorem buildPrompt_chinese_unless_en question contexts history language :
  language <> en ->
  buildPrompt question contexts history language
  = buildPrompt question contexts history zh /\
  exists rest, buildPrompt question contexts history language = 20320%N :: rest.
Proof.
  intros Hlang.
  assert (Hne : str_eqb language en = false).
  { destruct (str_eqb language en) eqn:E; [|reflexivity].
    apply RetrieverProps.str_eqb_eq in E. contradiction. }
  assert (Heq : buildPrompt question contexts history language
                = buildPrompt question contexts history zh).
  { unfold buildPrompt, promptParts, finalInstruction, turnLine. rewrite Hne.
    change (str_eqb zh en) with false. reflexivity. }
  split; [exact Heq|]. rewrite Heq.
  unfold buildPrompt, promptParts. change (str_eqb zh en) with false.
  unfold chinesePrompt. destruct chineseHead_first as (first & rest & ->).
  destruct (0 <? length history); cbn [app]; rewrite join_cons_snoc;
    eexists; reflexivity.
Qed.

Import PromptSamples.

Lemma buildPrompt_english_is_ascii_witness :
  isAscii (buildPrompt (lit "Since when?") (lit "Istio is open source.")
             (olderTurns ++ recentTurns) en) = true.
Proof.
  apply (buildPrompt_english_is_ascii (lit "Since when?") (lit "Istio is open source.")
           (olderTurns ++ recentTurns)).
  - reflexivity.
  - reflexivity.
  - repeat constructor.
Defined.

Lemma buildPrompt_chinese_unless_en_witness :
  buildPrompt (lit "Since when?") [] recentTurns (lit "EN")
  = buildPrompt (lit "Since when?") [] recentTurns zh /\
  exists rest,
    buildPrompt (lit "Since when?") [] recentTurns (lit "EN") = 20320%N :: rest.
Proof.
  apply (buildPrompt_chinese_unless_en (lit "Since when?") [] recentTurns (lit "EN")).
  discriminate.
Defined.

End PromptProps.

(** ** The generator of the title dictionary *)

Module TitleGeneratorProps.
Import Ingest Retriever FastIngest TitleGenerator.

Lemma present_Some (o : option jsstring) :
  present o = true ->
  exists s, o = Some s /\ truthy s = true /\ forall d, orElse o d = s.
Proof.
  destruct o as [s|]; [|discriminate]. cbn. intros Hs. exists s.
  repeat split; [exact Hs|]. intros d. now rewrite Hs.
Qed.

Lemma versionsOf_more seen seen' entry :
  (forall f, In f seen -> In f seen') -> versionsOf seen entry -> versionsOf seen' entry.
Proof.
  intros Hsub [Hzh Hen]. split; intros f Hf.
  - destruct (Hzh f Hf) as (? & ? & ?). auto.
  - destruct (Hen f Hf) as (? & ? & ?). auto.
Qed.

Lemma assign_inv seen file postFiles :
  Forall (versionsOf seen) postFiles ->
  In file seen ->
  Forall (versionsOf seen)
         (assign (postPathOf file) (startsWith file (lit "zh/")) file postFiles).
Proof.
  intros Hall Hin. induction Hall as [|[k v] rest Hkv Hrest IH]; cbn [assign];
    [constructor|].
  destruct (str_eqb k (postPathOf file)) eqn:Hk; constructor; auto.
  apply RetrieverProps.str_eqb_eq in Hk. subst k. destruct Hkv as [Hzh Hen].
  cbn [fst snd] in Hzh, Hen.
  destruct (startsWith file (lit "zh/")) eqn:Hlang; split; cbn [fst snd zhVersion enVersion];
    intros f Hf.
  - injection Hf as <-. easy.
  - now apply Hen.
  - now apply Hzh.
  - injection Hf as <-. easy.
Qed.

Lemma assign_length postPath isZh file postFiles :
  length (assign postPath isZh file postFiles) = length postFiles.
Proof.
  induction postFiles as [|[k v] rest IH]; [reflexivity|]. cbn [assign].
  destruct (str_eqb k postPath); cbn; [reflexivity | now rewrite IH].
Qed.

Lemma group_inv files :
  forall seen postFiles,
    Forall (versionsOf seen) postFiles ->
    length postFiles <= length seen ->
    Forall (versionsOf (seen ++ files)) (fold_left groupStep files postFiles) /\
    length (fold_left groupStep files postFiles) <= length (seen ++ files).
Proof.
  induction files as [|file files IH]; intros seen postFiles Hall Hlen.
  - rewrite app_nil_r. easy.
  - cbn [fold_left]. replace (seen ++ file :: files) with ((seen ++ [file]) ++ files)
      by now rewrite <- app_assoc.
    apply IH.
    + unfold groupStep. apply assign_inv; [|apply in_or_app; right; now left].
      assert (Hmore : Forall (versionsOf (seen ++ [file])) postFiles).
      { eapply Forall_impl; [exact Hall|]. intros entry. apply versionsOf_more.
        intros f Hf. apply in_or_app. now left. }
      destruct (has (postPathOf file) postFiles); cbn [negb]; [exact Hmore|].
      apply Forall_app. split; [exact Hmore|]. constructor; [|constructor].
      split; cbn; discriminate.
    + unfold groupStep. rewrite assign_length.
      destruct (has (postPathOf file) postFiles); cbn [negb];
        rewrite ?length_app; cbn [length]; lia.
Qed.

Section WithFiles.
Variable readFile : jsstring -> Res FrontMatter.

Lemma pairStep_sound allFiles st entry :
  versionsOf allFiles entry -> sound readFile allFiles st ->
  sound readFile allFiles (pairStep readFile st entry).
Proof.
  intros [Hzh Hen] Hst. unfold pairStep.
  destruct (present (zhVersion (snd entry))) eqn:Hz;
    destruct (present (enVersion (snd entry))) eqn:He; cbn [andb negb]; try exact Hst.
  apply present_Some in Hz as (zhFile & Ez & _ & Hzf).
  apply present_Some in He as (enFile & Ee & _ & Hef).
  rewrite Hzf, Hef.
  destruct (readFile zhFile) as [zhMatter|e] eqn:Rz; cbn [bindR]; [|exact Hst].
  destruct (readFile enFile) as [enMatter|e] eqn:Re; cbn [bindR]; [|exact Hst].
  destruct (present (titleIn zhMatter)) eqn:Tz; cbn [andb]; [|exact Hst].
  destruct (present (titleIn enMatter)) eqn:Te; [|exact Hst].
  apply present_Some in Tz as (zt & Etz & Hzt & Hzo).
  apply present_Some in Te as (et & Ete & Het & Heo).
  rewrite Hzo, Heo. cbn [titleDictionary]. unfold setProperty.
  destruct (str_eqb zt proto); [exact Hst|].
  intros zhTitle enTitle. cbn [titleDictionary].
  destruct (decide (zt = zhTitle)) as [<-|Hne].
  - rewrite lookup_insert_eq. intros E. injection E as <-. split; [|easy].
    destruct (Hzh zhFile Ez) as (? & ? & ?). destruct (Hen enFile Ee) as (? & ? & ?).
    exists zhFile, enFile, zhMatter, enMatter. repeat split; try easy. congruence.
  - rewrite lookup_insert_ne by exact Hne. apply Hst.
Qed.

Lemma pairSteps_sound allFiles postFiles :
  forall st,
    Forall (versionsOf allFiles) postFiles -> sound readFile allFiles st ->
    sound readFile allFiles (fold_left (pairStep readFile) postFiles st).
Proof.
  induction postFiles as [|entry rest IH]; intros st Hall Hst; [exact Hst|].
  inversion Hall as [|? ? Hentry Hrest]; subst. cbn [fold_left].
  apply IH; [exact Hrest | now apply pairStep_sound].
Qed.

(** The assignment never makes an entry named [__proto__]. *)
Lemma pairStep_no_proto st entry :
  titleDictionary st !! proto = None ->
  titleDictionary (pairStep readFile st entry) !! proto = None.
Proof.
  intros Hst. unfold pairStep.
  destruct (present (zhVersion (snd entry)) && present (enVersion (snd entry))).
  - destruct (bindR _ _) as [[zhMatter enMatter]|e]; [|exact Hst].
    destruct (present (titleIn zhMatter) && present (titleIn enMatter)); [|exact Hst].
    cbn [titleDictionary]. unfold setProperty.
    destruct (str_eqb (orElse (titleIn zhMatter) []) proto) eqn:E; [exact Hst|].
    apply RetrieverProps.str_eqb_neq in E. now rewrite lookup_insert_ne.
  - destruct (present (zhVersion (snd entry)) && negb (present (enVersion (snd entry))));
      [exact Hst|].
    now destruct (present (enVersion (snd entry)) && negb (present (zhVersion (snd entry)))).
Qed.

Lemma pairSteps_no_proto postFiles :
  forall st,
    titleDictionary st !! proto = None ->
    titleDictionary (fold_left (pairStep readFile) postFiles st) !! proto = None.
Proof.
  induction postFiles as [|entry rest IH]; intros st Hst; [exact Hst|].
  cbn [fold_left]. apply IH. now apply pairStep_no_proto.
Qed.

(** X19. Every entry of the generated dictionary comes from a post that the
    files hold in both languages: the key is the title of the Chinese file
    and the value the title of the English file, neither is empty, and
    [translateTitleToEnglish] gives the value for the key. *)
Theorem generated_entries_are_title_pairs allFiles zhTitle enTitle :
  titleDictionary (generateTitleDictionary readFile allFiles) !! zhTitle = Some enTitle ->
  titlePair readFile allFiles zhTitle enTitle /\
  truthy zhTitle = true /\ truthy enTitle = true /\
  translateTitleToEnglish (titleDictionary (generateTitleDictionary readFile allFiles))
    zhTitle = Str enTitle.
Proof.
  intros Hentry.
  assert (Hsound : sound readFile allFiles (generateTitleDictionary readFile allFiles)).
  { unfold generateTitleDictionary, group. apply pairSteps_sound.
    - apply (group_inv allFiles [] []); [constructor | reflexivity].
    - intros zt et. cbn. now rewrite lookup_empty. }
  destruct (Hsound zhTitle enTitle Hentry) as (Hpair & Hzt & Het).
  repeat split; try easy.
  assert (Hproto : zhTitle <> proto).
  { intros ->. unfold generateTitleDictionary in Hentry.
    rewrite pairSteps_no_proto in Hentry; [discriminate|].
    cbn. apply lookup_empty. }
  unfold translateTitleToEnglish, getProperty.
  rewrite (proj2 (RetrieverProps.str_eqb_neq zhTitle proto) Hproto).
  now rewrite Hentry, Het.
Qed.

(** The counts of one turn. *)
Lemma pairStep_counts st entry :
  size (titleDictionary st) <= pairsFound st ->
  size (titleDictionary (pairStep readFile st entry))
  <= pairsFound (pairStep readFile st entry) /\
  pairsFound (pairStep readFile st entry) + chineseOnly (pairStep readFile st entry)
  + englishOnly (pairStep readFile st entry)
  <= S (pairsFound st + chineseOnly st + englishOnly st).
Proof.
  intros Hsize. unfold pairStep.
  destruct (present (zhVersion (snd entry)));
    destruct (present (enVersion (snd entry))); cbn [andb negb];
    cbn [titleDictionary pairsFound chineseOnly englishOnly]; try lia.
  destruct (bindR _ _) as [[zhMatter enMatter]|e]; [|lia].
  destruct (present (titleIn zhMatter) && present (titleIn enMatter)); [|lia].
  cbn [titleDictionary pairsFound chineseOnly englishOnly]. unfold setProperty.
  destruct (str_eqb (orElse (titleIn zhMatter) []) proto); [lia|].
  pose proof (map_size_insert (orElse (titleIn zhMatter) []) (orElse (titleIn enMatter) [])
                (titleDictionary st)) as Hins.
  destruct (titleDictionary st !! orElse (titleIn zhMatter) []);
    unfold id in Hins; rewrite Hins; lia.
Qed.

Lemma pairSteps_counts postFiles :
  forall st,
    size (titleDictionary st) <= pairsFound st ->
    size (titleDictionary (fold_left (pairStep readFile) postFiles st))
    <= pairsFound (fold_left (pairStep readFile) postFiles st) /\
    pairsFound (fold_left (pairStep readFile) postFiles st)
    + chineseOnly (fold_left (pairStep readFile) postFiles st)
    + englishOnly (fold_left (pairStep readFile) postFiles st)
    <= length postFiles + (pairsFound st + chineseOnly st + englishOnly st).
Proof.
  induction postFiles as [|entry rest IH]; intros st Hsize; [cbn; lia|].
  cbn [fold_left length]. destruct (pairStep_counts st entry Hsize) as [Hs Hc].
  destruct (IH _ Hs) as [Hs' Hc']. split; [exact Hs' | lia].
Qed.

(** X20. The statistics the generator prints: the dictionary has at most
    [pairsFound] entries, and the three counts together are at most the
    number of posts, which is at most the number of files. *)
Theorem generated_counts_are_bounded allFiles :
  let g := generateTitleDictionary readFile allFiles in
  size (titleDictionary g) <= pairsFound g /\
  pairsFound g + chineseOnly g + englishOnly g <= length (group allFiles) /\
  length (group allFiles) <= length allFiles.
Proof.
  cbv zeta. unfold generateTitleDictionary.
  destruct (pairSteps_counts (group allFiles) nothing) as [Hs Hc].
  { cbn. rewrite map_size_empty. lia. }
  cbn in Hc. split; [exact Hs|]. split; [lia|].
  now destruct (group_inv allFiles [] [] (Forall_nil_2 _) (Nat.le_refl _)) as [_ Hlen].
Qed.

End WithFiles.

Import TitleSamples.

Lemma generated_entries_are_title_pairs_witness :
  titlePair readPost [zhPost; enPost] Samples.zhTitle (lit "English Title") /\
  truthy Samples.zhTitle = true /\ truthy (lit "English Title") = true /\
  translateTitleToEnglish
    (titleDictionary (generateTitleDictionary readPost [zhPost; enPost]))
    Samples.zhTitle = Str (lit "English Title").
Proof.
  apply (generated_entries_are_title_pairs readPost [zhPost; enPost]).
  vm_compute. reflexivity.
Defined.

End TitleGeneratorProps.

(** ** More on the retriever *)

Module RetrieverMoreProps.
Import Retriever RetrieverProps.

Section Engine.
Context `{UrlApi} {Vector : Type}.
Variables (VECTORIZE : @VectorizeIndex Vector)
          (titleDictionary : gmap jsstring jsstring)
          (qvec : Vector) (k : Z) (currentLang : jsstring).

(** X21. The engine throws in one case only: the filtered query fails (it
    is rejected, runs into the timeout or has no match) and the unfiltered
    query is rejected; what it throws is the error of the unfiltered query. *)
Theorem engine_throws_only_when_both_queries_fail (e : Error) :
  fst (run (getRelevantDocuments VECTORIZE titleDictionary qvec k currentLang))
  = Throw e
  <-> needsFallback (filteredReply VECTORIZE qvec k currentLang) = true /\
      settled (fallbackReply VECTORIZE qvec k) = Rejected e.
Proof.
  destruct (needsFallback (filteredReply VECTORIZE qvec k currentLang)) eqn:Hneed.
  - rewrite (run_fallback _ _ _ _ _ Hneed). cbn [fst].
    destruct (settled (fallbackReply VECTORIZE qvec k)) as [ms|e'].
    + destruct (assemble_returns titleDictionary currentLang true ms) as (res & -> & _).
      split; [discriminate | intros [_ E]; discriminate].
    + split; [intros E; injection E as <-; easy | intros [_ E]; now injection E as <-].
  - destruct (no_fallback_without_failure VECTORIZE titleDictionary qvec k currentLang Hneed)
      as (_ & res & -> & _).
    split; [discriminate | intros [E _]; discriminate].
Qed.

End Engine.

Section Sources.
Context `{UrlApi}.

Lemma toEntries_nonempty valid :
  valid <> [] -> validMatches valid = valid -> toEntries valid <> [].
Proof.
  destruct valid as [|m ms]; [easy|]. intros _. unfold validMatches. cbn [List.filter].
  destruct (metadata m) as [md|] eqn:Hmd.
  - intros _. cbn. rewrite Hmd. discriminate.
  - intros E. exfalso.
    assert (Hlen : length (List.filter
                             (fun m => match metadata m with
                                       | Some md => present (text md)
                                       | None => false
                                       end) ms) <= length ms)
      by apply List.filter_length_le.
    rewrite E in Hlen. cbn in Hlen. lia.
Qed.

Lemma filter_all {A} (f : A -> bool) (l : list A) :
  existsb (fun x => negb (f x)) l = false -> List.filter f l = l.
Proof.
  induction l as [|x l IH]; cbn; [easy|].
  intros E. apply orb_false_iff in E as [Hx Hl]. apply negb_false_iff in Hx.
  now rewrite Hx, IH.
Qed.

Lemma filter_some {A} (f : A -> bool) (l : list A) :
  existsb f l = true -> List.filter f l <> [].
Proof.
  induction l as [|x l IH]; cbn; [discriminate|].
  destruct (f x); [discriminate | exact IH].
Qed.

(** X22. The post-query filter of a request in English never drops every
    match: when no retained match is in English, the Chinese ones are kept.
    So a request in English that is answered through the fallback has a
    context as soon as the store gives one match with a text. *)
Theorem english_fallback_keeps_some_match
    (titleDictionary : gmap jsstring jsstring) (queryRes : list Match) :
  validMatches queryRes <> [] ->
  retained en true queryRes <> [] /\
  exists res,
    assemble titleDictionary en true queryRes = Ok res /\ contexts res <> [].
Proof.
  intros Hvalid.
  assert (Hentries : toEntries (validMatches queryRes) <> []).
  { apply toEntries_nonempty; [exact Hvalid | apply validMatches_idem]. }
  assert (Hkept : retained en true queryRes <> []).
  { unfold retained. rewrite postFilter_en.
    destruct (existsb marked (toEntries (validMatches queryRes))) eqn:Hany.
    - now apply filter_some.
    - rewrite filter_all; [exact Hentries|].
      rewrite <- Hany. apply existsb_same. intros v. apply negb_involutive. }
  split; [exact Hkept|]. rewrite assemble_eq. eexists. split; [reflexivity|].
  cbn [contexts]. apply buildContexts_nonempty; [apply retained_text | exact Hkept].
Qed.

(** The source of a match for a request that is not in English. *)
Lemma sourcesOfEntry_plain titleDictionary lang v :
  lang <> en ->
  sourcesOfEntry titleDictionary lang v
  = if hasUrlOrTitle v
    then [ {| source_id := entry_id v; source_url := originalUrl v;
              source_title := Str (originalTitle v); source_source := sourceOf v;
              hasEnglishVersion := true |} ]
    else [].
Proof.
  intros Hlang. apply str_eqb_neq in Hlang.
  unfold sourcesOfEntry, toSource, keepSource. rewrite Hlang. cbn [andb].
  reflexivity.
Qed.

(** X23. Only a request in English has its sources translated: for every
    other language the result does not depend on the title dictionary, and
    every source carries the URL and the title of its match as they were
    stored. *)
Theorem only_english_requests_translate
    (dict1 dict2 : gmap jsstring jsstring) (lang : jsstring) (fallback : bool)
    (queryRes : list Match) :
  lang <> en ->
  assemble dict1 lang fallback queryRes = assemble dict2 lang fallback queryRes /\
  exists res,
    assemble dict1 lang fallback queryRes = Ok res /\
    Forall (fun s => exists v,
                In v (retained lang fallback queryRes) /\
                source_id s = entry_id v /\
                source_url s = originalUrl v /\
                source_title s = Str (originalTitle v))
           (sources res).
Proof.
  intros Hlang. rewrite !assemble_eq.
  assert (Hsame : forall dict,
             flat_map (sourcesOfEntry dict lang) (retained lang fallback queryRes)
             = flat_map (sourcesOfEntry ∅ lang) (retained lang fallback queryRes)).
  { intros dict. apply List.flat_map_ext. intros v.
    now rewrite !sourcesOfEntry_plain. }
  rewrite (Hsame dict1), (Hsame dict2). split; [reflexivity|].
  eexists. split; [reflexivity|]. cbn [sources].
  apply Forall_forall. intros s Hs.
  assert (Hin : s ∈ flat_map (sourcesOfEntry ∅ lang) (retained lang fallback queryRes)).
  { eapply elem_of_sublist; [exact Hs|].
    rewrite dedupSources_firstSeen. apply firstSeen_sublist. }
  apply list_elem_of_In, List.in_flat_map in Hin as (v & Hv & Hsv).
  exists v. split; [exact Hv|]. rewrite sourcesOfEntry_plain in Hsv by exact Hlang.
  destruct (hasUrlOrTitle v); [|destruct Hsv].
  destruct Hsv as [<-|[]]. easy.
Qed.

Lemma flat_map_short {A B} (f : A -> list B) (l : list A) :
  (forall x, length (f x) <= 1) -> length (flat_map f l) <= length l.
Proof.
  intros Hf. induction l as [|x l IH]; cbn; [lia|].
  rewrite length_app. specialize (Hf x). lia.
Qed.

(** X24. The sources of a result come from the matches of the store: each
    source has the identifier of a match that has a text, there are at most
    as many sources as retained matches, and no two sources share a URL. *)
Theorem sources_come_from_matches
    (titleDictionary : gmap jsstring jsstring) (lang : jsstring) (fallback : bool)
    (queryRes : list Match) :
  exists res,
    assemble titleDictionary lang fallback queryRes = Ok res /\
    length (sources res) <= length (retained lang fallback queryRes) /\
    length (retained lang fallback queryRes) <= length queryRes /\
    List.NoDup (List.map source_url (sources res)) /\
    Forall (fun s => exists m md,
                In m queryRes /\ metadata m = Some md /\
                present (text md) = true /\
                source_id s = match_id m /\
                source_source s = orElse (source md) (match_id m))
           (sources res).
Proof.
  rewrite assemble_eq. eexists. split; [reflexivity|]. cbn [sources].
  rewrite dedupSources_firstSeen.
  pose proof (firstSeen_sublist
                (flat_map (sourcesOfEntry titleDictionary lang)
                   (retained lang fallback queryRes)) ∅) as Hsub.
  split; [|split; [|split]].
  - apply sublist_length in Hsub. etransitivity; [exact Hsub|].
    apply flat_map_short. intros v. apply sourcesOfEntry_short.
  - unfold retained.
    assert (Hvalid : length (toEntries (validMatches queryRes)) <= length queryRes).
    { etransitivity; [|unfold validMatches; apply List.filter_length_le].
      unfold toEntries. apply flat_map_short.
      intros m. destruct (metadata m); cbn; lia. }
    destruct fallback; [|exact Hvalid].
    etransitivity; [apply List.filter_length_le | exact Hvalid].
  - apply firstSeen_NoDup.
  - apply Forall_forall. intros s Hs.
    assert (Hin : s ∈ flat_map (sourcesOfEntry titleDictionary lang)
                        (retained lang fallback queryRes))
      by (eapply elem_of_sublist; [exact Hs | exact Hsub]).
    apply list_elem_of_In, List.in_flat_map in Hin as (v & Hv & Hsv).
    destruct (sourcesOfEntry_short titleDictionary lang v) as [_ Hall].
    rewrite List.Forall_forall in Hall. destruct (Hall s Hsv) as [Hid Hsrc].
    apply retained_from in Hv as (m & Hm & Hmd & Hmid & Htext).
    exists m, (entry_metadata v). repeat split; try easy; [congruence|].
    rewrite Hsrc. unfold sourceOf. now rewrite Hmid.
Qed.

End Sources.

Import Samples.

Lemma english_fallback_keeps_some_match_witness :
  retained en true [chunk0; enChunk; bareMatch] <> [] /\
  exists res,
    assemble (H := plainUrlApi) sampleDictionary en true [chunk0; enChunk; bareMatch]
    = Ok res /\
    contexts res <> [].
Proof.
  apply (english_fallback_keeps_some_match (H := plainUrlApi) sampleDictionary
           [chunk0; enChunk; bareMatch]).
  vm_compute. discriminate.
Defined.

Lemma only_english_requests_translate_witness :
  assemble (H := plainUrlApi) sampleDictionary zh true [chunk0; enChunk]
  = assemble (H := plainUrlApi) ∅ zh true [chunk0; enChunk] /\
  exists res,
    assemble (H := plainUrlApi) sampleDictionary zh true [chunk0; enChunk] = Ok res /\
    Forall (fun s => exists v,
                In v (retained zh true [chunk0; enChunk]) /\
                source_id s = entry_id v /\
                source_url s = originalUrl v /\
                source_title s = Str (originalTitle v))
           (sources res).
Proof.
  apply (only_english_requests_translate (H := plainUrlApi) sampleDictionary ∅ zh true
           [chunk0; enChunk]).
  discriminate.
Defined.

End RetrieverMoreProps.

(** ** More on the chunker *)

Module ChunkMoreProps.
Import Chunk ChunkProps.

Lemma blank_trimStart s : nonWs s = [] -> dropWhile isWs s = [].
Proof.
  induction s as [|c s IH]; [reflexivity|]. unfold nonWs in *.
  cbn [List.filter dropWhile].
  destruct (isWs c); cbn [negb]; [exact IH | discriminate].
Qed.

Lemma blank_trim s : nonWs s = [] -> trim s = [].
Proof.
  intros Hs. unfold trim, trimStart. now rewrite (blank_trimStart s Hs).
Qed.

Lemma takeWhile_hash_blank rest :
  nonWs rest = [] -> length (takeWhile (N.eqb 35) rest) = 0.
Proof.
  destruct rest as [|c rest]; [reflexivity|]. unfold nonWs. cbn [List.filter takeWhile].
  destruct (isWs c) eqn:Hws; cbn [negb]; [|discriminate]. intros _.
  destruct (N.eqb 35 c) eqn:Hc; [|reflexivity].
  apply N.eqb_eq in Hc. subst c. discriminate Hws.
Qed.

Lemma blank_no_heading rest :
  forall lineStart, nonWs rest = [] -> headingFrom lineStart rest = false.
Proof.
  induction rest as [|c rest IH]; intros lineStart Hblank; [reflexivity|].
  cbn [headingFrom]. unfold matchHeading.
  rewrite (takeWhile_hash_blank _ Hblank). cbn [Nat.leb andb].
  rewrite andb_false_r. cbn [andb orb]. apply IH.
  unfold nonWs in *. cbn [List.filter] in Hblank.
  destruct (isWs c); cbn [negb] in Hblank; [exact Hblank | discriminate].
Qed.

(** X25. An input of white space only gives no chunk, whatever [maxLen]
    is; an input without a heading marker that is not longer than [maxLen]
    and not blank gives one chunk, the trimmed input. *)
Theorem chunkText_small_inputs (input : jsstring) (maxLen : Z) :
  (nonWs input = [] -> chunkText input maxLen = []) /\
  (hasHeading input = false -> (Z.of_nat (length input) <= maxLen)%Z ->
   trim input <> [] ->
   chunkText input maxLen = [trim input]).
Proof.
  split.
  - intros Hblank.
    assert (Hcontent : nonWs (concat (chunkText input maxLen)) = []).
    { unfold chunkText. rewrite fold_chunkSection_nonWs. cbn [concat nonWs List.filter app].
      rewrite workList_free_nonWs; [exact Hblank|].
      now apply blank_no_heading. }
    assert (Hok : Forall (chunkOk maxLen (workList input)) (chunkText input maxLen)).
    { unfold chunkText. apply fold_chunkSection_ok; [easy | constructor]. }
    destruct (chunkText input maxLen) as [|c chunks]; [reflexivity|]. exfalso.
    apply List.Forall_cons_iff in Hok as [(Hne & Htrim & _) _].
    cbn [concat] in Hcontent. rewrite nonWs_app in Hcontent.
    apply app_eq_nil in Hcontent as [Hc _].
    apply blank_trim in Hc. congruence.
  - intros Hfree Hshort Hne.
    assert (Htruthy : truthy (trim input) = true) by now apply truthy_true.
    unfold chunkText, workList, sections, splitHeadings.
    rewrite (splitHeadingsFrom_free _ _ _ Hfree). cbn [rev app List.map List.filter].
    rewrite Htruthy. cbn [fold_left]. unfold chunkSection.
    pose proof (trim_length input) as Hlen.
    replace (Z.of_nat (length (trim input)) <=? maxLen)%Z with true
      by (symmetry; apply Z.leb_le; lia).
    unfold pushChunk. rewrite trim_idem, Htruthy. reflexivity.
Qed.

End ChunkMoreProps.

(** ** The URLs of a post in its two languages *)

Module PostUrlsProps.
Import Retriever Ingest PostUrls.

Lemma slugChar_pathChar c : slugChar c = true -> PlainUrl.pathChar c = true.
Proof.
  unfold slugChar, PlainUrl.pathChar. intros E.
  rewrite !orb_true_iff in E. rewrite !orb_true_iff. tauto.
Qed.

Lemma slugChar_not_slash c : slugChar c = true -> c <> 47%N /\ c <> 92%N.
Proof. intros E. split; intros ->; vm_compute in E; discriminate. Qed.

Lemma includes_app_l (s t p : jsstring) :
  includes s p = true -> includes (s ++ t) p = true.
Proof.
  assert (Hstart : forall p s t, startsWith s p = true -> startsWith (s ++ t) p = true).
  { clear. induction p as [|a p IH]; intros s t; [now destruct s|].
    destruct s as [|b s]; cbn; [discriminate|].
    destruct (a =? b)%N; cbn; [apply IH | discriminate]. }
  induction s as [|c s IH]; cbn [includes app].
  - rewrite orb_false_r. intros E. destruct p; [now destruct t | discriminate].
  - intros E. apply orb_true_iff in E as [E|E].
    + apply (Hstart p (c :: s) t) in E. cbn [app] in E. now rewrite E.
    + rewrite (IH E). apply orb_true_r.
Qed.

Lemma includes_app_r (s t p : jsstring) :
  includes t p = true -> includes (s ++ t) p = true.
Proof.
  intros E. induction s as [|c s IH]; [exact E|].
  cbn [app includes]. rewrite IH. apply orb_true_r.
Qed.

Lemma slug_no_slashes slug :
  forallb slugChar slug = true -> includes slug (lit "//") = false.
Proof.
  induction slug as [|c slug IH]; [reflexivity|]. cbn [forallb]. intros E.
  apply andb_true_iff in E as [Hc Hrest]. cbn [includes]. rewrite (IH Hrest).
  rewrite orb_false_r. change (lit "//") with [47; 47]%N.
  cbn [startsWith]. destruct (slugChar_not_slash c Hc) as [Hne _].
  replace (47 =? c)%N with false by (symmetry; apply N.eqb_neq; congruence).
  reflexivity.
Qed.

Lemma slug_head slug :
  forallb slugChar slug = true -> startsWith slug (lit "/") = false.
Proof.
  destruct slug as [|c slug]; [reflexivity|]. cbn [forallb]. intros E.
  apply andb_true_iff in E as [Hc _]. change (lit "/") with [47%N]. cbn [startsWith].
  destruct (slugChar_not_slash c Hc) as [Hne _].
  replace (47 =? c)%N with false by (symmetry; apply N.eqb_neq; congruence).
  reflexivity.
Qed.

Lemma forallb_slug_path slug :
  forallb slugChar slug = true -> forallb PlainUrl.pathChar slug = true.
Proof.
  intros E. apply forallb_forall. intros c Hc.
  apply slugChar_pathChar. rewrite forallb_forall in E. now apply E.
Qed.

(** The two paths of a post are paths that the URL class takes as they
    are. *)
Lemma plainPath_blog slug :
  forallb slugChar slug = true ->
  PlainUrl.plainPath (lit "/blog/" ++ slug) = true /\
  PlainUrl.plainPath (lit "/en/blog/" ++ slug) = true.
Proof.
  intros Hslug. pose proof (slug_no_slashes slug Hslug) as Hno.
  pose proof (slug_head slug Hslug) as Hhead.
  pose proof (forallb_slug_path slug Hslug) as Hpath.
  assert (Hcut : startsWith (47%N :: slug) (lit "//") = false).
  { change (lit "//") with [47; 47]%N. cbn [startsWith]. rewrite N.eqb_refl.
    cbn [andb]. exact Hhead. }
  unfold PlainUrl.plainPath. rewrite !forallb_app, Hpath.
  split; (apply andb_true_iff; split; [reflexivity|]); apply negb_true_iff.
  - change (lit "/blog/" ++ slug) with ([47; 98; 108; 111; 103]%N ++ 47%N :: slug).
    cbn [app includes]. rewrite Hcut, Hno. reflexivity.
  - change (lit "/en/blog/" ++ slug)
      with ([47; 101; 110; 47; 98; 108; 111; 103]%N ++ 47%N :: slug).
    cbn [app includes]. rewrite Hcut, Hno. reflexivity.
Qed.

(** What the URL class gives for a base it accepts. *)
Lemma parse_inv base b :
  PlainUrl.parse base = Some b ->
  (PlainUrl.scheme b = lit "https:" \/ PlainUrl.scheme b = lit "http:") /\
  PlainUrl.plainHost (PlainUrl.host b) = true.
Proof.
  unfold PlainUrl.parse, PlainUrl.splitScheme.
  destruct (startsWith base (lit "https://")).
  - destruct (PlainUrl.plainHost _) eqn:Hh; cbn [andb]; [|discriminate].
    destruct (PlainUrl.plainPath _); [|discriminate].
    intros E. injection E as <-. cbn. auto.
  - destruct (startsWith base (lit "http://")); [|discriminate].
    destruct (PlainUrl.plainHost _) eqn:Hh; cbn [andb]; [|discriminate].
    destruct (PlainUrl.plainPath _); [|discriminate].
    intros E. injection E as <-. cbn. auto.
Qed.

Lemma host_no_slash h t :
  forallb PlainUrl.hostChar h = true ->
  takeWhile (fun c => negb (c =? 47)%N) (h ++ 47%N :: t) = h /\
  dropWhile (fun c => negb (c =? 47)%N) (h ++ 47%N :: t) = 47%N :: t.
Proof.
  induction h as [|c h IH]; cbn [forallb app takeWhile dropWhile].
  - intros _. rewrite N.eqb_refl. cbn. easy.
  - intros E. apply andb_true_iff in E as [Hc Hh].
    assert (Hne : (c =? 47)%N = false).
    { destruct (c =? 47)%N eqn:E47; [|reflexivity].
      apply N.eqb_eq in E47. subst c. discriminate Hc. }
    rewrite Hne. cbn [negb]. destruct (IH Hh) as [-> ->]. easy.
Qed.

(** Reading back the URL that the class wrote. *)
Lemma parse_serialise sch h p :
  sch = lit "https:" \/ sch = lit "http:" ->
  PlainUrl.plainHost h = true ->
  PlainUrl.plainPath (47%N :: p) = true ->
  PlainUrl.parse (PlainUrl.serialise (PlainUrl.mk sch h (47%N :: p)))
  = Some (PlainUrl.mk sch h (47%N :: p)).
Proof.
  intros Hsch Hh Hp.
  assert (Hchars : forallb PlainUrl.hostChar h = true).
  { unfold PlainUrl.plainHost in Hh. destruct h; [discriminate|].
    now apply andb_true_iff in Hh as [_ Hh]. }
  destruct (host_no_slash h p Hchars) as [Htake Hdrop].
  unfold PlainUrl.parse, PlainUrl.serialise. cbn [PlainUrl.scheme PlainUrl.host PlainUrl.path].
  destruct Hsch as [-> | ->].
  - change (lit "https:" ++ lit "//" ++ h ++ 47%N :: p)
      with (lit "https://" ++ h ++ 47%N :: p).
    assert (E : PlainUrl.splitScheme (lit "https://" ++ h ++ 47%N :: p)
                = Some (lit "https:", h ++ 47%N :: p)) by reflexivity.
    rewrite E, Htake, Hdrop, Hh, Hp. reflexivity.
  - change (lit "http:" ++ lit "//" ++ h ++ 47%N :: p)
      with (lit "http://" ++ h ++ 47%N :: p).
    assert (E : PlainUrl.splitScheme (lit "http://" ++ h ++ 47%N :: p)
                = Some (lit "http:", h ++ 47%N :: p)) by reflexivity.
    rewrite E, Htake, Hdrop, Hh, Hp. reflexivity.
Qed.

(** X26. The URLs that the ingestion gives the two versions of a post and
    the conversion of the retriever agree: for a slug of letters, digits,
    [-], [_] and [~] that does not begin with [index], converting the URL of
    the Chinese version for English gives the URL of the English version,
    which carries the marker [/en/]. The URL class is the one of the
    examples and the base any URL that it accepts. *)
Theorem converted_url_is_url_of_english_post (base slug : jsstring) :
  is_Some (PlainUrl.parse base) ->
  forallb slugChar slug = true ->
  slug <> [] ->
  startsWith slug (lit "index") = false ->
  exists zhUrl enUrl,
    toUrlFromPath (H := plainUrlApi) base (zhFile slug) = Ok (zhUrl, zh) /\
    toUrlFromPath (H := plainUrlApi) base (enFile slug) = Ok (enUrl, en) /\
    convertUrlForLanguage (H := plainUrlApi) zhUrl en = Ok enUrl /\
    includes enUrl enMarker = true.
Proof.
  intros [b Hbase] Hslug Hne Hindex.
  assert (Hclean : Forall (fun c => c <> 47%N /\ c <> 92%N) slug).
  { apply Forall_forall. intros c Hc. apply slugChar_not_slash.
    rewrite forallb_forall in Hslug. apply Hslug. now apply list_elem_of_In. }
  destruct (plainPath_blog slug Hslug) as [Hzh Hen].
  destruct (parse_inv base b Hbase) as [Hsch Hhost].
  set (sch := PlainUrl.scheme b) in *. set (h := PlainUrl.host b) in *.
  exists (sch ++ lit "//" ++ h ++ lit "/blog/" ++ slug),
         (sch ++ lit "//" ++ h ++ lit "/en/blog/" ++ slug).
  split; [|split; [|split]].
  - unfold zhFile.
    rewrite (IngestProps.toUrlFromPath_zh_blog base slug Hclean Hne Hindex).
    unfold constructURL. cbn [newURL plainUrlApi]. unfold PlainUrl.construct.
    rewrite Hbase, Hzh. reflexivity.
  - unfold enFile.
    rewrite (IngestProps.toUrlFromPath_en_blog base slug Hclean Hne Hindex).
    unfold constructURL. cbn [newURL plainUrlApi]. unfold PlainUrl.construct.
    rewrite Hbase, Hen. reflexivity.
  - unfold convertUrlForLanguage.
    assert (Hfirst : exists c rest, sch ++ lit "//" ++ h ++ lit "/blog/" ++ slug
                                    = c :: rest /\ c <> 35%N).
    { destruct Hsch as [-> | ->]; eexists; eexists; (split; [reflexivity | discriminate]). }
    destruct Hfirst as (c & rest & Hurl & Hc).
    assert (Hskip : is_empty (sch ++ lit "//" ++ h ++ lit "/blog/" ++ slug)
                    || str_eqb (sch ++ lit "//" ++ h ++ lit "/blog/" ++ slug) placeholder
                    = false).
    { rewrite Hurl. cbn [is_empty orb]. apply RetrieverProps.str_eqb_neq.
      intros E. injection E as E _. contradiction. }
    rewrite Hskip. unfold constructURL. cbn [newURL plainUrlApi]. unfold PlainUrl.construct.
    pose proof (parse_serialise sch h (lit "blog/" ++ slug) Hsch Hhost Hzh) as Hparse.
    unfold PlainUrl.serialise in Hparse.
    cbn [PlainUrl.scheme PlainUrl.host PlainUrl.path] in Hparse.
    change (47%N :: lit "blog/" ++ slug) with (lit "/blog/" ++ slug) in Hparse.
    rewrite Hparse. cbn [bindR tryCatchR pathname setPathname toString plainUrlApi
                          PlainUrl.path].
    rewrite RetrieverProps.str_eqb_refl. reflexivity.
  - apply includes_app_r, includes_app_r, includes_app_r.
    apply includes_app_l. reflexivity.
Qed.

Lemma converted_url_is_url_of_english_post_witness :
  exists zhUrl enUrl,
    toUrlFromPath (H := plainUrlApi) defaultBaseUrl (zhFile (lit "test-post"))
    = Ok (zhUrl, zh) /\
    toUrlFromPath (H := plainUrlApi) defaultBaseUrl (enFile (lit "test-post"))
    = Ok (enUrl, en) /\
    convertUrlForLanguage (H := plainUrlApi) zhUrl en = Ok enUrl /\
    includes enUrl enMarker = true.
Proof.
  apply (converted_url_is_url_of_english_post defaultBaseUrl (lit "test-post")).
  - vm_compute. eexists. reflexivity.
  - reflexivity.
  - discriminate.
  - reflexivity.
Defined.

End PostUrlsProps.

(** ** The embedding providers *)

Module ProvidersProps.
Import Ingest FastIngest Providers.

Section WithProvider.
Context {Num : Type}.
Variables (geminiEmbedding : jsstring -> Res (list Num))
          (qwenEmbeddings : list jsstring -> Res (list (list Num))).

Lemma slice0_length (dim : Z) (v : list Num) :
  (0 <= dim)%Z -> (Z.of_nat (length (slice0 dim v)) <= dim)%Z.
Proof.
  intros Hdim. unfold slice0.
  replace (dim <? 0)%Z with false by (symmetry; apply Z.ltb_ge; lia).
  rewrite length_take. lia.
Qed.

(** X27. What the embedder of the worker returns: for Gemini one vector
    for each text, in order, each the answer to the request for that text;
    for Qwen one vector for each entry of the answer, none longer than the
    dimension asked for. Every other provider is refused. *)
Theorem embed_returns_vectors_of_the_provider PROVIDER texts dim :
  match embed geminiEmbedding qwenEmbeddings PROVIDER texts dim with
  | Ok vectors =>
      (PROVIDER = gemini /\
       Forall2 (fun text v => geminiEmbedding text = Ok v) texts vectors) \/
      (PROVIDER = qwen /\
       exists data,
         qwenEmbeddings texts = Ok data /\
         Forall2 (fun embedding v =>
                    v `prefix_of` embedding /\
                    ((0 <= dim)%Z -> (Z.of_nat (length v) <= dim)%Z))
                 data vectors)
  | Throw e =>
      (PROVIDER = gemini /\ exists text, In text texts /\ geminiEmbedding text = Throw e) \/
      (PROVIDER = qwen /\ qwenEmbeddings texts = Throw e) \/
      (PROVIDER <> gemini /\ PROVIDER <> qwen /\ e = mkError (lit "Unknown PROVIDER"))
  end.
Proof.
  unfold embed. destruct (str_eqb PROVIDER gemini) eqn:Hg.
  { apply RetrieverProps.str_eqb_eq in Hg.
    destruct (mapR geminiEmbedding texts) as [vectors|e] eqn:Hmap.
    - left. split; [exact Hg|]. now apply WorkerProps.mapR_Ok.
    - left. split; [exact Hg|]. clear -Hmap.
      induction texts as [|t texts IH]; cbn in Hmap; [discriminate|].
      destruct (geminiEmbedding t) as [v|e'] eqn:Ht; cbn in Hmap.
      + destruct (mapR geminiEmbedding texts) as [vs|e'']; cbn in Hmap; [discriminate|].
        injection Hmap as ->. destruct (IH eq_refl) as (text & Hin & Htext).
        exists text. split; [now right | exact Htext].
      + injection Hmap as ->. exists t. split; [now left | exact Ht]. }
  apply RetrieverProps.str_eqb_neq in Hg.
  destruct (str_eqb PROVIDER qwen) eqn:Hq.
  - apply RetrieverProps.str_eqb_eq in Hq.
    destruct (qwenEmbeddings texts) as [data|e]; cbn [bindR]; [|now right; left].
    right. split; [exact Hq|]. exists data. split; [reflexivity|].
    clear. induction data as [|embedding data IH]; cbn [List.map]; constructor;
      [|exact IH].
    destruct (dim <? Z.of_nat (length embedding))%Z eqn:Hlong.
    + split; [|now apply slice0_length]. unfold slice0.
      destruct (dim <? 0)%Z; apply prefix_take.
    + apply Z.ltb_ge in Hlong. split; [reflexivity | intros _; exact Hlong].
  - apply RetrieverProps.str_eqb_neq in Hq. right. right. easy.
Qed.

Section WithIngestion.
Context `{UrlApi}.
Variables (zero : Num) (sha256hex : jsstring -> jsstring)
          (markdownToPlain : jsstring -> jsstring)
          (EMBED_DIM : Z) (BASE_URL : jsstring).

(** X28. With Gemini, every item of a file carries the embedding of its
    own chunk, brought to [EMBED_DIM] numbers; and when Gemini answers every
    request, a file that is not a draft gives one item for each chunk. *)
Theorem gemini_items_carry_embedding_of_their_chunk relPath fm items :
  processFile zero sha256hex markdownToPlain gemini EMBED_DIM BASE_URL
    (fun _ => getBatchEmbeddings geminiEmbedding qwenEmbeddings gemini EMBED_DIM)
    relPath fm = Ok items ->
  Forall (fun it =>
            exists chunk vector,
              In chunk (Chunk.chunkText (markdownToPlain (content fm)) 800) /\
              item_text it = storedText chunk /\
              geminiEmbedding chunk = Ok vector /\
              item_vector it = ensureDimensions zero EMBED_DIM vector)
         items /\
  ((forall text, exists v, geminiEmbedding text = Ok v) ->
   draft fm = false ->
   length items = length (Chunk.chunkText (markdownToPlain (content fm)) 800)).
Proof.
  intros Hrun.
  pose proof (FastIngestProps.processFile_inv zero sha256hex markdownToPlain gemini
                EMBED_DIM BASE_URL _ relPath fm items Hrun) as Hinv.
  split.
  - destruct Hinv as [[-> _]|(_ & baseUrl & language & indices & _ & Hall & _)];
      [constructor|].
    unfold chunksOf in Hall. clear Hrun.
    induction Hall
      as [|idx it indices items' (text & vector & Ht & -> & i & vectors & Hi & Hv & Hk) _ IH];
      constructor; [|exact IH].
    exists text, vector. cbn [item_text item_vector makeItem].
    split; [apply list_elem_of_In; eapply list_elem_of_lookup_2; exact Ht|].
    split; [reflexivity|]. split; [|reflexivity].
    unfold getBatchEmbeddings in Hv. rewrite RetrieverProps.str_eqb_refl in Hv.
    unfold EMBEDDING_BATCH_SIZE in Hv. rewrite RetrieverProps.str_eqb_refl in Hv.
    destruct (drop i (Chunk.chunkText (markdownToPlain (content fm)) 800))
      as [|c rest] eqn:Hdrop; cbn in Hv.
    { injection Hv as <-. destruct (idx - i); discriminate Hk. }
    rewrite take_0 in Hv. cbn in Hv.
    destruct (geminiEmbedding c) as [v|e] eqn:Hc; cbn in Hv; [|discriminate].
    injection Hv as <-.
    destruct (idx - i) as [|k] eqn:Hoff; cbn in Hk; [|destruct k; discriminate Hk].
    injection Hk as <-.
    assert (idx = i) by lia. subst idx.
    assert (Hci : Chunk.chunkText (markdownToPlain (content fm)) 800 !! i = Some c).
    { rewrite <- (Nat.add_0_r i), <- lookup_drop, Hdrop. reflexivity. }
    rewrite Ht in Hci. injection Hci as ->. exact Hc.
  - intros Hgood Hdraft.
    destruct Hinv as [[-> [Hd|Hnil]]|(_ & baseUrl & language & indices & _ & Hall & _ & Hfull)].
    + congruence.
    + unfold chunksOf in Hnil. now rewrite Hnil.
    + assert (Hindices : indices = seq 0 (length (chunksOf markdownToPlain fm))).
      { apply Hfull. intros j chunkBatch. unfold getBatchEmbeddings.
        rewrite RetrieverProps.str_eqb_refl.
        assert (Hall' : exists vectors, mapR geminiEmbedding chunkBatch = Ok vectors /\
                                        length vectors = length chunkBatch).
        { clear -Hgood. induction chunkBatch as [|t chunkBatch (vs & Hvs & Hlen)];
            [now exists []|].
          destruct (Hgood t) as [v Hv]. exists (v :: vs). cbn. rewrite Hv. cbn.
          rewrite Hvs. cbn. split; [reflexivity | now rewrite Hlen]. }
        destruct Hall' as (vectors & -> & Hlen). exists vectors. split; [reflexivity | lia]. }
      apply Forall2_length in Hall. rewrite <- Hall, Hindices, length_seq. reflexivity.
Qed.

End WithIngestion.
End WithProvider.

Import FastSamples ProviderSamples.

Lemma gemini_items_carry_embedding_of_their_chunk_witness :
  let items :=
    match processFile (H := plainUrlApi) 0%Z sampleDigest (fun s => s) gemini 4%Z
            defaultBaseUrl
            (fun _ => getBatchEmbeddings threeNumbers fiveNumbers gemini 4%Z)
            samplePath samplePost with
    | Ok items => items
    | Throw _ => []
    end in
  Forall (fun it =>
            exists chunk vector,
              In chunk (Chunk.chunkText (content samplePost) 800) /\
              item_text it = storedText chunk /\
              threeNumbers chunk = Ok vector /\
              item_vector it = ensureDimensions 0%Z 4%Z vector)
         items /\
  ((forall text, exists v, threeNumbers text = Ok v) ->
   draft samplePost = false ->
   length items = length (Chunk.chunkText (content samplePost) 800)).
Proof.
  apply (gemini_items_carry_embedding_of_their_chunk threeNumbers fiveNumbers
           (H := plainUrlApi) 0%Z sampleDigest (fun s => s) 4%Z defaultBaseUrl
           samplePath samplePost).
  vm_compute. reflexivity.
Defined.

End ProvidersProps.

(** ** Markdown to plain text *)

Module MdProps.
Import Md.

Lemma replaceAll_cons matchAt r c s' :
  replaceAll matchAt r (c :: s')
  = match matchAt (c :: s') with
    | Some m => r ++ replaceAll matchAt r (drop (m - 1) s')
    | None => c :: replaceAll matchAt r s'
    end.
Proof. simp replaceAll. now destruct (matchAt (c :: s')). Qed.

Lemma trim_middle s : exists a b, s = a ++ trim s ++ b.
Proof.
  unfold trim, trimStart. destruct (trimEnd_prefix (dropWhile isWs s)) as [b Hb].
  exists (takeWhile isWs s), b. rewrite <- Hb. symmetry. apply takeWhile_dropWhile.
Qed.

(** *** Strings without [>] and strings without a tag *)

Lemma noGt_app a b : noGt (a ++ b) = noGt a && noGt b.
Proof. apply forallb_app. Qed.

Lemma noGt_drop n s : noGt s = true -> noGt (drop n s) = true.
Proof.
  intros Hs. rewrite <- (take_drop n s) in Hs. rewrite noGt_app in Hs.
  now apply andb_true_iff in Hs as [_ Hs].
Qed.

Lemma noGt_head s : noGt s = true -> startsWith s [62%N] = false.
Proof.
  destruct s as [|c s]; [reflexivity|]. cbn [noGt forallb startsWith]. intros E.
  apply andb_true_iff in E as [Hc _]. apply negb_true_iff in Hc.
  rewrite N.eqb_sym, Hc. reflexivity.
Qed.

Lemma startsWith_gt s : startsWith s [62%N] = true -> exists t, s = 62%N :: t.
Proof.
  destruct s as [|d s]; [discriminate|]. cbn [startsWith].
  destruct (62 =? d)%N eqn:Hd; [|discriminate]. apply N.eqb_eq in Hd. subst d.
  intros _. now exists s.
Qed.

Lemma noGt_tagFree s : noGt s = true -> tagFree s = true.
Proof.
  induction s as [|c s IH]; [reflexivity|]. cbn [noGt forallb tagFree]. intros E.
  apply andb_true_iff in E as [_ Hs]. fold (noGt s) in Hs.
  destruct (c =? 60)%N; [|now apply IH].
  now rewrite (noGt_head s Hs).
Qed.

Lemma tagFree_open s : noGt s = true -> tagFree (60%N :: s) = true.
Proof. intros Hs. cbn [tagFree]. rewrite N.eqb_refl, (noGt_head s Hs). exact Hs. Qed.

Lemma tagFree_tail c s : tagFree (c :: s) = true -> tagFree s = true.
Proof.
  cbn [tagFree]. destruct (c =? 60)%N; [|easy].
  destruct (startsWith s [62%N]); [easy | apply noGt_tagFree].
Qed.

Lemma tagFree_drop n s : tagFree s = true -> tagFree (drop n s) = true.
Proof.
  revert s. induction n as [|n IH]; intros s Hs; [exact Hs|].
  destruct s as [|c s]; [reflexivity|]. cbn [drop]. apply IH.
  now apply tagFree_tail in Hs.
Qed.

Lemma startsWith_gt_app a b :
  a <> [] -> startsWith (a ++ b) [62%N] = startsWith a [62%N].
Proof. destruct a as [|c a]; [easy|]. intros _. cbn. now destruct (62 =? c)%N. Qed.

Lemma tagFree_prefix a b : tagFree (a ++ b) = true -> tagFree a = true.
Proof.
  induction a as [|c a IH]; [reflexivity|]. cbn [app tagFree].
  destruct (c =? 60)%N; [|exact IH].
  destruct a as [|d a]; [intros _; reflexivity|].
  rewrite startsWith_gt_app by discriminate.
  destruct (startsWith (d :: a) [62%N]); [exact IH|].
  rewrite noGt_app. intros E. now apply andb_true_iff in E as [E _].
Qed.

Lemma tagFree_middle a m b : tagFree (a ++ m ++ b) = true -> tagFree m = true.
Proof.
  intros E. apply tagFree_prefix with b.
  replace (m ++ b) with (drop (length a) (a ++ m ++ b)) by apply drop_app_length.
  now apply tagFree_drop.
Qed.

(** A string without a tag has no match of the expression of the tags, at
    any position. *)
Lemma tagFree_no_match s :
  tagFree s = true -> forall a b, s = a ++ b -> tagMatch b = None.
Proof.
  intros Hs a b ->.
  assert (Hb : tagFree b = true).
  { replace b with (drop (length a) (a ++ b)) by apply drop_app_length.
    now apply tagFree_drop. }
  clear Hs. destruct b as [|c s]; [reflexivity|]. cbn [tagFree] in Hb.
  unfold tagMatch. destruct (c =? 60)%N; [|reflexivity]. cbv zeta.
  destruct (startsWith s [62%N]) eqn:Hgt.
  - destruct (startsWith_gt _ Hgt) as [t Ht]. subst s. rename t into s.
    reflexivity.
  - assert (Hall : takeWhile (fun c => negb (c =? 62)%N) s = s).
    { clear Hgt. induction s as [|d s IH]; [reflexivity|]. cbn in Hb |- *.
      apply andb_true_iff in Hb as [Hd Hrest]. rewrite Hd. f_equal. now apply IH. }
    rewrite Hall, drop_all. cbn [startsWith]. now rewrite andb_false_r.
Qed.

(** *** The replacements keep a string without a tag as it is *)

Section Replacing.
Variable matchAt : jsstring -> option nat.
(** A match starts with a character that is no angle bracket and holds no
    [<]. *)
Hypothesis match_plain :
  forall c s m,
    matchAt (c :: s) = Some m ->
    (c =? 60)%N = false /\ (c =? 62)%N = false /\
    exists e rest, s = e ++ rest /\ drop (m - 1) s = rest /\
                   forallb (fun c => negb (c =? 60)%N) e = true.

Lemma noGt_replaceAll n :
  forall s, length s <= n -> noGt s = true -> noGt (replaceAll matchAt space s) = true.
Proof.
  induction n as [|n IH]; intros s Hn Hs.
  - destruct s; [reflexivity | cbn in Hn; lia].
  - destruct s as [|c s]; [reflexivity|]. rewrite replaceAll_cons.
    cbn [noGt forallb] in Hs. apply andb_true_iff in Hs as [Hc Hs]. fold (noGt s) in Hs.
    destruct (matchAt (c :: s)) as [m|].
    + cbn [space app noGt forallb]. apply IH.
      * rewrite length_drop. cbn in Hn. lia.
      * now apply noGt_drop.
    + cbn [noGt forallb]. rewrite Hc. apply IH; [cbn in Hn; lia | exact Hs].
Qed.

Lemma tagFree_skip e rest :
  forallb (fun c => negb (c =? 60)%N) e = true ->
  tagFree (e ++ rest) = tagFree rest.
Proof.
  induction e as [|c e IH]; [reflexivity|]. cbn [forallb app tagFree]. intros E.
  apply andb_true_iff in E as [Hc He]. apply negb_true_iff in Hc. rewrite Hc.
  now apply IH.
Qed.

Lemma tagFree_replaceAll n :
  forall s, length s <= n -> tagFree s = true ->
            tagFree (replaceAll matchAt space s) = true.
Proof.
  induction n as [|n IH]; intros s Hn Hs.
  - destruct s; [reflexivity | cbn in Hn; lia].
  - destruct s as [|c s]; [reflexivity|]. rewrite replaceAll_cons.
    destruct (matchAt (c :: s)) as [m|] eqn:Hm.
    + destruct (match_plain c s m Hm) as (Hlt & _ & e & rest & Hsplit & Hdrop & He).
      cbn [space app tagFree]. change (32 =? 60)%N with false.
      rewrite Hdrop. apply IH.
      * rewrite <- Hdrop, length_drop. cbn in Hn. lia.
      * cbn [tagFree] in Hs. rewrite Hlt, Hsplit, (tagFree_skip e rest He) in Hs. exact Hs.
    + cbn [tagFree] in Hs |- *. destruct (c =? 60)%N.
      * destruct (startsWith s [62%N]) eqn:Hgt.
        -- destruct (startsWith_gt _ Hgt) as [t Ht]. subst s. rename t into s.
           assert (Hnone : matchAt (62%N :: s) = None).
           { destruct (matchAt (62%N :: s)) as [m|] eqn:Hm2; [|reflexivity].
             destruct (match_plain _ _ _ Hm2) as (_ & Hgt2 & _). discriminate. }
           assert (Hrest : tagFree (replaceAll matchAt space (62%N :: s)) = true).
           { apply IH; [cbn in Hn |- *; lia | exact Hs]. }
           rewrite replaceAll_cons, Hnone in Hrest |- *. cbn [startsWith].
           rewrite N.eqb_refl. cbn [andb]. destruct (replaceAll matchAt space s); exact Hrest.
        -- assert (Hno : noGt (replaceAll matchAt space s) = true).
           { apply (noGt_replaceAll n); [cbn in Hn; lia | exact Hs]. }
           now rewrite (noGt_head _ Hno).
      * apply IH; [cbn in Hn; lia | exact Hs].
Qed.

End Replacing.

(** The expression of the entities matches such strings. *)
Lemma entityMatch_plain c s m :
  entityMatch (c :: s) = Some m ->
  (c =? 60)%N = false /\ (c =? 62)%N = false /\
  exists e rest, s = e ++ rest /\ drop (m - 1) s = rest /\
                 forallb (fun c => negb (c =? 60)%N) e = true.
Proof.
  unfold entityMatch. destruct (List.find (startsWith (c :: s)) entities) as [e|] eqn:Hfind;
    [|discriminate].
  intros E. injection E as <-. apply List.find_some in Hfind as [Hin Hstart].
  apply IngestProps.startsWith_app in Hstart.
  assert (Hshape : exists e', e = 38%N :: e' /\
                              forallb (fun c => negb (c =? 60)%N) e' = true).
  { unfold entities in Hin. cbn [In] in Hin.
    destruct Hin as [<-|[<-|[<-|[<-|[<-|[<-|[]]]]]]]; eexists; split; reflexivity. }
  destruct Hshape as (e' & -> & He'). cbn [app length drop] in Hstart.
  injection Hstart as -> Hs. split; [reflexivity|]. split; [reflexivity|].
  exists e', (drop (length e') s). cbn [length]. replace (S (length e') - 1) with (length e') by lia.
  easy.
Qed.

(** Without a tag after the tags are replaced. *)
Lemma takeWhile_all (f : N -> bool) s :
  dropWhile f s = [] -> forallb f s = true.
Proof.
  induction s as [|c s IH]; [reflexivity|]. cbn. destruct (f c); [exact IH | discriminate].
Qed.

Lemma dropWhile_drop (f : N -> bool) s :
  drop (length (takeWhile f s)) s = dropWhile f s.
Proof.
  induction s as [|c s IH]; [reflexivity|]. cbn. destruct (f c); [exact IH | reflexivity].
Qed.

Lemma dropWhile_head (f : N -> bool) s c rest :
  dropWhile f s = c :: rest -> f c = false.
Proof.
  induction s as [|d s IH]; [discriminate|]. cbn. destruct (f d) eqn:Hd; [exact IH|].
  intros E. now injection E as <- _.
Qed.

Lemma tagFree_stripTags n :
  forall s, length s <= n -> tagFree (replaceAll tagMatch space s) = true.
Proof.
  induction n as [|n IH]; intros s Hn.
  - destruct s; [reflexivity | cbn in Hn; lia].
  - destruct s as [|c s]; [reflexivity|]. rewrite replaceAll_cons.
    destruct (tagMatch (c :: s)) as [m|] eqn:Hm.
    + cbn [space app tagFree]. change (32 =? 60)%N with false. apply IH.
      rewrite length_drop. cbn in Hn. lia.
    + cbn [tagFree]. destruct (c =? 60)%N eqn:Hc; [|apply IH; cbn in Hn; lia].
      unfold tagMatch in Hm. rewrite Hc in Hm. cbv zeta in Hm.
      rewrite dropWhile_drop in Hm.
      destruct s as [|d s]; [reflexivity|].
      destruct (d =? 62)%N eqn:Hd.
      * apply N.eqb_eq in Hd. subst d.
        assert (Hnone : tagMatch (62%N :: s) = None) by reflexivity.
        pose proof (IH (62%N :: s) ltac:(cbn in Hn |- *; lia)) as Hrest.
        rewrite replaceAll_cons, Hnone in Hrest |- *. cbn [startsWith].
        rewrite N.eqb_refl. cbn [andb]. destruct (replaceAll tagMatch space s); exact Hrest.
      * assert (Hbody : (1 <=? length (takeWhile (fun c => negb (c =? 62)%N) (d :: s))) = true).
        { cbn [takeWhile]. rewrite Hd. reflexivity. }
        rewrite Hbody in Hm. cbn [andb] in Hm.
        destruct (dropWhile (fun c => negb (c =? 62)%N) (d :: s)) as [|g rest] eqn:Hdrop.
        -- apply takeWhile_all in Hdrop. fold (noGt (d :: s)) in Hdrop.
           assert (Hno : noGt (replaceAll tagMatch space (d :: s)) = true).
           { clear -Hdrop. remember (length (d :: s)) as k eqn:Hk.
             assert (Hlen : length (d :: s) <= k) by lia. clear Hk.
             revert Hlen Hdrop. generalize (d :: s). clear.
             induction k as [|k IHk]; intros s Hlen Hs.
             - destruct s; [reflexivity | cbn in Hlen; lia].
             - destruct s as [|c s]; [reflexivity|]. rewrite replaceAll_cons.
               cbn [noGt forallb] in Hs. apply andb_true_iff in Hs as [Hc Hs].
               fold (noGt s) in Hs.
               destruct (tagMatch (c :: s)).
               + cbn [space app noGt forallb]. apply IHk.
                 * rewrite length_drop. cbn in Hlen. lia.
                 * now apply noGt_drop.
               + cbn [noGt forallb]. rewrite Hc. apply IHk; [cbn in Hlen; lia | exact Hs]. }
           now rewrite (noGt_head _ Hno).
        -- apply dropWhile_head in Hdrop as Hg. apply negb_false_iff, N.eqb_eq in Hg.
           subst g. cbn in Hm. discriminate.
Qed.

(** *** The runs of white space *)

Section Collapsing.
Variables (inClass : N -> bool) (r : N).

Lemma noGt_collapseRuns s :
  (r =? 62)%N = false ->
  forall inRun, noGt s = true -> noGt (collapseRuns inClass r inRun s) = true.
Proof.
  intros Hr. induction s as [|c s IH]; intros inRun Hs; [reflexivity|].
  cbn [noGt forallb] in Hs. apply andb_true_iff in Hs as [Hc Hs]. fold (noGt s) in Hs.
  cbn [collapseRuns]. destruct (inClass c); [destruct inRun|]; cbn [noGt forallb];
    rewrite ?Hr, ?Hc; cbn [negb andb]; now apply IH.
Qed.

Lemma tagFree_collapseRuns s :
  (r =? 60)%N = false -> (r =? 62)%N = false ->
  inClass 60%N = false -> inClass 62%N = false ->
  forall inRun, tagFree s = true -> tagFree (collapseRuns inClass r inRun s) = true.
Proof.
  intros Hr60 Hr62 H60 H62. induction s as [|c s IH]; intros inRun Hs; [reflexivity|].
  cbn [collapseRuns]. destruct (inClass c) eqn:Hc.
  - assert (Hne : (c =? 60)%N = false).
    { destruct (c =? 60)%N eqn:E; [|reflexivity]. apply N.eqb_eq in E. congruence. }
    cbn [tagFree] in Hs. rewrite Hne in Hs.
    destruct inRun; cbn [tagFree]; rewrite ?Hr60; now apply IH.
  - cbn [tagFree] in Hs |- *. destruct (c =? 60)%N; [|now apply IH].
    destruct (startsWith s [62%N]) eqn:Hgt.
    + destruct (startsWith_gt _ Hgt) as [t Ht]. subst s. rename t into s.
      pose proof (IH false Hs) as Hrest. cbn [collapseRuns] in Hrest |- *.
      rewrite H62 in Hrest |- *. cbn [startsWith]. rewrite N.eqb_refl. cbn [andb].
      destruct (collapseRuns inClass r false s); exact Hrest.
    + pose proof (noGt_collapseRuns s Hr62 false Hs) as Hno.
      now rewrite (noGt_head _ Hno).
Qed.

Lemma noDouble_cons c a s :
  noDouble c (a :: s) = negb ((a =? c)%N && headIs c s) && noDouble c s.
Proof. reflexivity. Qed.

(** One run gives one [r]. *)
Lemma noDouble_collapsed s :
  inClass r = true ->
  forall inRun,
    noDouble r (collapseRuns inClass r inRun s) = true /\
    (inRun = true -> headIs r (collapseRuns inClass r inRun s) = false).
Proof.
  intros Hr. induction s as [|c s IH]; intros inRun; [easy|].
  cbn [collapseRuns]. destruct (inClass c) eqn:Hc.
  - destruct inRun.
    + apply IH.
    + destruct (IH true) as [Hd Hh]. split; [|discriminate].
      rewrite noDouble_cons, Hd, (Hh eq_refl), andb_false_r. reflexivity.
  - destruct (IH false) as [Hd _].
    assert (Hne : (c =? r)%N = false).
    { destruct (c =? r)%N eqn:E; [|reflexivity]. apply N.eqb_eq in E. congruence. }
    split; [|intros _; exact Hne]. rewrite noDouble_cons, Hd, Hne. reflexivity.
Qed.

(** Collapsing the runs of another class brings no two [c] together. *)
Lemma headIs_collapseRuns c s :
  inClass c = false -> (r =? c)%N = false ->
  headIs c (collapseRuns inClass r false s) = true -> headIs c s = true.
Proof.
  intros Hc Hr. destruct s as [|a s]; [easy|]. cbn [collapseRuns].
  destruct (inClass a); cbn [headIs]; [congruence | easy].
Qed.

Lemma noDouble_collapseRuns c s :
  inClass c = false -> (r =? c)%N = false ->
  forall inRun,
    noDouble c s = true -> noDouble c (collapseRuns inClass r inRun s) = true.
Proof.
  intros Hc Hr. induction s as [|a s IH]; intros inRun Hs; [easy|].
  rewrite noDouble_cons in Hs. apply andb_true_iff in Hs as [Ha Hs].
  cbn [collapseRuns]. destruct (inClass a) eqn:Hina.
  - destruct inRun; [now apply IH|].
    rewrite noDouble_cons, Hr. cbn [andb negb]. now apply IH.
  - rewrite noDouble_cons, (IH false Hs), andb_true_r.
    destruct (a =? c)%N eqn:Hac; [|reflexivity]. cbn [andb] in Ha |- *.
    apply negb_true_iff in Ha. apply negb_true_iff.
    destruct (headIs c (collapseRuns inClass r false s)) eqn:Hout; [|reflexivity].
    now rewrite (headIs_collapseRuns c s Hc Hr Hout) in Ha.
Qed.

(** What is left of the class is [r]. *)
Lemma collapseRuns_class s :
  forall inRun,
    Forall (fun c => inClass c = true -> c = r) (collapseRuns inClass r inRun s).
Proof.
  induction s as [|a s IH]; intros inRun; [constructor|]. cbn [collapseRuns].
  destruct (inClass a) eqn:Ha; [destruct inRun|]; try apply IH.
  - constructor; [easy | apply IH].
  - constructor; [congruence | apply IH].
Qed.

(** Collapsing brings in no character but [r]. *)
Lemma collapseRuns_chars (P : N -> Prop) s :
  P r -> forall inRun, Forall P s -> Forall P (collapseRuns inClass r inRun s).
Proof.
  intros Hr. induction s as [|a s IH]; intros inRun Hs; [constructor|].
  apply Forall_cons in Hs as [Ha Hs]. cbn [collapseRuns].
  destruct (inClass a); [destruct inRun|]; try constructor; auto.
Qed.

End Collapsing.

Lemma noDouble_app c a b : noDouble c (a ++ b) = true -> noDouble c a = true /\ noDouble c b = true.
Proof.
  induction a as [|x a IH]; [easy|]. cbn [app]. rewrite !noDouble_cons.
  intros E. apply andb_true_iff in E as [Hx Hrest]. destruct (IH Hrest) as [Ha Hb].
  split; [|exact Hb]. rewrite Ha, andb_true_r.
  destruct a as [|y a]; [now rewrite andb_false_r | exact Hx].
Qed.

Lemma noDouble_middle c a m b : noDouble c (a ++ m ++ b) = true -> noDouble c m = true.
Proof.
  intros E. apply noDouble_app in E as [_ E]. now apply noDouble_app in E as [E _].
Qed.

Section WithRenderer.
Variable render : jsstring -> jsstring.

(** X29. The plain text holds no tag: at no position of the result of
    [markdownToPlain] does the expression [<[^>]+>] of the tags match, also
    not through the characters that the later replacements bring together. *)
Theorem markdownToPlain_leaves_no_tag (mdContent : jsstring) (n : nat) :
  tagMatch (drop n (markdownToPlain render mdContent)) = None.
Proof.
  apply tagFree_no_match
    with (s := markdownToPlain render mdContent)
         (a := take n (markdownToPlain render mdContent));
    [|now rewrite take_drop].
  unfold markdownToPlain, htmlToPlain. cbv zeta.
  set (s2 := replaceAll (spanMatch (lit "<script") (lit "</script>")) space _).
  set (s5 := collapseRuns isNewline 10 false _).
  destruct (trim_middle s5) as (a & b & Hs5).
  apply tagFree_middle with a b. rewrite <- Hs5. unfold s5.
  apply tagFree_collapseRuns; try reflexivity.
  apply tagFree_collapseRuns; try reflexivity.
  apply (tagFree_replaceAll entityMatch entityMatch_plain
           (length (replaceAll tagMatch space s2))); [reflexivity|].
  apply (tagFree_stripTags (length s2)). reflexivity.
Qed.

(** X30. The white space of the plain text: no two spaces and no two line
    feeds follow each other, no tab, form feed or vertical tab is left, and
    the text neither begins nor ends with white space. *)
Theorem markdownToPlain_normalises_white_space (mdContent : jsstring) :
  noDouble 32 (markdownToPlain render mdContent) = true /\
  noDouble 10 (markdownToPlain render mdContent) = true /\
  Forall (fun c => c <> 9%N /\ c <> 11%N /\ c <> 12%N)
         (markdownToPlain render mdContent) /\
  trim (markdownToPlain render mdContent) = markdownToPlain render mdContent.
Proof.
  unfold markdownToPlain, htmlToPlain. cbv zeta.
  set (s4 := replaceAll entityMatch space _).
  set (s5 := collapseRuns isBlank 32 false s4).
  set (s6 := collapseRuns isNewline 10 false s5).
  destruct (trim_middle s6) as (a & b & Hs6).
  split; [|split; [|split]].
  - apply noDouble_middle with a b. rewrite <- Hs6. unfold s6.
    apply noDouble_collapseRuns; [reflexivity | reflexivity |].
    apply (noDouble_collapsed isBlank 32 s4 eq_refl false).
  - apply noDouble_middle with a b. rewrite <- Hs6.
    apply (noDouble_collapsed isNewline 10 s5 eq_refl false).
  - assert (Hall : Forall (fun c => isBlank c = true -> c = 32%N) s6).
    { unfold s6. apply collapseRuns_chars; [discriminate|]. apply collapseRuns_class. }
    rewrite Hs6 in Hall. apply Forall_app in Hall as [_ Hall].
    apply Forall_app in Hall as [Hall _].
    eapply Forall_impl; [exact Hall|]. cbn beta. intros c Hc.
    repeat split; intros ->; specialize (Hc eq_refl); discriminate.
  - apply trim_idem.
Qed.

End WithRenderer.

End MdProps.
